(** * Flag validation and scope resolution of the gcloud command surface

    A shallow embedding of the validators of
    [googlecloudsdk/command_lib/compute/instances/flags.py], of the Android
    model listing ([surface/firebase/test/android/models/list.py]) and of the
    Dataproc job deletion ([surface/dataproc/jobs/delete.py]).

    Python exceptions are values of [exn]; a function that can raise returns
    a [result]; a parsed dictionary flag is a [gmap] from its keys to its
    values; commands that talk to a collaborator thread the collaborator's
    state explicitly. *)

From Stdlib Require Import ZArith Ascii String List Lia.
From stdpp Require Import base decidable option list strings pretty gmap.

Local Open Scope string_scope.
Local Open Scope list_scope.

(** ** Exceptions and results *)

Inductive exn : Type :=
| ToolException (message : string)
| RequiredArgumentException (parameter_name message : string)
| InvalidArgumentException (parameter_name message : string)
| ConflictingArgumentsException (arguments : list string)
| MalformedInputError (message : string)
| IndexError
| ZeroDivisionError
| RequiredPropertyError (property : string)
| HttpError (content : string)
| HttpException (message : string)
| CollaboratorError (message : string).

Inductive result (A : Type) : Type :=
| Ok (a : A)
| Raise (e : exn).

Arguments Ok {A} a.
Arguments Raise {A} e.

#[export] Instance result_ret : MRet result := fun A a => Ok a.
#[export] Instance result_bind : MBind result := fun A B k c =>
  match c with
  | Ok a => k a
  | Raise e => Raise e
  end.

Definition is_raise {A : Type} (r : result A) : bool :=
  match r with
  | Ok _ => false
  | Raise _ => true
  end.

(** [if cond: raise e] *)
Definition raise_if (cond : bool) (e : exn) : result unit :=
  if cond then Raise e else Ok tt.

(** [for x in xs: body(x)], stopping at the first exception. *)
Fixpoint for_each {A : Type} (xs : list A) (body : A → result unit) : result unit :=
  match xs with
  | [] => Ok tt
  | x :: rest => body x;; for_each rest body
  end.

(** A loop that updates one local variable [acc]. *)
Fixpoint for_fold {A S : Type} (xs : list A) (acc : S) (body : S → A → result S)
  : result S :=
  match xs with
  | [] => Ok acc
  | x :: rest => acc' ← body acc x; for_fold rest acc' body
  end.

(** ** Python truthiness *)

Class Truthy (A : Type) : Type := truthy : A → bool.

#[export] Instance truthy_bool : Truthy bool := fun b => b.
#[export] Instance truthy_string : Truthy string :=
  fun s => match s with EmptyString => false | String _ _ => true end.
#[export] Instance truthy_Z : Truthy Z := fun n => negb (n =? 0)%Z.
#[export] Instance truthy_list {A : Type} : Truthy (list A) :=
  fun l => match l with [] => false | _ :: _ => true end.
#[export] Instance truthy_option {A : Type} `{Truthy A} : Truthy (option A) :=
  fun o => match o with None => false | Some a => truthy a end.

(** [xs or []] *)
Definition or_empty {A : Type} (xs : option (list A)) : list A :=
  match xs with
  | Some l => l
  | None => []
  end.

(** [str(x)] of an optional string, as [format] renders it. *)
Definition str_of (o : option string) : string :=
  match o with
  | Some s => s
  | None => "None"
  end.

(** [sep.join(xs)] *)
Fixpoint join (sep : string) (xs : list string) : string :=
  match xs with
  | [] => ""
  | [x] => x
  | x :: rest => x +:+ sep +:+ join sep rest
  end.

(** [s.replace(a, b)] for single characters. *)
Fixpoint replace_char (a b : ascii) (s : string) : string :=
  match s with
  | EmptyString => EmptyString
  | String c rest =>
      String (if Ascii.eqb c a then b else c) (replace_char a b rest)
  end.

(** [a % b] on integers: the sign follows the divisor, and a zero divisor
    raises. *)
Definition py_mod (a b : Z) : result Z :=
  if (b =? 0)%Z then Raise ZeroDivisionError else Ok (a `mod` b)%Z.

(** [v == 'lit'] for the result of [dict.get]. *)
Definition eq_str (v : option string) (lit : string) : bool :=
  bool_decide (v = Some lit).

(** [v in (a, b)] *)
Definition in_pair (v : option string) (a b : string) : bool :=
  eq_str v a || eq_str v b.

(** ** [command_lib/compute/instances/flags.py]: the parsed arguments *)

Module Flags.

(** One [--disk] value: [ArgDict] over string-valued keys. *)
Abbreviation DiskDict := (gmap string string).

(** One [--network-interface] value: [ArgDict] with [allow_key_only], so a
    key given without [=] is present with value [None]. *)
Abbreviation NicDict := (gmap string (option string)).

(** One [--local-ssd] value.  Its [ArgDict] spec fixes the keys and gives each
    its own type ([size] is the byte count [BinarySize] returns), so the
    dictionary is a record of optional fields and [get] a projection. *)
Record LocalSsd : Type := {
  ssd_device_name : option string;
  ssd_interface : option string;
  ssd_size : option Z
}.

(** The argparse namespace, restricted to the attributes the validators read.
    A flag that was not given, or that the command does not declare, is
    [None]; [store_true] flags are booleans. *)
Record Namespace : Type := {
  disk : option (list DiskDict);
  instance_names : list string;
  image : option string;
  boot_disk_device_name : option string;
  boot_disk_type : option string;
  boot_disk_size : option Z;
  boot_disk_auto_delete : bool;
  boot_disk_kms_key : option string;
  boot_disk_kms_keyring : option string;
  boot_disk_kms_location : option string;
  boot_disk_kms_project : option string;
  no_service_account : bool;
  no_scopes : bool;
  scopes : option (list string);
  local_ssd : option (list LocalSsd);
  network_interface : option (list NicDict);
  address : option string;
  network : option string;
  private_network_ip : option string;
  subnet : option string
}.

(** [getattr(args, name, None)] for the string-valued attributes
    [ValidateNicFlags] looks up by name. *)
Definition getattr (args : Namespace) (name : string) : option string :=
  if String.eqb name "address" then address args
  else if String.eqb name "network" then network args
  else if String.eqb name "private_network_ip" then private_network_ip args
  else if String.eqb name "subnet" then subnet args
  else None.

Definition LOCAL_SSD_INTERFACES : list string := ["NVME"; "SCSI"].

(** The part of [googlecloudsdk.api_lib.compute.constants] the module reads;
    the values are declared outside this file. *)
Record Constants : Type := {
  BYTES_IN_ONE_GB : Z;
  MAX_RESULTS_PER_PAGE : Z
}.

(** ** Disk validators *)

Definition ValidateDiskAccessModeFlags (args : Namespace) : result unit :=
  for_each (or_empty (disk args)) (fun disk =>
    let disk_name := disk !! "name" in
    let mode_value := disk !! "mode" in
    raise_if ((1 <? length (instance_names args))%nat && eq_str mode_value "rw")
      (ToolException
         ("Cannot attach disk [" +:+ str_of disk_name +:+
          "] in read-write mode to more than one instance."))).

Definition TWO_BOOT_DISKS : string :=
  "Each instance can have exactly one boot disk. At least two " +:+
  "boot disks were specified through [--disk].".

Definition BOOT_DISK_AND_IMAGE : string :=
  "Each instance can have exactly one boot disk. One boot disk " +:+
  "was specified through [--disk] and another through [--image].".

(** The body of the loop of [ValidateDiskBootFlags]; [boot_disk_specified] is
    the local variable it updates. *)
Definition boot_flag_step (boot_disk_specified : bool) (disk : DiskDict)
  : result bool :=
  let boot_value := disk !! "boot" in
  raise_if (truthy boot_value && negb (in_pair boot_value "yes" "no"))
    (ToolException
       ("Value for [boot] in [--disk] must be [yes] or [no], not [" +:+
        str_of boot_value +:+ "]."));;
  if eq_str boot_value "yes" then
    if boot_disk_specified then Raise (ToolException TWO_BOOT_DISKS)
    else Ok true
  else Ok boot_disk_specified.

Definition new_boot_disk_only (flag : string) : exn :=
  ToolException
    ("[" +:+ flag +:+ "] can only be used when creating a new boot disk.").

Definition ValidateDiskBootFlags (args : Namespace) (enable_kms : bool)
  : result unit :=
  boot_disk_specified ← for_fold (or_empty (disk args)) false boot_flag_step;
  raise_if (truthy (image args) && boot_disk_specified)
    (ToolException BOOT_DISK_AND_IMAGE);;
  if (boot_disk_specified : bool) then
    raise_if (truthy (boot_disk_device_name args))
      (new_boot_disk_only "--boot-disk-device-name");;
    raise_if (truthy (boot_disk_type args))
      (new_boot_disk_only "--boot-disk-type");;
    raise_if (truthy (boot_disk_size args))
      (new_boot_disk_only "--boot-disk-size");;
    raise_if (negb (boot_disk_auto_delete args))
      (new_boot_disk_only "--no-boot-disk-auto-delete");;
    if enable_kms then
      raise_if (truthy (boot_disk_kms_key args))
        (new_boot_disk_only "--boot-disk-kms-key");;
      raise_if (truthy (boot_disk_kms_keyring args))
        (new_boot_disk_only "--boot-disk-kms-keyring");;
      raise_if (truthy (boot_disk_kms_location args))
        (new_boot_disk_only "--boot-disk-kms-location");;
      raise_if (truthy (boot_disk_kms_project args))
        (new_boot_disk_only "--boot-disk-kms-project")
    else Ok tt
  else Ok tt.

(** ** Service account and scopes *)

Definition ValidateServiceAccountAndScopeArgs (args : Namespace) : result unit :=
  raise_if (no_service_account args && negb (no_scopes args))
    (RequiredArgumentException "--no-scopes"
       ("required with argument " +:+ "--no-service-account"));;
  for_each (or_empty (scopes args)) (fun scope =>
    raise_if (negb (truthy scope))
      (InvalidArgumentException "--scopes" "Scope cannot be an empty string.")).

(** ** Local SSDs *)

Definition ValidateLocalSsdFlags (K : Constants) (args : Namespace)
  : result unit :=
  for_each (or_empty (local_ssd args)) (fun local_ssd =>
    let interface := ssd_interface local_ssd in
    raise_if (truthy interface &&
              negb (existsb (fun ok => eq_str interface ok) LOCAL_SSD_INTERFACES))
      (InvalidArgumentException "--local-ssd:interface"
         ("Unexpected local SSD interface: [" +:+ str_of interface +:+
          "]. Legal values are [" +:+ join ", " LOCAL_SSD_INTERFACES +:+ "]."));;
    let size := ssd_size local_ssd in
    match size with
    | Some n =>
        remainder ← py_mod n (375 * BYTES_IN_ONE_GB K);
        raise_if (negb (remainder =? 0)%Z)
          (InvalidArgumentException "--local-ssd:size"
             ("Unexpected local SSD size: [" +:+ pretty n +:+
              "]. Legal values are positive multiples of 375GB."))
    | None => Ok tt
    end).

(** ** Network interfaces *)

Definition ValidateNicFlags (args : Namespace) : result unit :=
  match network_interface args with
  | None => Ok tt
  | Some network_interface =>
      for_each network_interface (fun ni =>
        raise_if (bool_decide (is_Some (ni !! "address")) &&
                  bool_decide (is_Some (ni !! "no-address")))
          (InvalidArgumentException "--network-interface"
             "specifies both address and no-address for one interface"));;
      let conflicting_args :=
        ["address"; "network"; "private_network_ip"; "subnet"] in
      let conflicting_args_present :=
        List.filter (fun arg => truthy (getattr args arg)) conflicting_args in
      if negb (truthy conflicting_args_present) then Ok tt
      else
        let conflicting_args :=
          map (fun arg => "--" +:+ replace_char "_" "-" arg)
              conflicting_args_present in
        Raise (ConflictingArgumentsException
                 ["--network-interface";
                  "all of the following: " +:+ join ", " conflicting_args])
  end.

(** ** Byte sizes *)

(** Multipliers of the unit suffixes; the table is declared with the parser
    [arg_parsers.BinarySize], outside this file, and is taken as given. *)
Record SizeUnits : Type := {
  KB : Z;
  MB : Z;
  GB : Z;
  TB : Z
}.

(** Modelled from the spec: the suffixes [arg_parsers.BinarySize] accepts,
    "unit suffix (KB/MB/GB/TB)". *)
Definition unit_scale (U : SizeUnits) (suffix : string) : option Z :=
  if String.eqb suffix "KB" then Some (KB U)
  else if String.eqb suffix "MB" then Some (MB U)
  else if String.eqb suffix "GB" then Some (GB U)
  else if String.eqb suffix "TB" then Some (TB U)
  else None.

Definition is_digit (c : ascii) : bool :=
  (48 <=? nat_of_ascii c)%nat && (nat_of_ascii c <=? 57)%nat.

(** Modelled from the spec: the "numeric magnitude" of a size given to
    [arg_parsers.BinarySize] is the run of decimal digits [s] starts with,
    most significant first; what follows is the suffix. *)
Fixpoint split_digits (s : string) : list ascii * string :=
  match s with
  | String c rest =>
      if is_digit c then
        let '(ds, suffix) := split_digits rest in (c :: ds, suffix)
      else ([], s)
  | EmptyString => ([], EmptyString)
  end.

(** Modelled from the spec: the number the digits of a size given to
    [arg_parsers.BinarySize] denote. *)
Definition magnitude (ds : list ascii) : Z :=
  fold_left (fun acc c => 10 * acc + (Z.of_nat (nat_of_ascii c) - 48))%Z ds 0%Z.

(** Modelled from the spec: the parser [arg_parsers.BinarySize] is not among
    the sources.  "Byte-size parsing accepts a numeric magnitude plus unit
    suffix (KB/MB/GB/TB)": anything else is a [MalformedInputError]. *)
Definition parse_size (U : SizeUnits) (s : string) : result Z :=
  let '(ds, suffix) := split_digits s in
  match ds, unit_scale U suffix with
  | _ :: _, Some scale => Ok (magnitude ds * scale)%Z
  | _, _ => Raise (MalformedInputError s)
  end.

(** Modelled from the spec: [arg_parsers.BinarySize] "enforces a declared lower
    bound, and fails with MalformedInputError if below bound or not a multiple
    of a declared granularity".  A bound or granularity that is not declared
    is not checked. *)
Definition BinarySize (U : SizeUnits) (lower_bound granularity : option string)
  (s : string) : result Z :=
  size ← parse_size U s;
  match lower_bound with
  | Some lb =>
      bound ← parse_size U lb;
      raise_if (size <? bound)%Z (MalformedInputError s)
  | None => Ok tt
  end;;
  match granularity with
  | Some g =>
      step ← parse_size U g;
      remainder ← py_mod size step;
      raise_if (negb (remainder =? 0)%Z) (MalformedInputError s)
  | None => Ok tt
  end;;
  Ok size.

(** The parser [AddLocalSsdArgsWithSize] declares for the [size] key:
    [arg_parsers.BinarySize(lower_bound='375GB')]. *)
Definition local_ssd_size_type (U : SizeUnits) : string → result Z :=
  BinarySize U (Some "375GB") None.

(** The parser [AddDiskArgs] declares for [--boot-disk-size]. *)
Definition boot_disk_size_type (U : SizeUnits) : string → result Z :=
  BinarySize U (Some "10GB") None.

(** ** Zones of an underspecified instance *)

Record Instance : Type := {
  instance_name : string;
  instance_zone : string
}.

(** The [Zone] message; [messages.Zone(name=n)] sets the name only. *)
Record Zone : Type := {
  zone_name : option string;
  zone_region : option string;
  zone_status : option string
}.

Definition Zone_of_name (n : string) : Zone :=
  {| zone_name := Some n; zone_region := None; zone_status := None |}.

Record ComputeInstancesAggregatedListRequest : Type := {
  filter : string;
  project : string;
  maxResults : Z
}.

(** An entry of [errors_to_collect]: status code and message. *)
Definition RequestError : Type := Z * string.

Inductive ScopeEnum : Type := ZONE | REGION | GLOBAL.

Inductive LogRecord : Type :=
| log_debug (text : string) (errors : list RequestError)
| log_status_Print (text : string).

(** The collaborators of the lister.  [MakeRequests] is called with
    [errors_to_collect], so it hands back the resources it fetched together
    with the errors it collected; [zones_service_List] and [REGISTRY_Parse]
    (the name of the zone a URL denotes) may raise. *)
Record ComputeClient : Type := {
  MakeRequests :
    ComputeInstancesAggregatedListRequest → list Instance * list RequestError;
  zones_service_List : string → result (list Zone);
  REGISTRY_Parse : string → string → result string;
  core_project : option string
}.

(** [for i in matching_instances: zones.append(...)] *)
Fixpoint zones_of_instances (client : ComputeClient) (project : string)
  (matching_instances : list Instance) (zones : list Zone) : result (list Zone) :=
  match matching_instances with
  | [] => Ok zones
  | i :: rest =>
      zone ← REGISTRY_Parse client (instance_zone i) project;
      zones_of_instances client project rest (zones ++ [Zone_of_name zone])
  end.

Definition ERRORS_FETCHING : string :=
  "Errors fetching filtered aggregate list:" +:+ String "010" "".

(** The value and the records written to the log. *)
Definition InstanceZoneScopeLister (K : Constants) (compute_client : ComputeClient)
  (underspecified_names : list string)
  : result (list (ScopeEnum * list Zone)) * list LogRecord :=
  match underspecified_names with
  | [] => (Raise IndexError, [])
  | instance_name :: _ =>
      match core_project compute_client with
      | None => (Raise (RequiredPropertyError "project"), [])
      | Some project =>
          let request :=
            {| filter := "name eq ^" +:+ instance_name +:+ "$";
               project := project;
               maxResults := MAX_RESULTS_PER_PAGE K |} in
          let '(matching_instances, errors) := MakeRequests compute_client request in
          if truthy errors then
            (zones ← zones_service_List compute_client project;
             Ok [(ZONE, zones)],
             [log_debug ERRORS_FETCHING errors;
              log_status_Print
                ("Error fetching possible zones for instance: [" +:+
                 join ", " underspecified_names +:+ "].")])
          else if negb (truthy matching_instances) then
            (zones ← zones_service_List compute_client project;
             Ok [(ZONE, zones)],
             [log_debug ERRORS_FETCHING errors;
              log_status_Print
                ("Unable to find an instance with name [" +:+
                 instance_name +:+ "].")])
          else
            (zones ← zones_of_instances compute_client project
                       matching_instances [];
             Ok [(ZONE, zones)],
             [])
      end
  end.

(** ** The other validators of the module *)

(** A value of an [ArgDict] whose spec mixes [str] and numeric keys. *)
Inductive ArgValue : Type :=
| StrValue (s : string)
| IntValue (n : Z).

#[global] Instance ArgValue_eq_dec : EqDecision ArgValue.
Proof. solve_decision. Defined.

#[global] Instance truthy_ArgValue : Truthy ArgValue :=
  fun v => match v with StrValue s => truthy s | IntValue n => truthy n end.

(** [str(v)], as [format] renders the result of [dict.get]. *)
Definition str_of_value (v : option ArgValue) : string :=
  match v with
  | Some (StrValue s) => s
  | Some (IntValue n) => pretty n
  | None => "None"
  end.

(** [v in ('a', 'b')] for the result of [dict.get]. *)
Definition value_in_pair (v : option ArgValue) (a b : string) : bool :=
  bool_decide (v = Some (StrValue a)) || bool_decide (v = Some (StrValue b)).

Definition DISK_METAVAR : string :=
  "name=NAME [mode={ro,rw}] [boot={yes,no}] [device-name=DEVICE_NAME] " +:+
  "[auto-delete={yes,no}]".

Definition ValidateDiskCommonFlags (args : Namespace) : result unit :=
  for_each (or_empty (disk args)) (fun disk =>
    let disk_name := disk !! "name" in
    raise_if (negb (truthy disk_name))
      (ToolException
         ("[name] is missing in [--disk]. [--disk] value must be of the form " +:+
          "[" +:+ DISK_METAVAR +:+ "]."));;
    let mode_value := disk !! "mode" in
    raise_if (truthy mode_value && negb (in_pair mode_value "rw" "ro"))
      (ToolException
         ("Value for [mode] in [--disk] must be [rw] or [ro], not [" +:+
          str_of mode_value +:+ "]."));;
    let auto_delete_value := disk !! "auto-delete" in
    raise_if (truthy auto_delete_value &&
              negb (in_pair auto_delete_value "yes" "no"))
      (ToolException
         ("Value for [auto-delete] in [--disk] must be [yes] or [no], not " +:+
          "[" +:+ str_of auto_delete_value +:+ "]."))).

(** The attributes [ValidateCreateDiskFlags] reads with [getattr]; an
    attribute the command does not declare is [None], and then the default of
    the [getattr] call stands. *)
Record CreateDiskAttrs : Type := {
  names : option (list string);
  create_disk : option (list (gmap string ArgValue));
  require_csek_key_create : option bool;
  csek_key_file : option string
}.

Definition ValidateCreateDiskFlags (args : CreateDiskAttrs) : result unit :=
  let require_csek_key_create := require_csek_key_create args in
  let csek_key_file := csek_key_file args in
  let resource_names := default [] (names args) in
  for_each (or_empty (create_disk args)) (fun disk =>
    let disk_name := disk !! "name" in
    raise_if ((1 <? length resource_names)%nat && truthy disk_name)
      (ToolException
         ("Cannot create a disk with [name]=" +:+ str_of_value disk_name +:+
          " for more than one instance."));;
    raise_if (negb (truthy disk_name) && truthy require_csek_key_create &&
              truthy csek_key_file)
      (ToolException
         ("Cannot create a disk with customer supplied key when disk name " +:+
          "is not specified."));;
    let mode_value := disk !! "mode" in
    raise_if (truthy mode_value && negb (value_in_pair mode_value "rw" "ro"))
      (ToolException
         ("Value for [mode] in [--disk] must be [rw] or [ro], not [" +:+
          str_of_value mode_value +:+ "]."));;
    let image_value := disk !! "image" in
    let image_family_value := disk !! "image-family" in
    raise_if (truthy image_value && truthy image_family_value)
      (ToolException
         ("Cannot specify [image] and [image-family] for a [--create-disk]. " +:+
          "The fields are mutually exclusive."))).

(** The one namespace [args] is read through [Namespace] by the first three
    validators and through [CreateDiskAttrs] by the last. *)
Definition ValidateDiskFlags (args : Namespace) (create_attrs : CreateDiskAttrs)
  (enable_kms : bool) : result unit :=
  ValidateDiskCommonFlags args;;
  ValidateDiskAccessModeFlags args;;
  ValidateDiskBootFlags args enable_kms;;
  ValidateCreateDiskFlags create_attrs.

(** The namespace of the commands on access configurations, where
    [--network-interface] is the name of an interface. *)
Record AccessConfigArgs : Type := {
  interface_name : option string;
  public_dns : option bool;
  public_ptr : option bool;
  public_ptr_domain : option string;
  no_public_ptr : option bool;
  network_tier : option string
}.

Definition ValidatePublicDnsFlags (DEFAULT_NETWORK_INTERFACE : string)
  (args : AccessConfigArgs) : result unit :=
  let network_interface := interface_name args in
  let public_dns := public_dns args in
  if bool_decide (public_dns = Some true) then
    match network_interface with
    | Some ni =>
        raise_if (negb (String.eqb ni DEFAULT_NETWORK_INTERFACE))
          (ToolException
             ("Public DNS can only be enabled for default network interface " +:+
              "'" +:+ DEFAULT_NETWORK_INTERFACE +:+ "' rather than '" +:+ ni +:+
              "'."))
    | None => Ok tt
    end
  else Ok tt.

Definition ValidatePublicPtrFlags (DEFAULT_NETWORK_INTERFACE : string)
  (args : AccessConfigArgs) : result unit :=
  let network_interface := interface_name args in
  let public_ptr := public_ptr args in
  (if bool_decide (public_ptr = Some true) then
     match network_interface with
     | Some ni =>
         raise_if (negb (String.eqb ni DEFAULT_NETWORK_INTERFACE))
           (ToolException
              ("Public PTR can only be enabled for default network interface " +:+
               "'" +:+ DEFAULT_NETWORK_INTERFACE +:+ "' rather than '" +:+ ni +:+
               "'."))
     | None => Ok tt
     end
   else Ok tt);;
  raise_if (bool_decide (is_Some (public_ptr_domain args)) &&
            bool_decide (no_public_ptr args = Some true))
    (ConflictingArgumentsException ["--public-ptr-domain"; "--no-public-ptr"]).





(** [--accelerator]: one [ArgDict] with a [str] and an [int] key. *)
Definition ValidateAcceleratorArgs (accelerator : option (gmap string ArgValue))
  : result unit :=
  let accelerator_args := accelerator in
  match accelerator_args with
  | Some d =>
      if negb (bool_decide (d = ∅)) then
        let accelerator_type_name := default (StrValue "") (d !! "type") in
        raise_if (negb (truthy accelerator_type_name))
          (InvalidArgumentException "--accelerator"
             ("accelerator type must be specified. " +:+
              "e.g. --accelerator type=nvidia-tesla-k80,count=2"))
      else Ok tt
  | None => Ok tt
  end.

(** What the parser knows of the command line: [args.IsSpecified(dest)] and
    [args.GetSpecifiedArgNames()]. *)
Record SpecifiedArgs : Type := {
  IsSpecified : string → bool;
  GetSpecifiedArgNames : list string
}.

Definition ValidateKonletArgs (args : SpecifiedArgs) : result unit :=
  raise_if (negb (IsSpecified args "container_image"))
    (RequiredArgumentException "--container-image"
       "You must provide container image").

(** [l.remove(x)] for an [x] that is in [l]: the first occurrence goes. *)
Fixpoint list_remove (x : string) (l : list string) : list string :=
  match l with
  | [] => []
  | y :: rest => if String.eqb x y then rest else y :: list_remove x rest
  end.

Definition SOURCE_TEMPLATE_WARNING : string :=
  "When a source instance template is used, additional " +:+
  "parameters other than --machine-type and --labels will " +:+
  "be ignored but provided by the source instance " +:+
  "template" +:+ String "010" "".

Definition allowed_flags : list string :=
  ["--project"; "--zone"; "--region"; "--source-instance-template";
   "INSTANCE_NAMES:1"; "--machine-type"; "--custom-cpu"; "--custom-memory";
   "--labels"].

(** The names left in [specified_args] after the loop over [flags]. *)
Fixpoint drop_allowed (flags specified_args : list string) : list string :=
  match flags with
  | [] => specified_args
  | flag :: rest =>
      drop_allowed rest
        (if bool_decide (flag ∈ specified_args)
         then list_remove flag specified_args
         else specified_args)
  end.

(** The function returns nothing; its value here is what it writes to
    [log.status]. *)
Definition WarnForSourceInstanceTemplateLimitations (args : SpecifiedArgs)
  : list string :=
  if IsSpecified args "source_instance_template" then
    let specified_args := drop_allowed allowed_flags (GetSpecifiedArgNames args) in
    if truthy specified_args then [SOURCE_TEMPLATE_WARNING] else []
  else [].

(** ** Resolving [--address] *)

Record AddressRef : Type := {
  address_name : string;
  address_project : string;
  address_region : string
}.

Record ComputeAddressesGetRequest : Type := {
  get_address : string;
  get_project : string;
  get_region : string
}.

(** The [Address] message, as far as the module reads it. *)
Record Address : Type := {
  Address_address : string
}.

(** What [ExpandAddressFlag] calls outside the module: [ipaddress.ip_address]
    (whether the text is an IPv4 or IPv6 address), [resources.Parse] for the
    collection [compute.addresses], [MakeRequests] with [errors_to_collect],
    and the exception [utils.RaiseToolException] builds from the errors and
    the message. *)
Record AddressServices : Type := {
  ip_address : string → bool;
  resources_Parse : string → option string → result AddressRef;
  addresses_MakeRequests :
    ComputeAddressesGetRequest → list Address * list RequestError;
  RaiseToolException : list RequestError → string → exn
}.

Definition GetAddressRef (services : AddressServices) (address : string)
  (region : option string) : result AddressRef :=
  resources_Parse services address region.

Definition address_get_request (address_ref : AddressRef)
  : ComputeAddressesGetRequest :=
  {| get_address := address_name address_ref;
     get_project := address_project address_ref;
     get_region := address_region address_ref |}.

(** The value, and the requests sent. *)
Definition _GetAddress (services : AddressServices) (address_ref : AddressRef)
  : result Address * list ComputeAddressesGetRequest :=
  let request := address_get_request address_ref in
  let '(res, errors) := addresses_MakeRequests services request in
  (if truthy errors then
     Raise (RaiseToolException services errors
              "Could not fetch address resource:")
   else
     match res with
     | first :: _ => Ok first
     | [] => Raise IndexError
     end,
   [request]).

Definition ExpandAddressFlag (services : AddressServices)
  (address_flag : option string) (region : option string)
  : result (option string) * list ComputeAddressesGetRequest :=
  match address_flag with
  | None => (Ok None, [])
  | Some text =>
      if negb (truthy text) then (Ok None, [])
      else if ip_address services text then (Ok (Some text), [])
      else
        match GetAddressRef services text region with
        | Raise e => (Raise e, [])
        | Ok address_ref =>
            let '(res, sent) := _GetAddress services address_ref in
            (found ← res; Ok (Some (Address_address found)), sent)
        end
  end.

End Flags.

(** ** [surface/firebase/test/android/models/list.py] *)

Module ModelsList.

Record AndroidModel : Type := {
  id : string;
  manufacturer : string;
  name : string;
  form : string;
  screenX : Z;
  screenY : Z;
  supportedVersionIds : list string;
  tags : list string
}.

Record AndroidDeviceCatalog : Type := {
  models : list AndroidModel
}.

(** [util.GetAndroidCatalog(self.context)] asks the backing service and may
    raise; the command is given the outcome. *)
Definition Run (GetAndroidCatalog : result AndroidDeviceCatalog)
  : result (list AndroidModel) :=
  catalog ← GetAndroidCatalog;
  Ok (List.filter (fun model => truthy (supportedVersionIds model))
        (models catalog)).

End ModelsList.

(** ** [surface/dataproc/jobs/delete.py] *)

Module JobsDelete.

Record JobRef : Type := {
  projectId : string;
  jobId : string
}.

Record DataprocProjectsJobsDeleteRequest : Type := {
  request_projectId : string;
  request_jobId : string
}.

(** What the command does that can be observed from outside, in order. *)
Inductive Event : Type :=
| PromptContinue_shown (message : string)
| Delete_sent (request : DataprocProjectsJobsDeleteRequest)
| WaitForResourceDeletion_started (job_ref : JobRef) (message : string)
| DeletedResource_logged (job_ref : JobRef).

(** [self.context] and the console, over a remote state [R] that only the
    service calls can change.  [PromptContinue] is the operator's answer to
    the message shown. *)
Record Context (R : Type) : Type := {
  ParseJob : string → result JobRef;
  PromptContinue : string → bool;
  projects_jobs_Delete : DataprocProjectsJobsDeleteRequest → R → result unit * R;
  WaitForResourceDeletion : JobRef → R → result unit * R;
  FormatHttpError : string → string
}.

Arguments ParseJob {R} _ _.
Arguments PromptContinue {R} _ _.
Arguments projects_jobs_Delete {R} _ _ _.
Arguments WaitForResourceDeletion {R} _ _ _.
Arguments FormatHttpError {R} _ _.

(** The state a run threads: the remote job records and the events so far. *)
Record World (R : Type) : Type := {
  remote : R;
  trace : list Event
}.

Arguments remote {R} _.
Arguments trace {R} _.
Arguments Build_World {R} _ _.

Definition M (R A : Type) : Type := World R → result A * World R.

#[export] Instance M_ret {R : Type} : MRet (M R) := fun A a w => (Ok a, w).

#[export] Instance M_bind {R : Type} : MBind (M R) := fun A B k c w =>
  match c w with
  | (Ok a, w') => k a w'
  | (Raise e, w') => (Raise e, w')
  end.

Definition raise {R A : Type} (e : exn) : M R A := fun w => (Raise e, w).

Definition lift {R A : Type} (r : result A) : M R A := fun w => (r, w).

Definition emit {R : Type} (e : Event) : M R unit :=
  fun w => (Ok tt, {| remote := remote w; trace := trace w ++ [e] |}).

(** A service call: it acts on the remote state alone. *)
Definition call {R A : Type} (f : R → result A * R) : M R A :=
  fun w =>
    let '(r, remote') := f (remote w) in
    (r, {| remote := remote'; trace := trace w |}).

(** The decorator [util.HandleHttpError], declared outside this file: it
    catches the [HttpError] of the API client and raises an [HttpException]
    with the formatted message; every other exception passes through. *)
Definition HandleHttpError {R A : Type} (ctx : Context R) (body : M R A) : M R A :=
  fun w =>
    match body w with
    | (Raise (HttpError error), w') =>
        (Raise (HttpException (FormatHttpError ctx error)), w')
    | out => out
    end.

Definition Run {R : Type} (ctx : Context R) (args_id : string) : M R unit :=
  HandleHttpError ctx (
    job_ref ← lift (ParseJob ctx args_id);
    let request :=
      {| request_projectId := projectId job_ref;
         request_jobId := jobId job_ref |} in
    let message := "The job '" +:+ args_id +:+ "' will be deleted." in
    emit (PromptContinue_shown message);;
    (if negb (PromptContinue ctx message)
     then raise (ToolException "Deletion aborted by user.")
     else mret tt);;
    emit (Delete_sent request);;
    call (projects_jobs_Delete ctx request);;
    emit (WaitForResourceDeletion_started job_ref "Waiting for job deletion");;
    call (WaitForResourceDeletion ctx job_ref);;
    emit (DeletedResource_logged job_ref)).

End JobsDelete.

(** ** [surface/compute/routers/update.py] *)

Module RoutersUpdate.

Section Model.

(** The enumerations of [messages.RouterBgp], its prefix message, the router
    reference and the rest of the namespace are declared outside this file. *)
Context {Mode Group Prefix Ref Other : Type}.

Record RouterBgp : Type := {
  asn : option Z;
  advertiseMode : option Mode;
  advertisedGroups : list Group;
  advertisedPrefixs : list Prefix
}.

Record Router : Type := {
  router_name : string;
  bgp : RouterBgp
}.

(** The flags [Run] reads itself; [router_utils] reads the others. *)
Record Args : Type := {
  add_advertisement_groups : option (list string);
  remove_advertisement_groups : option (list string);
  add_advertisement_ranges : option (list (string * string));
  remove_advertisement_ranges : option (list string);
  other_flags : Other
}.

(** [router_utils] and the resource argument: pure helpers that may raise.
    The two [Remove...] helpers change the resource they are given. *)
Record RouterUtils : Type := {
  CheckIncompatibleFlagsOrRaise : Args → result unit;
  ResolveAsResource : Args → result Ref;
  HasReplaceAdvertisementFlags : Args → bool;
  ParseAdvertisements :
    Args → result (option Mode * option (list Group) * option (list Prefix));
  PromptIfSwitchToDefaultMode : option Mode → option Mode → result unit;
  HasIncrementalAdvertisementFlags : Args → bool;
  ValidateCustomMode : RouterBgp → result unit;
  ParseGroups : list string → result (list Group);
  RemoveGroupsFromAdvertisements : RouterBgp → list Group → result RouterBgp;
  ParseIpRanges : list (string * string) → result (list Prefix);
  RemoveIpRangesFromAdvertisements : RouterBgp → list string → result RouterBgp
}.

(** [client.MakeRequests] on the Get and on the Patch request, over the
    remote state [R]; the Patch is sent with the cleared fields included. *)
Record Client (R : Type) : Type := {
  Get : Ref → R → result (list Router) * R;
  Patch : Ref → Router → list string → R → result (list Router) * R
}.

Inductive Event : Type :=
| Get_sent (ref : Ref)
| Patch_sent (ref : Ref) (replacement : Router) (cleared_fields : list string).

Record World (R : Type) : Type := {
  remote : R;
  trace : list Event
}.

Definition M (R A : Type) : Type := World R → result A * World R.

#[global] Instance M_ret {R : Type} : MRet (M R) := fun A a w => (Ok a, w).

#[global] Instance M_bind {R : Type} : MBind (M R) := fun A B k c w =>
  match c w with
  | (Ok a, w') => k a w'
  | (Raise e, w') => (Raise e, w')
  end.

Definition lift {R A : Type} (r : result A) : M R A := fun w => (r, w).

(** A request: it is recorded, then acts on the remote state alone. *)
Definition send {R A : Type} (e : Event) (f : R → result A * R) : M R A :=
  fun w =>
    let '(r, remote') := f (remote R w) in
    (r, {| remote := remote'; trace := trace R w ++ [e] |}).

(** [for attr, value in attrs.items(): if value is not None: setattr(...)] *)
Definition set_attrs (b : RouterBgp) (mode : option Mode)
  (groups : option (list Group)) (prefixes : option (list Prefix)) : RouterBgp :=
  {| asn := asn b;
     advertiseMode :=
       match mode with Some m => Some m | None => advertiseMode b end;
     advertisedGroups := default (advertisedGroups b) groups;
     advertisedPrefixs := default (advertisedPrefixs b) prefixes |}.

(** The block under [HasReplaceAdvertisementFlags], on [replacement.bgp]. *)
Definition replace_advertisements (utils : RouterUtils) (args : Args)
  (existing_bgp replacement_bgp : RouterBgp) : result RouterBgp :=
  if HasReplaceAdvertisementFlags utils args then
    '(mode, groups, prefixes) ← ParseAdvertisements utils args;
    PromptIfSwitchToDefaultMode utils (advertiseMode existing_bgp) mode;;
    Ok (set_attrs replacement_bgp mode groups prefixes)
  else Ok replacement_bgp.

(** The block under [HasIncrementalAdvertisementFlags]. *)
Definition incremental_advertisements (utils : RouterUtils) (args : Args)
  (replacement_bgp : RouterBgp) : result RouterBgp :=
  if HasIncrementalAdvertisementFlags utils args then
    ValidateCustomMode utils replacement_bgp;;
    b1 ← match add_advertisement_groups args with
         | Some (g :: gs) =>
             groups_to_add ← ParseGroups utils (g :: gs);
             Ok {| asn := asn replacement_bgp;
                   advertiseMode := advertiseMode replacement_bgp;
                   advertisedGroups :=
                     advertisedGroups replacement_bgp ++ groups_to_add;
                   advertisedPrefixs := advertisedPrefixs replacement_bgp |}
         | _ => Ok replacement_bgp
         end;
    b2 ← match remove_advertisement_groups args with
         | Some (g :: gs) =>
             groups_to_remove ← ParseGroups utils (g :: gs);
             RemoveGroupsFromAdvertisements utils b1 groups_to_remove
         | _ => Ok b1
         end;
    b3 ← match add_advertisement_ranges args with
         | Some (r :: rs) =>
             ip_ranges_to_add ← ParseIpRanges utils (r :: rs);
             Ok {| asn := asn b2;
                   advertiseMode := advertiseMode b2;
                   advertisedGroups := advertisedGroups b2;
                   advertisedPrefixs := advertisedPrefixs b2 ++ ip_ranges_to_add |}
         | _ => Ok b2
         end;
    match remove_advertisement_ranges args with
    | Some (r :: rs) => RemoveIpRangesFromAdvertisements utils b3 (r :: rs)
    | _ => Ok b3
    end
  else Ok replacement_bgp.

(** Cleared list fields need to be explicitly identified for the Patch API. *)
Definition cleared_fields_of (b : RouterBgp) : list string :=
  (if negb (truthy (advertisedGroups b)) then ["bgp.advertisedGroups"] else []) ++
  (if negb (truthy (advertisedPrefixs b)) then ["bgp.advertisedPrefixs"] else []).

Definition Run {R : Type} (utils : RouterUtils) (client : Client R) (args : Args)
  : M R (list Router) :=
  lift (CheckIncompatibleFlagsOrRaise utils args);;
  ref ← lift (ResolveAsResource utils args);
  fetched ← send (Get_sent ref) (Get R client ref);
  existing ← lift (match fetched with
                   | first :: _ => Ok first
                   | [] => Raise IndexError
                   end);
  let replacement := existing in
  b1 ← lift (replace_advertisements utils args (bgp existing) (bgp replacement));
  b2 ← lift (incremental_advertisements utils args b1);
  let replacement := {| router_name := router_name replacement; bgp := b2 |} in
  let cleared_fields := cleared_fields_of (bgp replacement) in
  send (Patch_sent ref replacement cleared_fields)
       (Patch R client ref replacement cleared_fields).

End Model.

Arguments RouterBgp : clear implicits.
Arguments Router : clear implicits.
Arguments Args : clear implicits.
Arguments RouterUtils : clear implicits.
Arguments Client : clear implicits.
Arguments Event : clear implicits.
Arguments World : clear implicits.

End RoutersUpdate.

(** ** Vocabulary of the statements below *)

Module Spec.

(** The entry carries [boot=yes]. *)
Definition boot_yes (disk : gmap string string) : bool :=
  eq_str (disk !! "boot") "yes".

Definition count_boot_yes (disks : list (gmap string string)) : nat :=
  length (List.filter boot_yes disks).

(** The entry's [boot] value is absent, empty, [yes] or [no]. *)
Definition boot_value_legal (disk : gmap string string) : bool :=
  negb (truthy (disk !! "boot") && negb (in_pair (disk !! "boot") "yes" "no")).

Definition BOOT_VALUE_ILLEGAL (disk : gmap string string) : exn :=
  ToolException
    ("Value for [boot] in [--disk] must be [yes] or [no], not [" +:+
     str_of (disk !! "boot") +:+ "].").

(** A command line that gives only positional names, [--disk] values and
    [--image]; every other flag keeps its default. *)
Definition create_args (names : list string)
  (disks : option (list (gmap string string))) (img : option string)
  : Flags.Namespace :=
  {| Flags.disk := disks;
     Flags.instance_names := names;
     Flags.image := img;
     Flags.boot_disk_device_name := None;
     Flags.boot_disk_type := None;
     Flags.boot_disk_size := None;
     Flags.boot_disk_auto_delete := true;
     Flags.boot_disk_kms_key := None;
     Flags.boot_disk_kms_keyring := None;
     Flags.boot_disk_kms_location := None;
     Flags.boot_disk_kms_project := None;
     Flags.no_service_account := false;
     Flags.no_scopes := false;
     Flags.scopes := None;
     Flags.local_ssd := None;
     Flags.network_interface := None;
     Flags.address := None;
     Flags.network := None;
     Flags.private_network_ip := None;
     Flags.subnet := None |}.

(** The same command line with the flags of a new boot disk given too. *)
Definition with_boot_disk_flags (args : Flags.Namespace)
  (device_name type : option string) (size : option Z) (auto_delete : bool)
  : Flags.Namespace :=
  {| Flags.disk := Flags.disk args;
     Flags.instance_names := Flags.instance_names args;
     Flags.image := Flags.image args;
     Flags.boot_disk_device_name := device_name;
     Flags.boot_disk_type := type;
     Flags.boot_disk_size := size;
     Flags.boot_disk_auto_delete := auto_delete;
     Flags.boot_disk_kms_key := Flags.boot_disk_kms_key args;
     Flags.boot_disk_kms_keyring := Flags.boot_disk_kms_keyring args;
     Flags.boot_disk_kms_location := Flags.boot_disk_kms_location args;
     Flags.boot_disk_kms_project := Flags.boot_disk_kms_project args;
     Flags.no_service_account := Flags.no_service_account args;
     Flags.no_scopes := Flags.no_scopes args;
     Flags.scopes := Flags.scopes args;
     Flags.local_ssd := Flags.local_ssd args;
     Flags.network_interface := Flags.network_interface args;
     Flags.address := Flags.address args;
     Flags.network := Flags.network args;
     Flags.private_network_ip := Flags.private_network_ip args;
     Flags.subnet := Flags.subnet args |}.

(** A command line that gives [--network-interface] values and the
    standalone network flags. *)
Definition nic_args (nis : option (list (gmap string (option string))))
  (address network private_network_ip subnet : option string)
  : Flags.Namespace :=
  {| Flags.disk := None;
     Flags.instance_names := [];
     Flags.image := None;
     Flags.boot_disk_device_name := None;
     Flags.boot_disk_type := None;
     Flags.boot_disk_size := None;
     Flags.boot_disk_auto_delete := true;
     Flags.boot_disk_kms_key := None;
     Flags.boot_disk_kms_keyring := None;
     Flags.boot_disk_kms_location := None;
     Flags.boot_disk_kms_project := None;
     Flags.no_service_account := false;
     Flags.no_scopes := false;
     Flags.scopes := None;
     Flags.local_ssd := None;
     Flags.network_interface := nis;
     Flags.address := address;
     Flags.network := network;
     Flags.private_network_ip := private_network_ip;
     Flags.subnet := subnet |}.

(** A command line that gives [--local-ssd] values only. *)
Definition local_ssd_args (ssds : option (list Flags.LocalSsd)) : Flags.Namespace :=
  {| Flags.disk := None;
     Flags.instance_names := [];
     Flags.image := None;
     Flags.boot_disk_device_name := None;
     Flags.boot_disk_type := None;
     Flags.boot_disk_size := None;
     Flags.boot_disk_auto_delete := true;
     Flags.boot_disk_kms_key := None;
     Flags.boot_disk_kms_keyring := None;
     Flags.boot_disk_kms_location := None;
     Flags.boot_disk_kms_project := None;
     Flags.no_service_account := false;
     Flags.no_scopes := false;
     Flags.scopes := None;
     Flags.local_ssd := ssds;
     Flags.network_interface := None;
     Flags.address := None;
     Flags.network := None;
     Flags.private_network_ip := None;
     Flags.subnet := None |}.

(** [--local-ssd size=...] once the size is parsed to [n] bytes. *)
Definition ssd_of_size (n : Z) : Flags.LocalSsd :=
  {| Flags.ssd_device_name := None;
     Flags.ssd_interface := None;
     Flags.ssd_size := Some n |}.

(** The interface of the entry is absent, empty, or one of the legal ones. *)
Definition ssd_interface_legal (ssd : Flags.LocalSsd) : bool :=
  negb (truthy (Flags.ssd_interface ssd) &&
        negb (existsb (fun ok => eq_str (Flags.ssd_interface ssd) ok)
                Flags.LOCAL_SSD_INTERFACES)).

Definition SSD_SIZE_ILLEGAL (n : Z) : exn :=
  InvalidArgumentException "--local-ssd:size"
    ("Unexpected local SSD size: [" +:+ pretty n +:+
     "]. Legal values are positive multiples of 375GB.").

(** Binary units, one gigabyte being 2^30 bytes, for the statements that need
    concrete numbers. *)
Definition binary_units : Flags.SizeUnits :=
  {| Flags.KB := 2 ^ 10; Flags.MB := 2 ^ 20; Flags.GB := 2 ^ 30; Flags.TB := 2 ^ 40 |}.

Definition binary_constants : Flags.Constants :=
  {| Flags.BYTES_IN_ONE_GB := 2 ^ 30; Flags.MAX_RESULTS_PER_PAGE := 500 |}.

(** The request the lister sends for [instance_name]. *)
Definition aggregated_list_request (K : Flags.Constants)
  (instance_name project : string) : Flags.ComputeInstancesAggregatedListRequest :=
  {| Flags.filter := "name eq ^" +:+ instance_name +:+ "$";
     Flags.project := project;
     Flags.maxResults := Flags.MAX_RESULTS_PER_PAGE K |}.

(** The same client when the aggregated list finds nothing and reports no
    error. *)
Definition with_nothing_found (client : Flags.ComputeClient) : Flags.ComputeClient :=
  {| Flags.MakeRequests := fun _ => ([], []);
     Flags.zones_service_List := Flags.zones_service_List client;
     Flags.REGISTRY_Parse := Flags.REGISTRY_Parse client;
     Flags.core_project := Flags.core_project client |}.

(** The part of [s] after its last slash. *)
Fixpoint after_last_slash (current s : string) : string :=
  match s with
  | EmptyString => current
  | String c rest =>
      if Ascii.eqb c "/" then after_last_slash rest rest
      else after_last_slash current rest
  end.

(** A client for project [my-project] whose aggregated list answers
    [response], whose zone listing answers [all_zones], and whose registry
    names a zone by the last segment of its URL. *)
Definition sample_client
  (response : list Flags.Instance * list Flags.RequestError)
  (all_zones : list Flags.Zone) : Flags.ComputeClient :=
  {| Flags.MakeRequests := fun _ => response;
     Flags.zones_service_List := fun _ => Ok all_zones;
     Flags.REGISTRY_Parse := fun url _ => Ok (after_last_slash url url);
     Flags.core_project := Some "my-project" |}.

(** What the operator is asked before the job [args_id] is deleted. *)
Definition prompt_message (args_id : string) : string :=
  "The job '" +:+ args_id +:+ "' will be deleted.".

(** A service that keeps the identifiers of its job records in a set: Delete
    removes the record, the wait finds it gone; the operator answers
    [answer]. *)
Definition sample_context (answer : bool) : JobsDelete.Context (gset string) :=
  {| JobsDelete.ParseJob := fun job =>
       Ok {| JobsDelete.projectId := "my-project"; JobsDelete.jobId := job |};
     JobsDelete.PromptContinue := fun _ => answer;
     JobsDelete.projects_jobs_Delete := fun request jobs =>
       (Ok tt, jobs ∖ {[ JobsDelete.request_jobId request ]});
     JobsDelete.WaitForResourceDeletion := fun _ jobs => (Ok tt, jobs);
     JobsDelete.FormatHttpError := fun content => content |}.

(** The interface gives both [address] and [no-address]. *)
Definition both_addresses (ni : gmap string (option string)) : Prop :=
  is_Some (ni !! "address") ∧ is_Some (ni !! "no-address").

(** The standalone flags [--network-interface] excludes, with their values. *)
Definition standalone_flags (args : Flags.Namespace)
  : list (string * option string) :=
  [("--address", Flags.address args);
   ("--network", Flags.network args);
   ("--private-network-ip", Flags.private_network_ip args);
   ("--subnet", Flags.subnet args)].

Definition standalone_flags_set (args : Flags.Namespace) : list string :=
  map fst (List.filter (fun p => truthy (snd p)) (standalone_flags args)).

(** The value of a two-way choice is absent, empty, or one of the two. *)
Definition choice_legal (v : option string) (a b : string) : Prop :=
  v = None ∨ v = Some "" ∨ v = Some a ∨ v = Some b.

(** The entry has a non-empty [name]. *)
Definition named (disk : gmap string string) : Prop :=
  ∃ s, disk !! "name" = Some s ∧ s ≠ "".

(** What [ValidateDiskCommonFlags] asks of one [--disk] entry. *)
Definition disk_entry_legal (disk : gmap string string) : Prop :=
  named disk ∧
  choice_legal (disk !! "mode") "rw" "ro" ∧
  choice_legal (disk !! "auto-delete") "yes" "no".

(** None of the flags that describe a new boot disk is given. *)
Definition no_new_boot_disk_flags (args : Flags.Namespace) (enable_kms : bool)
  : Prop :=
  truthy (Flags.boot_disk_device_name args) = false ∧
  truthy (Flags.boot_disk_type args) = false ∧
  truthy (Flags.boot_disk_size args) = false ∧
  Flags.boot_disk_auto_delete args = true ∧
  (enable_kms = true →
   truthy (Flags.boot_disk_kms_key args) = false ∧
   truthy (Flags.boot_disk_kms_keyring args) = false ∧
   truthy (Flags.boot_disk_kms_location args) = false ∧
   truthy (Flags.boot_disk_kms_project args) = false).

(** The namespace of a command that declares none of the attributes
    [ValidateCreateDiskFlags] reads. *)
Definition no_create_disk_attrs : Flags.CreateDiskAttrs :=
  {| Flags.names := None;
     Flags.create_disk := None;
     Flags.require_csek_key_create := None;
     Flags.csek_key_file := None |}.

(** What [ValidateCreateDiskFlags] asks of one [--create-disk] entry. *)
Definition create_disk_entry_legal (attrs : Flags.CreateDiskAttrs)
  (disk : gmap string Flags.ArgValue) : Prop :=
  ¬ ((1 < length (default [] (Flags.names attrs)))%nat ∧
     truthy (disk !! "name") = true) ∧
  ¬ (truthy (disk !! "name") = false ∧
     truthy (Flags.require_csek_key_create attrs) = true ∧
     truthy (Flags.csek_key_file attrs) = true) ∧
  (truthy (disk !! "mode") = false ∨
   disk !! "mode" = Some (Flags.StrValue "rw") ∨
   disk !! "mode" = Some (Flags.StrValue "ro")) ∧
  ¬ (truthy (disk !! "image") = true ∧ truthy (disk !! "image-family") = true).

Definition NAMED_DISK_FOR_SEVERAL (name : string) : exn :=
  ToolException
    ("Cannot create a disk with [name]=" +:+ name +:+
     " for more than one instance.").

(** A namespace of an access configuration command. *)
Definition access_config_args (interface : option string)
  (public_ptr : option bool) (domain : option string) (no_ptr : option bool)
  (tier : option string) : Flags.AccessConfigArgs :=
  {| Flags.interface_name := interface;
     Flags.public_dns := None;
     Flags.public_ptr := public_ptr;
     Flags.public_ptr_domain := domain;
     Flags.no_public_ptr := no_ptr;
     Flags.network_tier := tier |}.

Definition PUBLIC_PTR_ON_OTHER_INTERFACE (default_interface interface : string)
  : exn :=
  ToolException
    ("Public PTR can only be enabled for default network interface " +:+
     "'" +:+ default_interface +:+ "' rather than '" +:+ interface +:+ "'.").

Definition ACCELERATOR_TYPE_MISSING : exn :=
  InvalidArgumentException "--accelerator"
    "accelerator type must be specified. e.g. --accelerator type=nvidia-tesla-k80,count=2".

Definition SSD_INTERFACE_ILLEGAL (ssd : Flags.LocalSsd) : exn :=
  InvalidArgumentException "--local-ssd:interface"
    ("Unexpected local SSD interface: [" +:+
     str_of (Flags.ssd_interface ssd) +:+
     "]. Legal values are [NVME, SCSI].").

Definition EMPTY_SCOPE : exn :=
  InvalidArgumentException "--scopes" "Scope cannot be an empty string.".

(** Address services for the statements that need concrete ones: a text of
    digits and dots counts as an IP address, a name is looked up in
    [my-project], and the lookup answers [response]. *)
Definition sample_address_services
  (response : list Flags.Address * list Flags.RequestError)
  : Flags.AddressServices :=
  {| Flags.ip_address := fun text =>
       forallb (fun c => Flags.is_digit c || Ascii.eqb c ".")
         (list_ascii_of_string text);
     Flags.resources_Parse := fun name region =>
       Ok {| Flags.address_name := name;
             Flags.address_project := "my-project";
             Flags.address_region := default "" region |};
     Flags.addresses_MakeRequests := fun _ => response;
     Flags.RaiseToolException := fun _ message => ToolException message |}.

(** A client whose registry cannot parse an empty URL. *)
Definition strict_client
  (response : list Flags.Instance * list Flags.RequestError)
  : Flags.ComputeClient :=
  {| Flags.MakeRequests := fun _ => response;
     Flags.zones_service_List := fun _ => Ok [];
     Flags.REGISTRY_Parse := fun url _ =>
       if truthy url then Ok (after_last_slash url url)
       else Raise (CollaboratorError "could not parse resource");
     Flags.core_project := Some "my-project" |}.

(** Router helpers over names: every enumeration value, prefix and reference
    is its name; flags are never incompatible, groups and ranges parse to
    themselves, removals filter, and the incremental flags need the CUSTOM
    mode. *)
Definition sample_router_utils (replace incremental : bool)
  : RoutersUpdate.RouterUtils string string string string unit :=
  {| RoutersUpdate.CheckIncompatibleFlagsOrRaise := fun _ => Ok tt;
     RoutersUpdate.ResolveAsResource := fun _ => Ok "my-router";
     RoutersUpdate.HasReplaceAdvertisementFlags := fun _ => replace;
     RoutersUpdate.ParseAdvertisements := fun _ =>
       Ok (Some "CUSTOM", None, None);
     RoutersUpdate.PromptIfSwitchToDefaultMode := fun _ _ => Ok tt;
     RoutersUpdate.HasIncrementalAdvertisementFlags := fun _ => incremental;
     RoutersUpdate.ValidateCustomMode := fun b =>
       if bool_decide (RoutersUpdate.advertiseMode b = Some "CUSTOM")
       then Ok tt
       else Raise (ToolException "the router is not in custom mode");
     RoutersUpdate.ParseGroups := fun groups => Ok groups;
     RoutersUpdate.RemoveGroupsFromAdvertisements := fun b groups =>
       Ok {| RoutersUpdate.asn := RoutersUpdate.asn b;
             RoutersUpdate.advertiseMode := RoutersUpdate.advertiseMode b;
             RoutersUpdate.advertisedGroups :=
               List.filter (fun g => negb (bool_decide (g ∈ groups)))
                 (RoutersUpdate.advertisedGroups b);
             RoutersUpdate.advertisedPrefixs := RoutersUpdate.advertisedPrefixs b |};
     RoutersUpdate.ParseIpRanges := fun ranges => Ok (map fst ranges);
     RoutersUpdate.RemoveIpRangesFromAdvertisements := fun b ranges =>
       Ok {| RoutersUpdate.asn := RoutersUpdate.asn b;
             RoutersUpdate.advertiseMode := RoutersUpdate.advertiseMode b;
             RoutersUpdate.advertisedGroups := RoutersUpdate.advertisedGroups b;
             RoutersUpdate.advertisedPrefixs :=
               List.filter (fun r => negb (bool_decide (r ∈ ranges)))
                 (RoutersUpdate.advertisedPrefixs b) |} |}.

(** A service that holds one router and stores what is patched. *)
Definition sample_router_client
  : RoutersUpdate.Client string string string string
      (RoutersUpdate.Router string string string) :=
  {| RoutersUpdate.Get := fun _ router => (Ok [router], router);
     RoutersUpdate.Patch := fun _ replacement _ _ => (Ok [replacement], replacement) |}.

Definition sample_router : RoutersUpdate.Router string string string :=
  {| RoutersUpdate.router_name := "my-router";
     RoutersUpdate.bgp :=
       {| RoutersUpdate.asn := Some 65001%Z;
          RoutersUpdate.advertiseMode := Some "CUSTOM";
          RoutersUpdate.advertisedGroups := [];
          RoutersUpdate.advertisedPrefixs := ["10.0.0.0/8"] |} |}.

Definition router_args (add_groups : option (list string))
  : RoutersUpdate.Args unit :=
  {| RoutersUpdate.add_advertisement_groups := add_groups;
     RoutersUpdate.remove_advertisement_groups := None;
     RoutersUpdate.add_advertisement_ranges := None;
     RoutersUpdate.remove_advertisement_ranges := None;
     RoutersUpdate.other_flags := tt |}.

(** *** Flags that are given, and flags that are not *)

(** The flag has a value, and the value is not the empty string. *)
Definition given (v : option string) : Prop :=
  ∃ s, v = Some s ∧ s ≠ "".

(** The flag is absent, or its value is the empty string. *)
Definition not_given (v : option string) : Prop :=
  v = None ∨ v = Some "".

#[global] Instance given_dec (v : option string) : Decision (given v).
Proof.
  destruct v as [[|c s] |].
  - right. intros (s & [= <-] & H). apply H. reflexivity.
  - left. exists (String c s). split; [reflexivity | discriminate].
  - right. intros (s & H & _). discriminate H.
Defined.

(** The same for a flag whose value is a number of bytes. *)
Definition size_given (v : option Z) : Prop :=
  ∃ n, v = Some n ∧ n ≠ 0%Z.

Definition size_not_given (v : option Z) : Prop :=
  v = None ∨ v = Some 0%Z.

(** The same for a key of an [ArgDict]: its value is present and is neither
    the empty string nor 0. *)
Definition value_given (v : option Flags.ArgValue) : Prop :=
  ∃ a, v = Some a ∧ a ≠ Flags.StrValue "" ∧ a ≠ Flags.IntValue 0.

Definition value_not_given (v : option Flags.ArgValue) : Prop :=
  v = None ∨ v = Some (Flags.StrValue "") ∨ v = Some (Flags.IntValue 0).

(** The names of the standalone flags that are given, in the order of
    [standalone_flags]. *)
Definition standalone_flags_given (args : Flags.Namespace) : list string :=
  map fst (filter (fun p => given (snd p)) (standalone_flags args)).

(** Every flag that describes a new boot disk is absent or empty (the size
    absent or 0), and auto-delete is on; the KMS flags count when the command
    has them. *)
Definition new_boot_disk_flags_absent (args : Flags.Namespace)
  (enable_kms : bool) : Prop :=
  not_given (Flags.boot_disk_device_name args) ∧
  not_given (Flags.boot_disk_type args) ∧
  size_not_given (Flags.boot_disk_size args) ∧
  Flags.boot_disk_auto_delete args = true ∧
  (enable_kms = true →
   not_given (Flags.boot_disk_kms_key args) ∧
   not_given (Flags.boot_disk_kms_keyring args) ∧
   not_given (Flags.boot_disk_kms_location args) ∧
   not_given (Flags.boot_disk_kms_project args)).

(** What [ValidateCreateDiskFlags] asks of one [--create-disk] entry, in
    terms of what is given. *)
Definition create_disk_entry_accepted (attrs : Flags.CreateDiskAttrs)
  (disk : gmap string Flags.ArgValue) : Prop :=
  ¬ ((1 < length (default [] (Flags.names attrs)))%nat ∧
     value_given (disk !! "name")) ∧
  ¬ (value_not_given (disk !! "name") ∧
     Flags.require_csek_key_create attrs = Some true ∧
     given (Flags.csek_key_file attrs)) ∧
  (value_not_given (disk !! "mode") ∨
   disk !! "mode" = Some (Flags.StrValue "rw") ∨
   disk !! "mode" = Some (Flags.StrValue "ro")) ∧
  ¬ (value_given (disk !! "image") ∧ value_given (disk !! "image-family")).

(** The [Zone] message that carries the name [n] and nothing else. *)
Definition zone_named (n : string) : Flags.Zone :=
  {| Flags.zone_name := Some n;
     Flags.zone_region := None;
     Flags.zone_status := None |}.

End Spec.

(** * Properties *)

(** ** Loops *)

Section Loops.

Context {A : Type}.

Lemma result_unit_cases (r : result unit) : r = Ok tt ∨ ∃ e, r = Raise e.
Proof. destruct r as [[]|e]; eauto. Qed.

Lemma for_each_Ok (xs : list A) (body : A → result unit) :
  for_each xs body = Ok tt ↔ Forall (fun x => body x = Ok tt) xs.
Proof.
  induction xs as [|x xs IH]; simpl.
  - split; [constructor | reflexivity].
  - destruct (result_unit_cases (body x)) as [Hx | [e Hx]]; rewrite Hx; simpl.
    + rewrite IH. split.
      * intros H. constructor; assumption.
      * intros H. inversion H; assumption.
    + split; [discriminate |].
      intros H. inversion H; congruence.
Qed.

(** A loop raises exactly what its first failing iteration raises. *)
Lemma for_each_Raise (xs : list A) (body : A → result unit) (e : exn) :
  for_each xs body = Raise e ↔
  ∃ pre x post, xs = pre ++ x :: post ∧
                Forall (fun y => body y = Ok tt) pre ∧ body x = Raise e.
Proof.
  induction xs as [|x xs IH]; simpl.
  - split; [discriminate |].
    intros (pre & y & post & Heq & _). destruct pre; discriminate.
  - destruct (result_unit_cases (body x)) as [Hx | [e' Hx]]; rewrite Hx; simpl.
    + rewrite IH. split.
      * intros (pre & y & post & -> & Hpre & Hy).
        exists (x :: pre), y, post. repeat split; [constructor|]; assumption.
      * intros (pre & y & post & Heq & Hpre & Hy).
        destruct pre as [|p pre]; simpl in Heq; injection Heq as -> ->.
        -- congruence.
        -- inversion Hpre; subst. exists pre, y, post. auto.
    + split.
      * intros [= ->]. exists [], x, xs. repeat split; [constructor | assumption].
      * intros (pre & y & post & Heq & Hpre & Hy).
        destruct pre as [|p pre]; simpl in Heq; injection Heq as -> ->.
        -- congruence.
        -- inversion Hpre; congruence.
Qed.

Lemma for_each_is_raise (xs : list A) (body : A → result unit) :
  is_raise (for_each xs body) = true ↔ Exists (fun x => is_raise (body x) = true) xs.
Proof.
  induction xs as [|x xs IH]; simpl.
  - split; [discriminate | intros H; inversion H].
  - destruct (result_unit_cases (body x)) as [Hx | [e Hx]]; rewrite Hx; simpl.
    + rewrite IH. split.
      * intros H. apply Exists_cons_tl; assumption.
      * intros H. inversion H as [? ? Hh | ? ? Ht]; subst; [| assumption].
        rewrite Hx in Hh. discriminate.
    + split; [| reflexivity].
      intros _. apply Exists_cons_hd. rewrite Hx. reflexivity.
Qed.

Lemma for_each_ext (xs : list A) (f g : A → result unit) :
  Forall (fun x => f x = g x) xs → for_each xs f = for_each xs g.
Proof.
  induction 1 as [|x xs Hx _ IH]; simpl; [reflexivity |].
  rewrite Hx, IH. reflexivity.
Qed.

End Loops.

Lemma for_fold_app {A S : Type} (xs ys : list A) (acc : S)
  (body : S → A → result S) :
  for_fold (xs ++ ys) acc body =
    (acc' ← for_fold xs acc body; for_fold ys acc' body).
Proof.
  revert acc. induction xs as [|x xs IH]; intros acc; simpl; [reflexivity |].
  destruct (body acc x) as [acc' | e]; simpl; [apply IH | reflexivity].
Qed.

Lemma raise_if_Ok (c : bool) (e : exn) : raise_if c e = Ok tt ↔ c = false.
Proof. destruct c; simpl; split; congruence. Qed.

Lemma raise_if_Raise (c : bool) (e e' : exn) :
  raise_if c e = Raise e' ↔ c = true ∧ e' = e.
Proof.
  destruct c; simpl; split.
  - intros [= ->]. auto.
  - intros [_ ->]. reflexivity.
  - discriminate.
  - intros [? _]. discriminate.
Qed.

Lemma raise_if_is_raise (c : bool) (e : exn) : is_raise (raise_if c e) = c.
Proof. destruct c; reflexivity. Qed.

Lemma eq_str_true (v : option string) (lit : string) :
  eq_str v lit = true ↔ v = Some lit.
Proof. unfold eq_str. rewrite bool_decide_eq_true. reflexivity. Qed.

(** ** Truth values of flags *)

Lemma truthy_option_string (v : option string) :
  truthy v = true ↔ ∃ s, v = Some s ∧ s ≠ "".
Proof.
  destruct v as [[|c s] |]; simpl; split.
  - discriminate.
  - intros (s & [= <-] & H). congruence.
  - intros _. eexists. split; [reflexivity | discriminate].
  - reflexivity.
  - discriminate.
  - intros (s & H & _). discriminate.
Qed.

Lemma choice_test (v : option string) (a b : string) :
  truthy v && negb (in_pair v a b) = false ↔ Spec.choice_legal v a b.
Proof.
  unfold Spec.choice_legal, in_pair. rewrite andb_false_iff, negb_false_iff.
  rewrite orb_true_iff, !eq_str_true. split.
  - intros [H | [H | H]]; [| auto | auto].
    destruct v as [[|c s] |]; simpl in H; [auto | discriminate | auto].
  - intros [-> | [-> | [-> | ->]]]; auto.
Qed.

(** The code tests the truth value of a flag: a string flag is true exactly
    when it is given, false exactly when it is absent or empty. *)
Lemma truthy_given (v : option string) : truthy v = true ↔ Spec.given v.
Proof. apply truthy_option_string. Qed.

Lemma truthy_not_given (v : option string) :
  truthy v = false ↔ Spec.not_given v.
Proof.
  unfold Spec.not_given. destruct v as [[|c s] |]; simpl; split; auto.
  - discriminate.
  - intros [H | H]; discriminate H.
Qed.

Lemma truthy_size_given (v : option Z) : truthy v = true ↔ Spec.size_given v.
Proof.
  unfold Spec.size_given. destruct v as [n |].
  - change (truthy (Some n)) with (negb (n =? 0)%Z).
    destruct (Z.eqb_spec n 0) as [-> | Hn]; simpl; split.
    + discriminate.
    + intros (m & [= <-] & H). destruct H. reflexivity.
    + intros _. exists n. auto.
    + reflexivity.
  - split; [discriminate | intros (n & H & _); discriminate H].
Qed.

Lemma truthy_size_not_given (v : option Z) :
  truthy v = false ↔ Spec.size_not_given v.
Proof.
  unfold Spec.size_not_given. destruct v as [n |].
  - change (truthy (Some n)) with (negb (n =? 0)%Z).
    destruct (Z.eqb_spec n 0) as [-> | Hn]; simpl; split; auto.
    + discriminate.
    + intros [H | [= ->]]; [discriminate H | destruct Hn; reflexivity].
  - split; auto.
Qed.

Lemma truthy_value_given (v : option Flags.ArgValue) :
  truthy v = true ↔ Spec.value_given v.
Proof.
  unfold Spec.value_given. destruct v as [[[|c s] | n] |].
  - split; [discriminate |].
    intros (a & [= <-] & H & _). destruct H. reflexivity.
  - split; [| reflexivity].
    intros _. eexists. split; [reflexivity |]. split; discriminate.
  - change (truthy (Some (Flags.IntValue n))) with (negb (n =? 0)%Z).
    destruct (Z.eqb_spec n 0) as [-> | Hn]; simpl; split.
    + discriminate.
    + intros (a & [= <-] & _ & H). destruct H. reflexivity.
    + intros _. eexists. split; [reflexivity |]. split; [discriminate | congruence].
    + reflexivity.
  - split; [discriminate | intros (a & H & _); discriminate H].
Qed.

Lemma truthy_value_not_given (v : option Flags.ArgValue) :
  truthy v = false ↔ Spec.value_not_given v.
Proof.
  unfold Spec.value_not_given. destruct v as [[[|c s] | n] |].
  - split; auto.
  - split; [discriminate |]. intros [H | [H | H]]; discriminate H.
  - change (truthy (Some (Flags.IntValue n))) with (negb (n =? 0)%Z).
    destruct (Z.eqb_spec n 0) as [-> | Hn]; simpl; split; auto.
    + discriminate.
    + intros [H | [H | H]]; [discriminate H | discriminate H | congruence].
  - split; auto.
Qed.

Lemma truthy_option_bool (v : option bool) : truthy v = true ↔ v = Some true.
Proof. destruct v as [[|] |]; cbv; split; congruence. Qed.

(** ** Disk access mode *)

Section DiskAccessMode.

Implicit Types (args : Flags.Namespace) (disk : gmap string string).

Lemma access_mode_body_raises args disk (e : exn) :
  is_raise
    (raise_if ((1 <? length (Flags.instance_names args))%nat &&
               eq_str (disk !! "mode") "rw") e) = true ↔
  disk !! "mode" = Some "rw" ∧ 1 < length (Flags.instance_names args).
Proof.
  rewrite raise_if_is_raise, andb_true_iff, eq_str_true, Nat.ltb_lt. tauto.
Qed.

(** C3: the read-write check raises exactly when some [--disk] entry has mode
    [rw] and more than one instance name is targeted; what it raises is the
    [ToolException] about the first such disk; and the same disk list with a
    single instance name passes. *)
Theorem ValidateDiskAccessModeFlags_raises_iff args :
  (is_raise (Flags.ValidateDiskAccessModeFlags args) = true ↔
   Exists (fun disk => disk !! "mode" = Some "rw") (or_empty (Flags.disk args)) ∧
   1 < length (Flags.instance_names args)) ∧
  (∀ e, Flags.ValidateDiskAccessModeFlags args = Raise e →
        ∃ pre disk post,
          or_empty (Flags.disk args) = pre ++ disk :: post ∧
          Forall (fun d => d !! "mode" ≠ Some "rw") pre ∧
          disk !! "mode" = Some "rw" ∧
          e = ToolException
                ("Cannot attach disk [" +:+ str_of (disk !! "name") +:+
                 "] in read-write mode to more than one instance.")) ∧
  (∀ args', Flags.disk args' = Flags.disk args →
            length (Flags.instance_names args') = 1 →
            Flags.ValidateDiskAccessModeFlags args' = Ok tt).
Proof.
  unfold Flags.ValidateDiskAccessModeFlags. split; [| split].
  - rewrite for_each_is_raise. split.
    + intros H. apply Exists_exists in H as (d & Hin & Hd).
      apply access_mode_body_raises in Hd as [Hrw Hlen].
      split; [| exact Hlen]. apply Exists_exists. eauto.
    + intros [H Hlen]. apply Exists_exists in H as (d & Hin & Hrw).
      apply Exists_exists. exists d. split; [exact Hin |].
      apply access_mode_body_raises. auto.
  - intros e H. apply for_each_Raise in H as (pre & d & post & Heq & Hpre & Hd).
    apply raise_if_Raise in Hd as [Hc ->].
    apply andb_true_iff in Hc as [Hlen Hrw]. apply eq_str_true in Hrw.
    exists pre, d, post. repeat split; try assumption.
    eapply Forall_impl; [exact Hpre |]. intros d' Hd' Hrw'.
    apply raise_if_Ok in Hd'. rewrite Hlen in Hd'. simpl in Hd'.
    apply eq_str_true in Hrw'. congruence.
  - intros args' Hdisk Hlen. apply for_each_Ok, Forall_forall.
    intros d _. rewrite Hlen. reflexivity.
Qed.

End DiskAccessMode.

(** ** Boot disk flags *)

Section DiskBoot.

Implicit Types (args : Flags.Namespace) (disk : gmap string string)
  (disks : list (gmap string string)).

Lemma boot_flag_step_illegal (acc : bool) disk :
  Spec.boot_value_legal disk = false →
  Flags.boot_flag_step acc disk = Raise (Spec.BOOT_VALUE_ILLEGAL disk).
Proof.
  unfold Spec.boot_value_legal, Flags.boot_flag_step. intros H.
  apply negb_false_iff in H. rewrite H. reflexivity.
Qed.

Lemma boot_flag_step_legal (acc : bool) disk :
  Spec.boot_value_legal disk = true →
  Flags.boot_flag_step acc disk =
    if Spec.boot_yes disk
    then (if acc then Raise (ToolException Flags.TWO_BOOT_DISKS) else Ok true)
    else Ok acc.
Proof.
  unfold Spec.boot_value_legal, Flags.boot_flag_step, Spec.boot_yes. intros H.
  apply negb_true_iff in H. rewrite H. reflexivity.
Qed.

(** The loop ends normally exactly when every value is legal and at most one
    boot disk is seen, counting one already seen before the loop. *)
Lemma boot_loop_Ok disks (acc b : bool) :
  for_fold disks acc Flags.boot_flag_step = Ok b ↔
  Forall (fun d => Spec.boot_value_legal d = true) disks ∧
  (Spec.count_boot_yes disks + (if acc then 1 else 0) ≤ 1)%nat ∧
  b = acc || (0 <? Spec.count_boot_yes disks)%nat.
Proof.
  revert acc. induction disks as [|d disks IH]; intros acc; simpl.
  - unfold Spec.count_boot_yes. simpl. rewrite orb_false_r.
    destruct acc; split.
    + intros [= <-]. repeat split; [constructor | lia].
    + intros (_ & _ & ->). reflexivity.
    + intros [= <-]. repeat split; [constructor | lia].
    + intros (_ & _ & ->). reflexivity.
  - destruct (Spec.boot_value_legal d) eqn:Hd.
    + rewrite (boot_flag_step_legal _ _ Hd).
      unfold Spec.count_boot_yes. simpl.
      fold (Spec.count_boot_yes disks).
      destruct (Spec.boot_yes d) eqn:Hy; [destruct acc |]; simpl.
      * split; [discriminate |]. intros (_ & Hc & _).
        fold (Spec.count_boot_yes disks) in Hc. lia.
      * rewrite IH. fold (Spec.count_boot_yes disks). rewrite orb_true_l.
        split.
        -- intros (Hf & Hc & ->). repeat split; [constructor; assumption | lia].
        -- intros (Hf & Hc & ->). inversion Hf; subst.
           repeat split; [assumption | lia].
      * rewrite IH. fold (Spec.count_boot_yes disks). split.
        -- intros (Hf & Hc & ->). repeat split; [constructor |]; assumption.
        -- intros (Hf & Hc & ->). inversion Hf; subst.
           repeat split; assumption.
    + rewrite (boot_flag_step_illegal _ _ Hd). simpl. split; [discriminate |].
      intros (Hf & _). inversion Hf; congruence.
Qed.

(** With legal values only, the loop can raise one thing. *)
Lemma boot_loop_Raise_legal disks (acc : bool) (e : exn) :
  Forall (fun d => Spec.boot_value_legal d = true) disks →
  for_fold disks acc Flags.boot_flag_step = Raise e →
  e = ToolException Flags.TWO_BOOT_DISKS.
Proof.
  revert acc. induction disks as [|d disks IH]; intros acc Hf; simpl.
  - discriminate.
  - inversion Hf as [|? ? Hd Hrest]; subst.
    rewrite (boot_flag_step_legal _ _ Hd).
    destruct (Spec.boot_yes d); [destruct acc |]; simpl; eauto.
    intros [= <-]. reflexivity.
Qed.

Lemma boot_loop_cases disks (acc : bool) :
  (∃ b, for_fold disks acc Flags.boot_flag_step = Ok b) ∨
  (∃ e, for_fold disks acc Flags.boot_flag_step = Raise e).
Proof. destruct (for_fold disks acc Flags.boot_flag_step); eauto. Qed.

(** Whatever the values, the loop raises either the complaint about an
    illegal value or, having seen two boot disks, the two-boot-disks error. *)
Lemma boot_loop_Raise disks (acc : bool) (e : exn) :
  for_fold disks acc Flags.boot_flag_step = Raise e →
  (e = ToolException Flags.TWO_BOOT_DISKS ∧
   (2 ≤ Spec.count_boot_yes disks + (if acc then 1 else 0))%nat) ∨
  (∃ d, In d disks ∧ Spec.boot_value_legal d = false ∧
        e = Spec.BOOT_VALUE_ILLEGAL d).
Proof.
  revert acc. induction disks as [|d disks IH]; intros acc; simpl.
  - discriminate.
  - destruct (Spec.boot_value_legal d) eqn:Hd.
    + rewrite (boot_flag_step_legal _ _ Hd).
      unfold Spec.count_boot_yes in *. simpl.
      destruct (Spec.boot_yes d) eqn:Hy; [destruct acc |]; simpl.
      * intros [= <-]. left. split; [reflexivity | lia].
      * intros H. destruct (IH _ H) as [[-> Hc] | (d' & Hin & Hl & ->)].
        -- left. split; [reflexivity | lia].
        -- right. exists d'. split; [right; assumption | auto].
      * intros H. destruct (IH _ H) as [[-> Hc] | (d' & Hin & Hl & ->)].
        -- left. split; [reflexivity | lia].
        -- right. exists d'. split; [right; assumption | auto].
    + rewrite (boot_flag_step_illegal _ _ Hd). simpl.
      intros [= <-]. right. exists d. split; [left; reflexivity | auto].
Qed.

Lemma illegal_is_not_two_boot_disks disk :
  Spec.BOOT_VALUE_ILLEGAL disk ≠ ToolException Flags.TWO_BOOT_DISKS.
Proof. unfold Spec.BOOT_VALUE_ILLEGAL. cbn. discriminate. Qed.

Lemma new_boot_disk_only_is_not_count_error (flag : string) :
  Flags.new_boot_disk_only flag ≠ ToolException Flags.TWO_BOOT_DISKS ∧
  Flags.new_boot_disk_only flag ≠ ToolException Flags.BOOT_DISK_AND_IMAGE.
Proof. unfold Flags.new_boot_disk_only. cbn. split; discriminate. Qed.

(** Once the loop has ended with [b] and [--image] does not clash, what is
    left are the checks of the flags that need a new boot disk. *)
Lemma after_boot_loop args (enable_kms b : bool) :
  for_fold (or_empty (Flags.disk args)) false Flags.boot_flag_step = Ok b →
  truthy (Flags.image args) && b = false →
  (b = false → Flags.ValidateDiskBootFlags args enable_kms = Ok tt) ∧
  (Flags.ValidateDiskBootFlags args enable_kms = Ok tt ∨
   ∃ flag, Flags.ValidateDiskBootFlags args enable_kms =
           Raise (Flags.new_boot_disk_only flag)).
Proof.
  intros Hloop Himg. unfold Flags.ValidateDiskBootFlags.
  rewrite Hloop. simpl. rewrite Himg. simpl.
  destruct b; [| auto]. split; [discriminate |].
  destruct (truthy (Flags.boot_disk_device_name args)); simpl; [eauto |].
  destruct (truthy (Flags.boot_disk_type args)); simpl; [eauto |].
  destruct (truthy (Flags.boot_disk_size args)); simpl; [eauto |].
  destruct (Flags.boot_disk_auto_delete args); simpl; [| eauto].
  destruct enable_kms; [| auto].
  destruct (truthy (Flags.boot_disk_kms_key args)); simpl; [eauto |].
  destruct (truthy (Flags.boot_disk_kms_keyring args)); simpl; [eauto |].
  destruct (truthy (Flags.boot_disk_kms_location args)); simpl; [eauto |].
  destruct (truthy (Flags.boot_disk_kms_project args)); simpl; eauto.
Qed.

Lemma boot_loop_raise_propagates args (enable_kms : bool) (e : exn) :
  for_fold (or_empty (Flags.disk args)) false Flags.boot_flag_step = Raise e →
  Flags.ValidateDiskBootFlags args enable_kms = Raise e.
Proof.
  intros H. unfold Flags.ValidateDiskBootFlags. rewrite H. reflexivity.
Qed.

Lemma count_boot_yes_pos disks :
  Exists (fun d => Spec.boot_yes d = true) disks →
  (0 < Spec.count_boot_yes disks)%nat.
Proof.
  unfold Spec.count_boot_yes.
  induction 1 as [d disks Hd | d disks _ IH]; simpl.
  - rewrite Hd. simpl. lia.
  - destruct (Spec.boot_yes d); simpl; lia.
Qed.

(** The count of boot disks, by the truth value of [args.image] and for lists
    whose [boot] values are all legal. *)
Lemma boot_disk_count_by_truthiness args (enable_kms : bool) :
  let disks := or_empty (Flags.disk args) in
  let out := Flags.ValidateDiskBootFlags args enable_kms in
  let legal := Forall (fun d => Spec.boot_value_legal d = true) disks in
  ((2 ≤ Spec.count_boot_yes disks)%nat →
   is_raise out = true ∧
   (legal → out = Raise (ToolException Flags.TWO_BOOT_DISKS))) ∧
  (Spec.count_boot_yes disks = 1 → truthy (Flags.image args) = true →
   is_raise out = true ∧
   (legal → out = Raise (ToolException Flags.BOOT_DISK_AND_IMAGE))) ∧
  ((Spec.count_boot_yes disks ≤ 1)%nat → truthy (Flags.image args) = false →
   out ≠ Raise (ToolException Flags.TWO_BOOT_DISKS) ∧
   out ≠ Raise (ToolException Flags.BOOT_DISK_AND_IMAGE) ∧
   (legal →
    (out = Ok tt ∨ ∃ flag, out = Raise (Flags.new_boot_disk_only flag)) ∧
    (Spec.count_boot_yes disks = 0 → out = Ok tt))).
Proof.
  intros disks out legal. subst out legal.
  destruct (boot_loop_cases disks false) as [[b Hloop] | [e Hloop]].
  - pose proof (proj1 (boot_loop_Ok _ _ _) Hloop) as (Hlegal & Hcount & Hb).
    simpl in Hb. split; [| split].
    + intros H2. lia.
    + intros H1 Himg. rewrite H1 in Hb. simpl in Hb. subst b.
      assert (Flags.ValidateDiskBootFlags args enable_kms =
              Raise (ToolException Flags.BOOT_DISK_AND_IMAGE)) as ->.
      { unfold Flags.ValidateDiskBootFlags. fold disks. rewrite Hloop.
        simpl. rewrite Himg. reflexivity. }
      auto.
    + intros Hle Himg.
      destruct (after_boot_loop args enable_kms b Hloop) as [Hnone Hsome].
      { rewrite Himg. reflexivity. }
      assert (Flags.ValidateDiskBootFlags args enable_kms ≠
                Raise (ToolException Flags.TWO_BOOT_DISKS) ∧
              Flags.ValidateDiskBootFlags args enable_kms ≠
                Raise (ToolException Flags.BOOT_DISK_AND_IMAGE)) as [Hn1 Hn2].
      { destruct Hsome as [-> | [flag ->]]; [split; discriminate |].
        destruct (new_boot_disk_only_is_not_count_error flag) as [H1 H2].
        split; congruence. }
      repeat split; try assumption.
      intros H0. apply Hnone. rewrite Hb, H0. reflexivity.
  - rewrite (boot_loop_raise_propagates args enable_kms e Hloop).
    split; [| split].
    + intros _. split; [reflexivity |]. intros Hlegal.
      rewrite (boot_loop_Raise_legal _ _ _ Hlegal Hloop). reflexivity.
    + intros H1 _. split; [reflexivity |]. intros Hlegal.
      pose proof (boot_loop_Raise_legal _ _ _ Hlegal Hloop) as ->.
      apply boot_loop_Raise in Hloop as [[_ Hc] | (d & Hin & Hd & _)].
      * simpl in Hc. lia.
      * rewrite Forall_forall in Hlegal. specialize (Hlegal d).
        rewrite list_elem_of_In in Hlegal. specialize (Hlegal Hin). congruence.
    + intros Hle _.
      pose proof (boot_loop_Raise _ _ _ Hloop) as [[_ Hc] | (d & Hin & Hd & ->)].
      * simpl in Hc. lia.
      * assert (¬ Forall (fun d => Spec.boot_value_legal d = true) disks) as Hnot.
        { intros Hlegal. rewrite Forall_forall in Hlegal. specialize (Hlegal d).
          rewrite list_elem_of_In in Hlegal. specialize (Hlegal Hin). congruence. }
        split; [| split].
        -- intros H. apply (illegal_is_not_two_boot_disks d). congruence.
        -- unfold Spec.BOOT_VALUE_ILLEGAL. cbn. discriminate.
        -- intros Hlegal. destruct (Hnot Hlegal).
Qed.

(** *** The boot disk checks, by what is given *)

Lemma boot_yes_iff disk :
  Spec.boot_yes disk = true ↔ disk !! "boot" = Some "yes".
Proof. apply eq_str_true. Qed.

Lemma boot_value_legal_iff disk :
  Spec.boot_value_legal disk = true ↔
  Spec.choice_legal (disk !! "boot") "yes" "no".
Proof.
  unfold Spec.boot_value_legal. rewrite negb_true_iff. apply choice_test.
Qed.

Lemma boot_value_illegal_iff disk :
  Spec.boot_value_legal disk = false ↔
  ¬ Spec.choice_legal (disk !! "boot") "yes" "no".
Proof.
  rewrite <- boot_value_legal_iff.
  destruct (Spec.boot_value_legal disk); split; congruence.
Qed.

Lemma boot_values_legal_iff disks :
  Forall (fun d => Spec.boot_value_legal d = true) disks ↔
  Forall (fun d => Spec.choice_legal (d !! "boot") "yes" "no") disks.
Proof. apply Forall_iff. intros d. apply boot_value_legal_iff. Qed.

Lemma boot_yes_is_legal disk :
  Spec.boot_yes disk = true → Spec.boot_value_legal disk = true.
Proof.
  unfold Spec.boot_yes, Spec.boot_value_legal, in_pair. intros ->.
  simpl. rewrite andb_false_r. reflexivity.
Qed.

Lemma count_boot_yes_cons disk disks :
  Spec.count_boot_yes (disk :: disks) =
    ((if Spec.boot_yes disk then 1 else 0) + Spec.count_boot_yes disks)%nat.
Proof.
  unfold Spec.count_boot_yes. simpl. destruct (Spec.boot_yes disk); reflexivity.
Qed.

(** The loop stops with the two-boot-disks error exactly at a second
    [boot=yes] entry that no illegal value comes before. *)
Lemma boot_loop_two_boot_disks disks (acc : bool) :
  for_fold disks acc Flags.boot_flag_step =
    Raise (ToolException Flags.TWO_BOOT_DISKS) ↔
  ∃ pre d post,
    disks = pre ++ d :: post ∧
    Forall (fun d => Spec.boot_value_legal d = true) pre ∧
    (Spec.count_boot_yes pre + (if acc then 1 else 0) = 1)%nat ∧
    Spec.boot_yes d = true.
Proof.
  split.
  - revert acc. induction disks as [|d disks IH]; intros acc; simpl.
    + discriminate.
    + destruct (Spec.boot_value_legal d) eqn:Hd.
      * rewrite (boot_flag_step_legal _ _ Hd).
        destruct (Spec.boot_yes d) eqn:Hy; [destruct acc |]; simpl.
        -- intros _. exists [], d, disks.
           split; [reflexivity |]. split; [constructor |]. split; [reflexivity |].
           exact Hy.
        -- intros H. destruct (IH _ H) as (pre & d' & post & -> & Hpre & Hc & Hd').
           exists (d :: pre), d', post.
           split; [reflexivity |]. split; [constructor; assumption |].
           split; [| exact Hd']. rewrite count_boot_yes_cons, Hy. lia.
        -- intros H. destruct (IH _ H) as (pre & d' & post & -> & Hpre & Hc & Hd').
           exists (d :: pre), d', post.
           split; [reflexivity |]. split; [constructor; assumption |].
           split; [| exact Hd']. rewrite count_boot_yes_cons, Hy. exact Hc.
      * rewrite (boot_flag_step_illegal _ _ Hd). simpl. intros H.
        destruct (illegal_is_not_two_boot_disks d). congruence.
  - intros (pre & d & post & -> & Hpre & Hc & Hd). rewrite for_fold_app.
    assert (for_fold pre acc Flags.boot_flag_step = Ok true) as ->.
    { apply boot_loop_Ok. split; [exact Hpre |]. split; [lia |].
      destruct acc; [reflexivity |]. simpl. symmetry. apply Nat.ltb_lt. lia. }
    simpl. rewrite (boot_flag_step_legal _ _ (boot_yes_is_legal _ Hd)), Hd.
    reflexivity.
Qed.

(** An illegal value that comes before a second [boot=yes] entry is what the
    loop complains about. *)
Lemma boot_loop_illegal pre d post (acc : bool) :
  Forall (fun d => Spec.boot_value_legal d = true) pre →
  (Spec.count_boot_yes pre + (if acc then 1 else 0) ≤ 1)%nat →
  Spec.boot_value_legal d = false →
  for_fold (pre ++ d :: post) acc Flags.boot_flag_step =
    Raise (Spec.BOOT_VALUE_ILLEGAL d).
Proof.
  intros Hpre Hc Hd. rewrite for_fold_app.
  assert (for_fold pre acc Flags.boot_flag_step =
          Ok (acc || (0 <? Spec.count_boot_yes pre)%nat)) as ->.
  { apply boot_loop_Ok. auto. }
  simpl. rewrite (boot_flag_step_illegal _ _ Hd). reflexivity.
Qed.

Lemma count_errors_differ :
  ToolException Flags.BOOT_DISK_AND_IMAGE ≠ ToolException Flags.TWO_BOOT_DISKS.
Proof. cbn. discriminate. Qed.

Lemma illegal_is_not_boot_disk_and_image disk :
  Spec.BOOT_VALUE_ILLEGAL disk ≠ ToolException Flags.BOOT_DISK_AND_IMAGE.
Proof. unfold Spec.BOOT_VALUE_ILLEGAL. cbn. discriminate. Qed.

(** What the validation raises once the loop has ended normally. *)
Lemma after_boot_loop_count_errors args (enable_kms b : bool) :
  for_fold (or_empty (Flags.disk args)) false Flags.boot_flag_step = Ok b →
  Flags.ValidateDiskBootFlags args enable_kms ≠
    Raise (ToolException Flags.TWO_BOOT_DISKS) ∧
  (Flags.ValidateDiskBootFlags args enable_kms =
     Raise (ToolException Flags.BOOT_DISK_AND_IMAGE) ↔
   truthy (Flags.image args) = true ∧ b = true).
Proof.
  intros Hloop. destruct (truthy (Flags.image args) && b) eqn:Himg.
  - assert (Flags.ValidateDiskBootFlags args enable_kms =
            Raise (ToolException Flags.BOOT_DISK_AND_IMAGE)) as ->.
    { unfold Flags.ValidateDiskBootFlags. rewrite Hloop. simpl.
      rewrite Himg. reflexivity. }
    apply andb_true_iff in Himg. split; [| tauto].
    intros H. apply count_errors_differ. congruence.
  - destruct (after_boot_loop args enable_kms b Hloop Himg) as [_ Hout].
    apply andb_false_iff in Himg.
    destruct Hout as [-> | [flag ->]].
    + split; [discriminate |]. split; [discriminate |].
      intros [? ?]. destruct Himg; congruence.
    + destruct (new_boot_disk_only_is_not_count_error flag) as [H1 H2].
      split; [congruence |]. split; [congruence |].
      intros [? ?]. destruct Himg; congruence.
Qed.

(** C4, as the code has it.  A flag is given when it has a non-empty value.
    Two or more [boot=yes] entries always fail, and the error is the one
    about at least two boot disks exactly when a second [boot=yes] entry is
    reached before any entry whose [boot] value is other than absent, empty,
    [yes] or [no]; the first such entry, when at most one [boot=yes] entry
    comes before it, is what the validation complains about.  One [boot=yes]
    entry together with a given [--image] always fails, and the error names
    [--disk] and [--image] exactly when, in addition, every [boot] value is
    legal.  With at most one [boot=yes] entry and [--image] absent or empty,
    neither of the two errors is raised, and with legal values the
    validation passes or stops at a flag that needs a new boot disk (it
    passes when no entry carries [boot=yes]). *)
Theorem ValidateDiskBootFlags_boot_disk_count args (enable_kms : bool) :
  let disks := or_empty (Flags.disk args) in
  let out := Flags.ValidateDiskBootFlags args enable_kms in
  let legal := Forall (fun d => Spec.choice_legal (d !! "boot") "yes" "no") in
  ((2 ≤ Spec.count_boot_yes disks)%nat → is_raise out = true) ∧
  (out = Raise (ToolException Flags.TWO_BOOT_DISKS) ↔
   ∃ pre d post,
     disks = pre ++ d :: post ∧ legal pre ∧
     Spec.count_boot_yes pre = 1 ∧ d !! "boot" = Some "yes") ∧
  (∀ pre d post,
     disks = pre ++ d :: post → legal pre →
     (Spec.count_boot_yes pre ≤ 1)%nat →
     ¬ Spec.choice_legal (d !! "boot") "yes" "no" →
     out = Raise (Spec.BOOT_VALUE_ILLEGAL d)) ∧
  (Spec.count_boot_yes disks = 1 → Spec.given (Flags.image args) →
   is_raise out = true) ∧
  (out = Raise (ToolException Flags.BOOT_DISK_AND_IMAGE) ↔
   legal disks ∧ Spec.count_boot_yes disks = 1 ∧
   Spec.given (Flags.image args)) ∧
  ((Spec.count_boot_yes disks ≤ 1)%nat → Spec.not_given (Flags.image args) →
   out ≠ Raise (ToolException Flags.TWO_BOOT_DISKS) ∧
   out ≠ Raise (ToolException Flags.BOOT_DISK_AND_IMAGE) ∧
   (legal disks →
    (out = Ok tt ∨ ∃ flag, out = Raise (Flags.new_boot_disk_only flag)) ∧
    (Spec.count_boot_yes disks = 0 → out = Ok tt))).
Proof.
  intros disks out legal. subst out legal.
  pose proof (boot_disk_count_by_truthiness args enable_kms) as Hold.
  cbv zeta in Hold. fold disks in Hold. destruct Hold as (Htwo & Hone & Hnone).
  split; [| split; [| split; [| split; [| split]]]].
  - intros H2. apply Htwo. exact H2.
  - destruct (boot_loop_cases disks false) as [[b Hloop] | [e Hloop]].
    + destruct (after_boot_loop_count_errors args enable_kms b Hloop) as [Hn _].
      split; [intros H; destruct (Hn H) |].
      intros (pre & d & post & Hd & Hpre & Hc & Hy).
      assert (for_fold disks false Flags.boot_flag_step =
              Raise (ToolException Flags.TWO_BOOT_DISKS)) as H.
      { apply boot_loop_two_boot_disks. exists pre, d, post.
        split; [exact Hd |]. split; [apply boot_values_legal_iff; exact Hpre |].
        split; [lia | apply boot_yes_iff; exact Hy]. }
      fold disks in Hloop. congruence.
    + rewrite (boot_loop_raise_propagates args enable_kms e Hloop).
      fold disks in Hloop. split.
      * intros H. assert (e = ToolException Flags.TWO_BOOT_DISKS) as ->
          by congruence.
        apply boot_loop_two_boot_disks in Hloop
          as (pre & d & post & Hd & Hpre & Hc & Hy).
        exists pre, d, post.
        split; [exact Hd |]. split; [apply boot_values_legal_iff; exact Hpre |].
        split; [lia | apply boot_yes_iff; exact Hy].
      * intros (pre & d & post & Hd & Hpre & Hc & Hy).
        assert (for_fold disks false Flags.boot_flag_step =
                Raise (ToolException Flags.TWO_BOOT_DISKS)) as H.
        { apply boot_loop_two_boot_disks. exists pre, d, post.
          split; [exact Hd |]. split; [apply boot_values_legal_iff; exact Hpre |].
          split; [lia | apply boot_yes_iff; exact Hy]. }
        congruence.
  - intros pre d post Hd Hpre Hc Hbad.
    apply boot_loop_raise_propagates. fold disks. rewrite Hd.
    apply boot_loop_illegal.
    + apply boot_values_legal_iff. exact Hpre.
    + lia.
    + apply boot_value_illegal_iff. exact Hbad.
  - intros H1 Himg. apply Hone; [exact H1 | apply truthy_given; exact Himg].
  - destruct (boot_loop_cases disks false) as [[b Hloop] | [e Hloop]].
    + destruct (after_boot_loop_count_errors args enable_kms b Hloop) as [_ ->].
      pose proof (proj1 (boot_loop_Ok _ _ _) Hloop) as (Hlegal & Hcount & Hb).
      simpl in Hb, Hcount. rewrite truthy_given, <- boot_values_legal_iff.
      split.
      * intros [Himg ->]. split; [exact Hlegal |]. split; [| exact Himg].
        symmetry in Hb. apply Nat.ltb_lt in Hb. lia.
      * intros (_ & H1 & Himg). split; [exact Himg |].
        rewrite Hb, H1. reflexivity.
    + rewrite (boot_loop_raise_propagates args enable_kms e Hloop).
      fold disks in Hloop. split.
      * intros [= ->]. apply boot_loop_Raise in Hloop as [[H _] | (d & _ & _ & H)].
        -- destruct (count_errors_differ H).
        -- symmetry in H. destruct (illegal_is_not_boot_disk_and_image d H).
      * intros (Hlegal & H1 & _). apply boot_values_legal_iff in Hlegal.
        assert (for_fold disks false Flags.boot_flag_step =
                Ok (false || (0 <? Spec.count_boot_yes disks)%nat)) as H.
        { apply boot_loop_Ok. repeat split; [exact Hlegal | lia]. }
        congruence.
  - intros Hle Himg. apply truthy_not_given in Himg.
    destruct (Hnone Hle Himg) as (Hn1 & Hn2 & Hrest).
    split; [exact Hn1 |]. split; [exact Hn2 |].
    intros Hlegal. apply Hrest. apply boot_values_legal_iff. exact Hlegal.
Qed.

(** Two [boot=yes] entries in front of an illegal value raise the
    two-boot-disks error, and an empty [--image] does not clash with a boot
    disk. *)
Example boot_disk_count_examples :
  let bad : gmap string string := {[ "name" := "d0"; "boot" := "maybe" ]} in
  let boot1 : gmap string string := {[ "name" := "d1"; "boot" := "yes" ]} in
  let boot2 : gmap string string := {[ "name" := "d2"; "boot" := "yes" ]} in
  Flags.ValidateDiskBootFlags
    (Spec.create_args ["vm"] (Some [boot1; boot2; bad]) None) false
  = Raise (ToolException Flags.TWO_BOOT_DISKS) ∧
  Flags.ValidateDiskBootFlags
    (Spec.create_args ["vm"] (Some [boot1]) (Some "")) false
  = Ok tt ∧
  Flags.ValidateDiskBootFlags
    (Spec.create_args ["vm"] (Some [boot1]) (Some "debian-9")) false
  = Raise (ToolException Flags.BOOT_DISK_AND_IMAGE).
Proof. vm_compute. repeat split. Qed.

(** C4 as stated fails: two [boot=yes] entries behind an entry with an
    illegal [boot] value are rejected for the illegal value, not with the
    two-boot-disks error; and a lone illegal value fails the check with no
    [boot=yes] entry and no [--image] at all. *)
Lemma boot_disk_count_claim_counterexample :
  let bad : gmap string string := {[ "name" := "d0"; "boot" := "maybe" ]} in
  let boot1 : gmap string string := {[ "name" := "d1"; "boot" := "yes" ]} in
  let boot2 : gmap string string := {[ "name" := "d2"; "boot" := "yes" ]} in
  let complaint :=
    ToolException "Value for [boot] in [--disk] must be [yes] or [no], not [maybe]." in
  (Spec.count_boot_yes [bad; boot1; boot2] = 2 ∧
   Flags.ValidateDiskBootFlags
     (Spec.create_args ["vm"] (Some [bad; boot1; boot2]) None) false
   = Raise complaint ∧
   complaint ≠ ToolException Flags.TWO_BOOT_DISKS) ∧
  (Spec.count_boot_yes [bad] = 0 ∧
   Flags.ValidateDiskBootFlags (Spec.create_args ["vm"] (Some [bad]) None) false
   = Raise complaint).
Proof. vm_compute. repeat split; discriminate. Qed.

(** The flags of a new boot disk next to an existing one, by the truth value
    of the flags. *)
Lemma existing_boot_disk_by_truthiness args (enable_kms : bool) :
  Exists (fun d => Spec.boot_yes d = true) (or_empty (Flags.disk args)) →
  truthy (Flags.boot_disk_device_name args) = true ∨
  truthy (Flags.boot_disk_type args) = true ∨
  truthy (Flags.boot_disk_size args) = true ∨
  Flags.boot_disk_auto_delete args = false →
  is_raise (Flags.ValidateDiskBootFlags args enable_kms) = true ∧
  (Forall (fun d => Spec.boot_value_legal d = true) (or_empty (Flags.disk args)) →
   Spec.count_boot_yes (or_empty (Flags.disk args)) = 1 →
   truthy (Flags.image args) = false →
   ∃ flag,
     In flag ["--boot-disk-device-name"; "--boot-disk-type";
              "--boot-disk-size"; "--no-boot-disk-auto-delete"] ∧
     Flags.ValidateDiskBootFlags args enable_kms =
       Raise (Flags.new_boot_disk_only flag)).
Proof.
  intros Hboot Hflag. apply count_boot_yes_pos in Hboot.
  destruct (boot_loop_cases (or_empty (Flags.disk args)) false)
    as [[b Hloop] | [e Hloop]].
  - pose proof (proj1 (boot_loop_Ok _ _ _) Hloop) as (_ & _ & Hb).
    simpl in Hb. apply Nat.ltb_lt in Hboot. rewrite Hboot in Hb. subst b.
    unfold Flags.ValidateDiskBootFlags. rewrite Hloop. simpl.
    rewrite andb_true_r.
    destruct (truthy (Flags.image args)); simpl.
    { split; [reflexivity | discriminate]. }
    destruct (truthy (Flags.boot_disk_device_name args)); simpl.
    { split; [reflexivity |]. intros _ _ _. eexists. split; [| reflexivity].
      simpl. auto. }
    destruct (truthy (Flags.boot_disk_type args)); simpl.
    { split; [reflexivity |]. intros _ _ _. eexists. split; [| reflexivity].
      simpl. auto. }
    destruct (truthy (Flags.boot_disk_size args)); simpl.
    { split; [reflexivity |]. intros _ _ _. eexists. split; [| reflexivity].
      simpl. auto. }
    destruct (Flags.boot_disk_auto_delete args); simpl.
    { destruct Hflag as [H | [H | [H | H]]]; discriminate. }
    split; [reflexivity |]. intros _ _ _. eexists. split; [| reflexivity].
    simpl. auto.
  - rewrite (boot_loop_raise_propagates args enable_kms e Hloop).
    split; [reflexivity |]. intros Hlegal Hone _.
    pose proof (boot_loop_Raise_legal _ _ _ Hlegal Hloop) as ->.
    apply boot_loop_Raise in Hloop as [[_ Hc] | (d & Hin & Hd & _)].
    + simpl in Hc. lia.
    + rewrite Forall_forall in Hlegal. specialize (Hlegal d).
      rewrite list_elem_of_In in Hlegal. specialize (Hlegal Hin). congruence.
Qed.

(** C5, as the code has it.  A flag is given when it has a non-empty value
    (a size other than 0).  When some [--disk] entry carries [boot=yes],
    giving a device name, a type or a size for the boot disk, or switching
    its auto-delete off, makes the validation fail; and when the count of
    boot disks is in order (legal values, one [boot=yes] entry, [--image]
    absent or empty) the failure says that the first of these flags, in this
    order, can only be used when creating a new boot disk. *)
Theorem ValidateDiskBootFlags_existing_boot_disk args (enable_kms : bool) :
  let disks := or_empty (Flags.disk args) in
  let out := Flags.ValidateDiskBootFlags args enable_kms in
  Exists (fun d => d !! "boot" = Some "yes") disks →
  Spec.given (Flags.boot_disk_device_name args) ∨
  Spec.given (Flags.boot_disk_type args) ∨
  Spec.size_given (Flags.boot_disk_size args) ∨
  Flags.boot_disk_auto_delete args = false →
  is_raise out = true ∧
  (Forall (fun d => Spec.choice_legal (d !! "boot") "yes" "no") disks →
   Spec.count_boot_yes disks = 1 →
   Spec.not_given (Flags.image args) →
   (Spec.given (Flags.boot_disk_device_name args) →
    out = Raise (Flags.new_boot_disk_only "--boot-disk-device-name")) ∧
   (Spec.not_given (Flags.boot_disk_device_name args) →
    Spec.given (Flags.boot_disk_type args) →
    out = Raise (Flags.new_boot_disk_only "--boot-disk-type")) ∧
   (Spec.not_given (Flags.boot_disk_device_name args) →
    Spec.not_given (Flags.boot_disk_type args) →
    Spec.size_given (Flags.boot_disk_size args) →
    out = Raise (Flags.new_boot_disk_only "--boot-disk-size")) ∧
   (Spec.not_given (Flags.boot_disk_device_name args) →
    Spec.not_given (Flags.boot_disk_type args) →
    Spec.size_not_given (Flags.boot_disk_size args) →
    Flags.boot_disk_auto_delete args = false →
    out = Raise (Flags.new_boot_disk_only "--no-boot-disk-auto-delete"))).
Proof.
  intros disks out Hboot Hflag. subst out.
  split.
  - apply (existing_boot_disk_by_truthiness args enable_kms).
    + eapply Exists_impl; [exact Hboot |]. intros d. apply boot_yes_iff.
    + rewrite !truthy_given, truthy_size_given. exact Hflag.
  - intros Hlegal Hone Himg.
    apply boot_values_legal_iff in Hlegal. apply truthy_not_given in Himg.
    assert (for_fold disks false Flags.boot_flag_step = Ok true) as Hloop.
    { apply boot_loop_Ok. split; [exact Hlegal |]. split; [lia |].
      rewrite Hone. reflexivity. }
    unfold Flags.ValidateDiskBootFlags. fold disks. rewrite Hloop. simpl.
    rewrite Himg. simpl.
    rewrite <- !truthy_given, <- !truthy_not_given, <- truthy_size_given,
      <- truthy_size_not_given.
    split; [| split; [| split]].
    + intros ->. reflexivity.
    + intros -> ->. reflexivity.
    + intros -> -> ->. reflexivity.
    + intros -> -> -> ->. reflexivity.
Qed.

Lemma ValidateDiskBootFlags_existing_boot_disk_witness :
  let boot : gmap string string := {[ "name" := "d1"; "boot" := "yes" ]} in
  let args :=
    Spec.with_boot_disk_flags (Spec.create_args ["vm"] (Some [boot]) None)
      None (Some "pd-ssd") (Some (20 * 2 ^ 30)%Z) true in
  is_raise (Flags.ValidateDiskBootFlags args false) = true ∧
  Flags.ValidateDiskBootFlags args false =
    Raise (ToolException
             "[--boot-disk-type] can only be used when creating a new boot disk.").
Proof.
  intros boot args.
  destruct (ValidateDiskBootFlags_existing_boot_disk args false)
    as [Hr Hflag].
  - apply Exists_cons_hd. reflexivity.
  - right. left. exists "pd-ssd". split; [reflexivity | discriminate].
  - split; [exact Hr |].
    destruct Hflag as (_ & H & _).
    + constructor; [| constructor]. right. right. left. reflexivity.
    + reflexivity.
    + left. reflexivity.
    + apply H; [left; reflexivity |].
      exists "pd-ssd". split; [reflexivity | discriminate].
Defined.

(** C5 as stated fails: a device name and a type that are set to the empty
    string, next to a [--disk] entry with [boot=yes], pass the validation,
    with and without the KMS flags. *)
Lemma existing_boot_disk_claim_counterexample :
  let boot : gmap string string := {[ "name" := "d1"; "boot" := "yes" ]} in
  let args :=
    Spec.with_boot_disk_flags (Spec.create_args ["vm"] (Some [boot]) None)
      (Some "") (Some "") None true in
  boot !! "boot" = Some "yes" ∧
  Flags.boot_disk_device_name args = Some "" ∧
  Flags.boot_disk_type args = Some "" ∧
  Flags.ValidateDiskBootFlags args false = Ok tt ∧
  Flags.ValidateDiskBootFlags args true = Ok tt.
Proof. vm_compute. repeat split. Qed.

End DiskBoot.

(** ** Service account and scopes *)

(** C6: [--no-service-account] without [--no-scopes] raises the
    [RequiredArgumentException] that names [--no-scopes]; with [--no-scopes]
    given, or [--no-service-account] not given, no [RequiredArgumentException]
    is raised at all. *)
Theorem ValidateServiceAccountAndScopeArgs_requires_no_scopes
  (args : Flags.Namespace) :
  (Flags.no_service_account args = true ∧ Flags.no_scopes args = false →
   Flags.ValidateServiceAccountAndScopeArgs args =
     Raise (RequiredArgumentException "--no-scopes"
              "required with argument --no-service-account")) ∧
  (Flags.no_scopes args = true ∨ Flags.no_service_account args = false →
   ∀ parameter_name message,
     Flags.ValidateServiceAccountAndScopeArgs args ≠
       Raise (RequiredArgumentException parameter_name message)).
Proof.
  unfold Flags.ValidateServiceAccountAndScopeArgs. split.
  - intros [-> ->]. reflexivity.
  - intros Hc parameter_name message.
    assert (Flags.no_service_account args && negb (Flags.no_scopes args) = false)
      as ->.
    { destruct Hc as [-> | ->]; [apply andb_false_r | reflexivity]. }
    simpl. intros H.
    apply for_each_Raise in H as (pre & scope & post & _ & _ & H).
    apply raise_if_Raise in H as [_ H]. discriminate.
Qed.

(** ** Network interfaces *)

Section Nic.

Implicit Types (args : Flags.Namespace) (ni : gmap string (option string)).

Lemma both_addresses_test ni :
  bool_decide (is_Some (ni !! "address")) &&
  bool_decide (is_Some (ni !! "no-address")) = true ↔ Spec.both_addresses ni.
Proof.
  unfold Spec.both_addresses.
  rewrite andb_true_iff, !bool_decide_eq_true. reflexivity.
Qed.

Lemma nic_loop_Ok (nis : list (gmap string (option string))) (e : exn) :
  Forall (fun ni => ¬ Spec.both_addresses ni) nis →
  for_each nis (fun ni =>
    raise_if (bool_decide (is_Some (ni !! "address")) &&
              bool_decide (is_Some (ni !! "no-address"))) e) = Ok tt.
Proof.
  intros H. apply for_each_Ok. eapply Forall_impl; [exact H |].
  intros ni Hni. apply raise_if_Ok. apply not_true_is_false.
  rewrite both_addresses_test. exact Hni.
Qed.

Lemma nic_loop_Raise (nis : list (gmap string (option string))) (e : exn) :
  Exists Spec.both_addresses nis →
  for_each nis (fun ni =>
    raise_if (bool_decide (is_Some (ni !! "address")) &&
              bool_decide (is_Some (ni !! "no-address"))) e) = Raise e.
Proof.
  induction nis as [|ni nis IH]; intros H; [inversion H |]. simpl.
  destruct (bool_decide (is_Some (ni !! "address")) &&
            bool_decide (is_Some (ni !! "no-address"))) eqn:Hni; simpl.
  - reflexivity.
  - apply IH. inversion H as [? ? Hh | ? ? Ht]; subst; [| exact Ht].
    apply both_addresses_test in Hh. congruence.
Qed.

(** Without a clashing interface the outcome is decided by the standalone
    flags alone. *)
Lemma ValidateNicFlags_standalone args (nis : list (gmap string (option string))) :
  Flags.network_interface args = Some nis →
  Forall (fun ni => ¬ Spec.both_addresses ni) nis →
  Flags.ValidateNicFlags args =
    match Spec.standalone_flags_set args with
    | [] => Ok tt
    | present =>
        Raise (ConflictingArgumentsException
                 ["--network-interface";
                  "all of the following: " +:+ join ", " present])
    end.
Proof.
  intros Hni Hnis. unfold Flags.ValidateNicFlags. rewrite Hni.
  rewrite (nic_loop_Ok _ _ Hnis).
  unfold Spec.standalone_flags_set, Spec.standalone_flags. cbn.
  destruct (truthy (Flags.address args)), (truthy (Flags.network args)),
    (truthy (Flags.private_network_ip args)), (truthy (Flags.subnet args));
    reflexivity.
Qed.

Lemma standalone_flags_set_nil args :
  Spec.standalone_flags_set args = [] ↔
  ¬ (truthy (Flags.address args) = true ∨ truthy (Flags.network args) = true ∨
     truthy (Flags.private_network_ip args) = true ∨
     truthy (Flags.subnet args) = true).
Proof.
  unfold Spec.standalone_flags_set, Spec.standalone_flags. cbn.
  destruct (truthy (Flags.address args)), (truthy (Flags.network args)),
    (truthy (Flags.private_network_ip args)), (truthy (Flags.subnet args));
    cbn; split; intros H; try discriminate H; try reflexivity;
    try (exfalso; apply H; auto; fail);
    intros [? | [? | [? | ?]]]; discriminate.
Qed.

(** The conflict between [--network-interface] and the standalone flags, by
    the truth value of the flags. *)
Lemma nic_conflicts_by_truthiness args
  (nis : list (gmap string (option string))) :
  Flags.network_interface args = Some nis →
  (Exists Spec.both_addresses nis →
   Flags.ValidateNicFlags args =
     Raise (InvalidArgumentException "--network-interface"
              "specifies both address and no-address for one interface")) ∧
  (Forall (fun ni => ¬ Spec.both_addresses ni) nis →
   ((∃ arguments,
       Flags.ValidateNicFlags args =
         Raise (ConflictingArgumentsException arguments)) ↔
    (truthy (Flags.address args) = true ∨ truthy (Flags.network args) = true ∨
     truthy (Flags.private_network_ip args) = true ∨
     truthy (Flags.subnet args) = true)) ∧
   (Spec.standalone_flags_set args ≠ [] →
    Flags.ValidateNicFlags args =
      Raise (ConflictingArgumentsException
               ["--network-interface";
                "all of the following: " +:+
                join ", " (Spec.standalone_flags_set args)])) ∧
   (Spec.standalone_flags_set args = [] → Flags.ValidateNicFlags args = Ok tt)).
Proof.
  intros Hni. split.
  - intros Hboth. unfold Flags.ValidateNicFlags. rewrite Hni.
    rewrite (nic_loop_Raise _ _ Hboth). reflexivity.
  - intros Hnis. rewrite (ValidateNicFlags_standalone args nis Hni Hnis).
    pose proof (standalone_flags_set_nil args) as Hnil.
    destruct (Spec.standalone_flags_set args) as [|flag flags].
    + split; [| split].
      * split; [intros [? H]; discriminate |].
        intros H. exfalso. apply (proj1 Hnil); auto.
      * intros H. congruence.
      * reflexivity.
    + split; [| split].
      * split; [| eauto]. intros _.
        destruct (truthy (Flags.address args)); [auto |].
        destruct (truthy (Flags.network args)); [auto |].
        destruct (truthy (Flags.private_network_ip args)); [auto |].
        destruct (truthy (Flags.subnet args)); [auto |].
        exfalso. assert (flag :: flags = []) as H; [| discriminate H].
        apply Hnil. intros [H | [H | [H | H]]]; discriminate.
      * reflexivity.
      * discriminate.
Qed.

Lemma standalone_flags_given_set args :
  Spec.standalone_flags_given args = Spec.standalone_flags_set args.
Proof.
  unfold Spec.standalone_flags_given, Spec.standalone_flags_set,
    Spec.standalone_flags.
  destruct (Flags.address args) as [[|? ?] |],
    (Flags.network args) as [[|? ?] |],
    (Flags.private_network_ip args) as [[|? ?] |],
    (Flags.subnet args) as [[|? ?] |]; reflexivity.
Qed.

Lemma standalone_flags_functional args (flag : string) (v v' : option string) :
  (flag, v) ∈ Spec.standalone_flags args →
  (flag, v') ∈ Spec.standalone_flags args → v = v'.
Proof.
  unfold Spec.standalone_flags. rewrite !elem_of_cons, !elem_of_nil.
  intros [H | [H | [H | [H | []]]]] [H' | [H' | [H' | [H' | []]]]];
    simplify_eq; reflexivity.
Qed.

Lemma standalone_flags_given_elem args (flag : string) (value : option string) :
  (flag, value) ∈ Spec.standalone_flags args →
  flag ∈ Spec.standalone_flags_given args ↔ Spec.given value.
Proof.
  intros Hin. unfold Spec.standalone_flags_given.
  change (map fst ?l) with (fst <$> l). rewrite list_elem_of_fmap. split.
  - intros ([flag' v] & Hflag & Hp). simpl in Hflag. subst flag'.
    apply list_elem_of_filter in Hp as [Hgiven Hp]. simpl in Hgiven.
    rewrite (standalone_flags_functional args flag value v Hin Hp).
    exact Hgiven.
  - intros Hgiven. exists (flag, value). split; [reflexivity |].
    apply list_elem_of_filter. split; [exact Hgiven | exact Hin].
Qed.

(** C7, as the code has it.  A standalone flag is given when it has a
    non-empty value.  With [--network-interface] given: an interface that has
    both [address] and [no-address] is rejected first, with an
    [InvalidArgumentException], whatever else is given; when no interface has
    both, a [ConflictingArgumentsException] is raised exactly when one of
    [--address], [--network], [--private-network-ip], [--subnet] is given,
    its message lists every one of them that is given, in this order, and
    the validation passes exactly when each of them is absent or empty. *)
Theorem ValidateNicFlags_conflicts args
  (nis : list (gmap string (option string))) :
  Flags.network_interface args = Some nis →
  (Exists Spec.both_addresses nis →
   Flags.ValidateNicFlags args =
     Raise (InvalidArgumentException "--network-interface"
              "specifies both address and no-address for one interface")) ∧
  (Forall (fun ni => ¬ Spec.both_addresses ni) nis →
   ((∃ arguments,
       Flags.ValidateNicFlags args =
         Raise (ConflictingArgumentsException arguments)) ↔
    (Spec.given (Flags.address args) ∨ Spec.given (Flags.network args) ∨
     Spec.given (Flags.private_network_ip args) ∨
     Spec.given (Flags.subnet args))) ∧
   (Spec.given (Flags.address args) ∨ Spec.given (Flags.network args) ∨
    Spec.given (Flags.private_network_ip args) ∨
    Spec.given (Flags.subnet args) →
    Flags.ValidateNicFlags args =
      Raise (ConflictingArgumentsException
               ["--network-interface";
                "all of the following: " +:+
                join ", " (Spec.standalone_flags_given args)])) ∧
   (∀ flag value,
      (flag, value) ∈ Spec.standalone_flags args →
      flag ∈ Spec.standalone_flags_given args ↔ Spec.given value) ∧
   (Flags.ValidateNicFlags args = Ok tt ↔
    Spec.not_given (Flags.address args) ∧
    Spec.not_given (Flags.network args) ∧
    Spec.not_given (Flags.private_network_ip args) ∧
    Spec.not_given (Flags.subnet args))).
Proof.
  intros Hni.
  destruct (nic_conflicts_by_truthiness args nis Hni) as [Hboth Hrest].
  split; [exact Hboth |]. intros Hnis.
  destruct (Hrest Hnis) as (Hiff & Hsome & Hnone).
  pose proof (standalone_flags_set_nil args) as Hnil.
  rewrite <- standalone_flags_given_set in Hsome, Hnone, Hnil.
  rewrite !truthy_given in Hiff, Hnil.
  split; [exact Hiff |]. split; [| split].
  - intros Hgiven. apply Hsome. intros Hempty. apply Hnil; assumption.
  - intros flag value. apply standalone_flags_given_elem.
  - rewrite <- !truthy_not_given. split.
    + intros Hok.
      assert (¬ (Spec.given (Flags.address args) ∨
                 Spec.given (Flags.network args) ∨
                 Spec.given (Flags.private_network_ip args) ∨
                 Spec.given (Flags.subnet args))) as Hno.
      { intros Hgiven. apply Hiff in Hgiven as [arguments Hraise].
        congruence. }
      rewrite <- !truthy_given in Hno.
      destruct (truthy (Flags.address args)); [destruct Hno; auto |].
      destruct (truthy (Flags.network args)); [destruct Hno; auto |].
      destruct (truthy (Flags.private_network_ip args)); [destruct Hno; auto |].
      destruct (truthy (Flags.subnet args)); [destruct Hno; auto |].
      auto.
    + intros (Ha & Hn & Hp & Hs). apply Hnone. apply Hnil.
      rewrite <- !truthy_given. intros [H | [H | [H | H]]]; congruence.
Qed.

Lemma ValidateNicFlags_conflicts_witness :
  let args :=
    Spec.nic_args (Some [{[ "network" := Some "net1" ]}])
      (Some "10.0.0.1") (Some "") None (Some "sub1") in
  Flags.ValidateNicFlags args =
    Raise (ConflictingArgumentsException
             ["--network-interface";
              "all of the following: --address, --subnet"]).
Proof.
  intros args.
  destruct (ValidateNicFlags_conflicts args [{[ "network" := Some "net1" ]}])
    as [_ H]; [reflexivity |].
  destruct H as (_ & H & _).
  - repeat constructor. intros [_ [x Hx]]. vm_compute in Hx. discriminate.
  - apply H. left. exists "10.0.0.1". split; [reflexivity | discriminate].
Defined.

(** A standalone flag that is set to the empty string is no conflict. *)
Example empty_address_is_no_conflict :
  Flags.ValidateNicFlags
    (Spec.nic_args (Some [{[ "network" := Some "net1" ]}])
       (Some "") None None None) = Ok tt.
Proof. vm_compute. reflexivity. Qed.

(** C7 as stated fails: with [--address] set next to a [--network-interface]
    that has both [address] and [no-address], what is raised is an
    [InvalidArgumentException], not a conflicting-arguments error. *)
Lemma nic_conflict_claim_counterexample :
  let ni : gmap string (option string) :=
    {[ "address" := Some "10.0.0.2"; "no-address" := None ]} in
  let args := Spec.nic_args (Some [ni]) (Some "10.0.0.1") None None None in
  truthy (Flags.address args) = true ∧
  Flags.ValidateNicFlags args =
    Raise (InvalidArgumentException "--network-interface"
             "specifies both address and no-address for one interface") ∧
  ∀ arguments,
    Flags.ValidateNicFlags args ≠ Raise (ConflictingArgumentsException arguments).
Proof. vm_compute. repeat split; discriminate. Qed.

End Nic.

(** ** Local SSD sizes *)

Section LocalSsdSize.

Variable U : Flags.SizeUnits.
Variable K : Flags.Constants.

(** The parser's gigabyte is the gigabyte of [constants]. *)
Hypothesis GB_is_BYTES_IN_ONE_GB : Flags.GB U = Flags.BYTES_IN_ONE_GB K.
Hypothesis GB_positive : (0 < Flags.GB U)%Z.

Lemma parse_size_GB_375 : Flags.parse_size U "375GB" = Ok (375 * Flags.GB U)%Z.
Proof. reflexivity. Qed.

Lemma parse_size_cases (s : string) :
  (∃ v, Flags.parse_size U s = Ok v) ∨
  Flags.parse_size U s = Raise (MalformedInputError s).
Proof.
  unfold Flags.parse_size. destruct (Flags.split_digits s) as [ds suffix].
  destruct ds as [|d ds]; [auto |].
  destruct (Flags.unit_scale U suffix); eauto.
Qed.

Lemma local_ssd_size_type_unfold (s : string) :
  Flags.local_ssd_size_type U s =
    match Flags.parse_size U s with
    | Ok v =>
        if (v <? 375 * Flags.GB U)%Z then Raise (MalformedInputError s) else Ok v
    | Raise e => Raise e
    end.
Proof.
  unfold Flags.local_ssd_size_type, Flags.BinarySize.
  rewrite parse_size_GB_375.
  destruct (Flags.parse_size U s) as [v | e]; simpl; [| reflexivity].
  destruct (v <? 375 * Flags.GB U)%Z; reflexivity.
Qed.

Lemma local_ssd_size_type_Ok (s : string) (v : Z) :
  Flags.local_ssd_size_type U s = Ok v ↔
  Flags.parse_size U s = Ok v ∧ (375 * Flags.GB U ≤ v)%Z.
Proof.
  rewrite local_ssd_size_type_unfold.
  destruct (Flags.parse_size U s) as [v' | e].
  - destruct (Z.ltb_spec v' (375 * Flags.GB U)); split.
    + discriminate.
    + intros [[= ->] H']. lia.
    + intros [= ->]. auto.
    + intros [[= ->] _]. reflexivity.
  - split; [discriminate | intros [? _]; discriminate].
Qed.

(** One pass of the loop of [ValidateLocalSsdFlags] over an entry whose
    interface is legal. *)
Lemma local_ssd_body (ssd : Flags.LocalSsd) :
  Spec.ssd_interface_legal ssd = true →
  (raise_if (truthy (Flags.ssd_interface ssd) &&
             negb (existsb (fun ok => eq_str (Flags.ssd_interface ssd) ok)
                     Flags.LOCAL_SSD_INTERFACES))
     (InvalidArgumentException "--local-ssd:interface"
        ("Unexpected local SSD interface: [" +:+
         str_of (Flags.ssd_interface ssd) +:+
         "]. Legal values are [" +:+ join ", " Flags.LOCAL_SSD_INTERFACES +:+
         "]."));;
   match Flags.ssd_size ssd with
   | Some n =>
       remainder ← py_mod n (375 * Flags.BYTES_IN_ONE_GB K);
       raise_if (negb (remainder =? 0)%Z) (Spec.SSD_SIZE_ILLEGAL n)
   | None => Ok tt
   end) =
  match Flags.ssd_size ssd with
  | Some n =>
      if (n `mod` (375 * Flags.GB U) =? 0)%Z then Ok tt
      else Raise (Spec.SSD_SIZE_ILLEGAL n)
  | None => Ok tt
  end.
Proof.
  unfold Spec.ssd_interface_legal. intros H. apply negb_true_iff in H.
  rewrite H. simpl. destruct (Flags.ssd_size ssd) as [n |]; [| reflexivity].
  unfold py_mod. rewrite <- GB_is_BYTES_IN_ONE_GB.
  destruct (Z.eqb_spec (375 * Flags.GB U) 0) as [H0 | _]; [lia |]. simpl.
  destruct (n `mod` (375 * Flags.GB U) =? 0)%Z; reflexivity.
Qed.

Lemma ValidateLocalSsdFlags_legal_interfaces (args : Flags.Namespace) :
  Forall (fun ssd => Spec.ssd_interface_legal ssd = true)
    (or_empty (Flags.local_ssd args)) →
  (Flags.ValidateLocalSsdFlags K args = Ok tt ↔
   Forall (fun ssd => ∀ n, Flags.ssd_size ssd = Some n →
                           (n `mod` (375 * Flags.GB U) = 0)%Z)
     (or_empty (Flags.local_ssd args))) ∧
  (∀ e, Flags.ValidateLocalSsdFlags K args = Raise e →
        ∃ n, e = Spec.SSD_SIZE_ILLEGAL n ∧ (n `mod` (375 * Flags.GB U) ≠ 0)%Z).
Proof.
  intros Hl. unfold Flags.ValidateLocalSsdFlags.
  erewrite for_each_ext; cycle 1.
  { eapply Forall_impl; [exact Hl |]. intros ssd Hssd.
    apply (local_ssd_body ssd Hssd). }
  split.
  - rewrite for_each_Ok. split; intros H; (eapply Forall_impl; [exact H |]);
      intros ssd Hssd; simpl in *.
    + intros n Hn. rewrite Hn in Hssd.
      destruct (Z.eqb_spec (n `mod` (375 * Flags.GB U)) 0); congruence.
    + destruct (Flags.ssd_size ssd) as [n |]; [| reflexivity].
      rewrite (Hssd n eq_refl). reflexivity.
  - intros e H. apply for_each_Raise in H as (_ & ssd & _ & _ & _ & H).
    destruct (Flags.ssd_size ssd) as [n |]; [| discriminate].
    destruct (Z.eqb_spec (n `mod` (375 * Flags.GB U)) 0); [discriminate |].
    injection H as <-. eauto.
Qed.

Lemma ValidateLocalSsdFlags_one_size (n : Z) :
  Flags.ValidateLocalSsdFlags K (Spec.local_ssd_args (Some [Spec.ssd_of_size n])) =
    if (n `mod` (375 * Flags.GB U) =? 0)%Z then Ok tt
    else Raise (Spec.SSD_SIZE_ILLEGAL n).
Proof.
  unfold Flags.ValidateLocalSsdFlags. simpl. unfold py_mod.
  rewrite <- GB_is_BYTES_IN_ONE_GB.
  destruct (Z.eqb_spec (375 * Flags.GB U) 0) as [H0 | _]; [lia |]. simpl.
  destruct (n `mod` (375 * Flags.GB U) =? 0)%Z; reflexivity.
Qed.

(** C8, as the code has it.  A size that is not a magnitude with a unit, or
    that is below 375 GB, is rejected when it is parsed, with a
    [MalformedInputError]; a size of at least 375 GB parses, and
    [ValidateLocalSsdFlags] then rejects it, with an
    [InvalidArgumentException] on [--local-ssd:size], exactly when the size
    modulo 375 * bytes-per-GB is not zero.  So [370GB] fails to parse, and
    [375GB] and [750GB] parse and pass the validation. *)
Theorem local_ssd_size_checks :
  (∀ s, (∀ v, Flags.parse_size U s ≠ Ok v) →
        Flags.local_ssd_size_type U s = Raise (MalformedInputError s)) ∧
  (∀ s v, Flags.parse_size U s = Ok v → (v < 375 * Flags.GB U)%Z →
          Flags.local_ssd_size_type U s = Raise (MalformedInputError s)) ∧
  (∀ s v, Flags.parse_size U s = Ok v → (375 * Flags.GB U ≤ v)%Z →
          Flags.local_ssd_size_type U s = Ok v ∧
          Flags.ValidateLocalSsdFlags K
            (Spec.local_ssd_args (Some [Spec.ssd_of_size v])) =
            if (v `mod` (375 * Flags.BYTES_IN_ONE_GB K) =? 0)%Z then Ok tt
            else Raise (Spec.SSD_SIZE_ILLEGAL v)) ∧
  (∀ args,
     Forall (fun ssd => Spec.ssd_interface_legal ssd = true)
       (or_empty (Flags.local_ssd args)) →
     (Flags.ValidateLocalSsdFlags K args = Ok tt ↔
      Forall (fun ssd => ∀ n, Flags.ssd_size ssd = Some n →
                              (n `mod` (375 * Flags.BYTES_IN_ONE_GB K) = 0)%Z)
        (or_empty (Flags.local_ssd args))) ∧
     (∀ e, Flags.ValidateLocalSsdFlags K args = Raise e →
           ∃ n, e = Spec.SSD_SIZE_ILLEGAL n ∧
                (n `mod` (375 * Flags.BYTES_IN_ONE_GB K) ≠ 0)%Z)) ∧
  Flags.local_ssd_size_type U "370GB" = Raise (MalformedInputError "370GB") ∧
  (Flags.local_ssd_size_type U "375GB" = Ok (375 * Flags.GB U)%Z ∧
   Flags.ValidateLocalSsdFlags K
     (Spec.local_ssd_args (Some [Spec.ssd_of_size (375 * Flags.GB U)])) = Ok tt) ∧
  (Flags.local_ssd_size_type U "750GB" = Ok (750 * Flags.GB U)%Z ∧
   Flags.ValidateLocalSsdFlags K
     (Spec.local_ssd_args (Some [Spec.ssd_of_size (750 * Flags.GB U)])) = Ok tt).
Proof.
  rewrite <- GB_is_BYTES_IN_ONE_GB.
  assert (∀ s v, Flags.parse_size U s = Ok v → (v < 375 * Flags.GB U)%Z →
            Flags.local_ssd_size_type U s = Raise (MalformedInputError s)) as Hlow.
  { intros s v Hp Hv. rewrite local_ssd_size_type_unfold, Hp.
    destruct (Z.ltb_spec v (375 * Flags.GB U)); [reflexivity | lia]. }
  assert (∀ s v, Flags.parse_size U s = Ok v → (375 * Flags.GB U ≤ v)%Z →
            Flags.local_ssd_size_type U s = Ok v) as Hhigh.
  { intros s v Hp Hv. apply local_ssd_size_type_Ok. auto. }
  split.
  { intros s Hs. rewrite local_ssd_size_type_unfold.
    destruct (parse_size_cases s) as [[v Hv] | ->]; [| reflexivity].
    destruct (Hs v Hv). }
  split; [exact Hlow |]. split.
  { intros s v Hp Hv. split; [auto |]. apply ValidateLocalSsdFlags_one_size. }
  split; [apply ValidateLocalSsdFlags_legal_interfaces |].
  split; [| split].
  - apply (Hlow "370GB" (370 * Flags.GB U)%Z); [reflexivity | lia].
  - split.
    + apply (Hhigh "375GB"); [reflexivity | lia].
    + rewrite ValidateLocalSsdFlags_one_size.
      rewrite Z_mod_same_full. reflexivity.
  - split.
    + apply (Hhigh "750GB"); [reflexivity | lia].
    + rewrite ValidateLocalSsdFlags_one_size.
      replace (750 * Flags.GB U)%Z with (2 * (375 * Flags.GB U))%Z by lia.
      rewrite Z_mod_mult. reflexivity.
Qed.

End LocalSsdSize.

Lemma local_ssd_size_checks_witness :
  Flags.local_ssd_size_type Spec.binary_units "370GB"
    = Raise (MalformedInputError "370GB") ∧
  Flags.local_ssd_size_type Spec.binary_units "750GB" = Ok (750 * 2 ^ 30)%Z ∧
  Flags.ValidateLocalSsdFlags Spec.binary_constants
    (Spec.local_ssd_args (Some [Spec.ssd_of_size (750 * 2 ^ 30)])) = Ok tt.
Proof.
  destruct (local_ssd_size_checks Spec.binary_units Spec.binary_constants)
    as (_ & _ & _ & _ & H370 & _ & H750 & Hv750).
  - reflexivity.
  - reflexivity.
  - repeat split; assumption.
Defined.

(** C8 as stated fails: [400GB] is not a multiple of 375 GB, yet it parses;
    it is [ValidateLocalSsdFlags] that rejects it afterwards, and with an
    [InvalidArgumentException]. *)
Lemma local_ssd_size_claim_counterexample :
  Flags.local_ssd_size_type Spec.binary_units "400GB" = Ok (400 * 2 ^ 30)%Z ∧
  ((400 * 2 ^ 30) `mod` (375 * Flags.BYTES_IN_ONE_GB Spec.binary_constants) ≠ 0)%Z ∧
  Flags.ValidateLocalSsdFlags Spec.binary_constants
    (Spec.local_ssd_args (Some [Spec.ssd_of_size (400 * 2 ^ 30)])) =
    Raise (InvalidArgumentException "--local-ssd:size"
             "Unexpected local SSD size: [429496729600]. Legal values are positive multiples of 375GB.").
Proof. vm_compute. repeat split. discriminate. Qed.

(** ** Zones of an underspecified instance *)

Section ScopeLister.

Variable K : Flags.Constants.
Variable compute_client : Flags.ComputeClient.
Variables (instance_name project : string) (others : list string).

Hypothesis project_set : Flags.core_project compute_client = Some project.

Local Abbreviation underspecified_names := (instance_name :: others).
Local Abbreviation request := (Spec.aggregated_list_request K instance_name project).

Lemma zones_of_instances_Ok (matching_instances : list Flags.Instance)
  (names : list string) (zones : list Flags.Zone) :
  Forall2 (fun i z =>
             Flags.REGISTRY_Parse compute_client (Flags.instance_zone i) project
             = Ok z) matching_instances names →
  Flags.zones_of_instances compute_client project matching_instances zones =
    Ok (zones ++ map Flags.Zone_of_name names).
Proof.
  intros H. revert zones. induction H as [|i z rest zs Hi _ IH]; intros zones; simpl.
  - rewrite app_nil_r. reflexivity.
  - rewrite Hi. simpl. rewrite IH, <- app_assoc. reflexivity.
Qed.

(** C1: when the aggregated list reports errors, the lister writes them to
    the debug log, tells the operator, and answers with whatever
    [zones_service.List] returns for the project, all zones, under [ZONE];
    its value does not depend on the errors and is the value of the
    not-found path. *)
Theorem InstanceZoneScopeLister_query_failed
  (matching_instances : list Flags.Instance) (errors : list Flags.RequestError) :
  Flags.MakeRequests compute_client request = (matching_instances, errors) →
  errors ≠ [] →
  (Flags.InstanceZoneScopeLister K compute_client underspecified_names).1 =
    (zones ← Flags.zones_service_List compute_client project;
     Ok [(Flags.ZONE, zones)]) ∧
  (∀ all_zones,
     Flags.zones_service_List compute_client project = Ok all_zones →
     (Flags.InstanceZoneScopeLister K compute_client underspecified_names).1 =
       Ok [(Flags.ZONE, all_zones)]) ∧
  (Flags.InstanceZoneScopeLister K compute_client underspecified_names).2 =
    [Flags.log_debug Flags.ERRORS_FETCHING errors;
     Flags.log_status_Print
       ("Error fetching possible zones for instance: [" +:+
        join ", " underspecified_names +:+ "].")] ∧
  (Flags.InstanceZoneScopeLister K compute_client underspecified_names).1 =
    (Flags.InstanceZoneScopeLister K (Spec.with_nothing_found compute_client)
       underspecified_names).1.
Proof.
  intros Hresp Herr.
  unfold Flags.InstanceZoneScopeLister. simpl. rewrite project_set.
  change {| Flags.filter := _; Flags.project := _; Flags.maxResults := _ |}
    with request.
  rewrite Hresp. destruct errors as [|err errs]; [congruence |]. simpl.
  repeat split.
  intros all_zones ->. reflexivity.
Qed.

Lemma zones_of_instances_named (matching_instances : list Flags.Instance)
  (names : list string) :
  Flags.MakeRequests compute_client request = (matching_instances, []) →
  matching_instances ≠ [] →
  Forall2 (fun i z =>
             Flags.REGISTRY_Parse compute_client (Flags.instance_zone i) project
             = Ok z) matching_instances names →
  Flags.InstanceZoneScopeLister K compute_client underspecified_names =
    (Ok [(Flags.ZONE, map Spec.zone_named names)], []).
Proof.
  intros Hresp Hne Hzones.
  unfold Flags.InstanceZoneScopeLister. simpl. rewrite project_set.
  change {| Flags.filter := _; Flags.project := _; Flags.maxResults := _ |}
    with request.
  rewrite Hresp. simpl.
  destruct matching_instances as [|i rest]; [congruence |]. simpl negb. cbv iota.
  rewrite (zones_of_instances_Ok _ _ _ Hzones). reflexivity.
Qed.

Lemma Forall2_same_zone (matching_instances : list Flags.Instance) (z : string) :
  Forall (fun i =>
            Flags.REGISTRY_Parse compute_client (Flags.instance_zone i) project
            = Ok z) matching_instances →
  Forall2 (fun i z =>
             Flags.REGISTRY_Parse compute_client (Flags.instance_zone i) project
             = Ok z) matching_instances
    (replicate (length matching_instances) z).
Proof. induction 1; simpl; constructor; assumption. Qed.

(** C2: when the aggregated list reports no error and finds instances, the
    lister answers under [ZONE], and with nothing logged, with one [Zone]
    message per instance found, in the order found, each carrying the name
    of the zone of its instance and nothing else; it chooses none of them.
    Instances that are all in one zone give that zone and no other, once per
    instance, so that a single instance gives its single zone; instances in
    two zones give both zones and no other, and two instances give the two
    zones in the order found. *)
Theorem InstanceZoneScopeLister_candidates
  (matching_instances : list Flags.Instance) :
  Flags.MakeRequests compute_client request = (matching_instances, []) →
  matching_instances ≠ [] →
  (∀ names,
     Forall2 (fun i z =>
                Flags.REGISTRY_Parse compute_client (Flags.instance_zone i) project
                = Ok z) matching_instances names →
     Flags.InstanceZoneScopeLister K compute_client underspecified_names =
       (Ok [(Flags.ZONE,
             map (fun n => {| Flags.zone_name := Some n;
                              Flags.zone_region := None;
                              Flags.zone_status := None |}) names)], [])) ∧
  (∀ z,
     Forall (fun i =>
               Flags.REGISTRY_Parse compute_client (Flags.instance_zone i) project
               = Ok z) matching_instances →
     ∃ zones,
       Flags.InstanceZoneScopeLister K compute_client underspecified_names =
         (Ok [(Flags.ZONE, zones)], []) ∧
       zones = replicate (length matching_instances) (Spec.zone_named z) ∧
       (∀ zone, zone ∈ zones ↔ zone = Spec.zone_named z)) ∧
  (∀ i z, matching_instances = [i] →
     Flags.REGISTRY_Parse compute_client (Flags.instance_zone i) project = Ok z →
     Flags.InstanceZoneScopeLister K compute_client underspecified_names =
       (Ok [(Flags.ZONE, [Spec.zone_named z])], [])) ∧
  (∀ names z1 z2,
     Forall2 (fun i z =>
                Flags.REGISTRY_Parse compute_client (Flags.instance_zone i) project
                = Ok z) matching_instances names →
     (∀ n, n ∈ names ↔ n = z1 ∨ n = z2) →
     ∃ zones,
       Flags.InstanceZoneScopeLister K compute_client underspecified_names =
         (Ok [(Flags.ZONE, zones)], []) ∧
       (∀ zone, zone ∈ zones ↔
                zone = Spec.zone_named z1 ∨ zone = Spec.zone_named z2)) ∧
  (∀ i1 i2 z1 z2, matching_instances = [i1; i2] →
     Flags.REGISTRY_Parse compute_client (Flags.instance_zone i1) project = Ok z1 →
     Flags.REGISTRY_Parse compute_client (Flags.instance_zone i2) project = Ok z2 →
     Flags.InstanceZoneScopeLister K compute_client underspecified_names =
       (Ok [(Flags.ZONE, [Spec.zone_named z1; Spec.zone_named z2])], [])).
Proof.
  intros Hresp Hne.
  pose proof (fun names => zones_of_instances_named matching_instances names
                Hresp Hne) as Hgen.
  split; [| split; [| split; [| split]]].
  - intros names Hzones. exact (Hgen names Hzones).
  - intros z Hsame.
    exists (replicate (length matching_instances) (Spec.zone_named z)).
    split; [| split; [reflexivity |]].
    + rewrite (Hgen _ (Forall2_same_zone _ _ Hsame)).
      change (map Spec.zone_named ?l) with (Spec.zone_named <$> l).
      rewrite fmap_replicate. reflexivity.
    + intros zone. rewrite elem_of_replicate. split; [intros [H _]; exact H |].
      intros ->. split; [reflexivity |].
      destruct matching_instances; [congruence | discriminate].
  - intros i z Hi Hz. apply (Hgen [z]). rewrite Hi.
    repeat constructor. exact Hz.
  - intros names z1 z2 Hzones Hnames.
    exists (map Spec.zone_named names). split; [exact (Hgen names Hzones) |].
    intros zone. change (map Spec.zone_named ?l) with (Spec.zone_named <$> l).
    rewrite list_elem_of_fmap. split.
    + intros (n & -> & Hn). apply Hnames in Hn as [-> | ->]; auto.
    + intros [-> | ->]; eexists; (split; [reflexivity |]); apply Hnames; auto.
  - intros i1 i2 z1 z2 Hi Hz1 Hz2. apply (Hgen [z1; z2]). rewrite Hi.
    repeat constructor; assumption.
Qed.

End ScopeLister.

Lemma InstanceZoneScopeLister_query_failed_witness :
  let zones := [Flags.Zone_of_name "us-central1-a"; Flags.Zone_of_name "europe-west1-b"] in
  let client := Spec.sample_client ([], [(403%Z, "Forbidden")]) zones in
  (Flags.InstanceZoneScopeLister Spec.binary_constants client ["vm"]).1 =
    Ok [(Flags.ZONE, zones)].
Proof.
  intros zones client.
  destruct (InstanceZoneScopeLister_query_failed Spec.binary_constants client
              "vm" "my-project" [] eq_refl [] [(403%Z, "Forbidden")])
    as (_ & H & _).
  - reflexivity.
  - discriminate.
  - apply H. reflexivity.
Defined.

Lemma InstanceZoneScopeLister_candidates_witness :
  let found :=
    [{| Flags.instance_name := "vm";
        Flags.instance_zone := "https://compute/v1/projects/my-project/zones/us-central1-a" |};
     {| Flags.instance_name := "vm";
        Flags.instance_zone := "https://compute/v1/projects/my-project/zones/europe-west1-b" |}] in
  let client := Spec.sample_client (found, []) [] in
  Flags.InstanceZoneScopeLister Spec.binary_constants client ["vm"] =
    (Ok [(Flags.ZONE,
          [{| Flags.zone_name := Some "us-central1-a";
              Flags.zone_region := None;
              Flags.zone_status := None |};
           {| Flags.zone_name := Some "europe-west1-b";
              Flags.zone_region := None;
              Flags.zone_status := None |}])], []).
Proof.
  intros found client.
  destruct (InstanceZoneScopeLister_candidates Spec.binary_constants client
              "vm" "my-project" [] eq_refl found) as (_ & _ & _ & _ & H).
  - reflexivity.
  - discriminate.
  - eapply H; reflexivity.
Defined.

(** ** Android models *)

Section AndroidModels.

Implicit Types (model : ModelsList.AndroidModel)
  (catalog : ModelsList.AndroidDeviceCatalog).

Lemma filter_sublist_of {A : Type} (keep : A → bool) (l : list A) :
  sublist (List.filter keep l) l.
Proof.
  induction l as [|x l IH]; simpl; [constructor |].
  destruct (keep x); constructor; exact IH.
Qed.

(** Every sublist of kept elements is a sublist of the filtered list. *)
Lemma filter_sublist_greatest {A : Type} (keep : A → bool) (l other : list A) :
  sublist other l → Forall (fun x => keep x = true) other →
  sublist other (List.filter keep l).
Proof.
  induction 1 as [| x l1 l2 _ IH | x l1 l2 _ IH]; intros Hall; simpl.
  - constructor.
  - inversion Hall as [|? ? Hx Hrest]; subst. rewrite Hx.
    constructor. apply IH. exact Hrest.
  - destruct (keep x); [constructor |]; apply IH; exact Hall.
Qed.

(** C9: for the catalog the service returns, the command returns the models
    that have a supported version, and only those, in the order of the
    catalog: the result is the greatest sublist of the catalog's models whose
    [supportedVersionIds] are all non-empty. *)
Theorem Run_lists_supported_models catalog :
  ∃ listed,
    ModelsList.Run (Ok catalog) = Ok listed ∧
    (∀ model, In model listed ↔
              In model (ModelsList.models catalog) ∧
              ModelsList.supportedVersionIds model ≠ []) ∧
    sublist listed (ModelsList.models catalog) ∧
    (∀ other, sublist other (ModelsList.models catalog) →
              Forall (fun model => ModelsList.supportedVersionIds model ≠ []) other →
              sublist other listed).
Proof.
  eexists. split; [reflexivity |].
  assert (∀ model, truthy (ModelsList.supportedVersionIds model) = true ↔
                   ModelsList.supportedVersionIds model ≠ []) as Htruthy.
  { intros model. destruct (ModelsList.supportedVersionIds model); simpl.
    - split; [discriminate | congruence].
    - split; [discriminate | reflexivity]. }
  split; [| split].
  - intros model. rewrite filter_In, Htruthy. reflexivity.
  - apply filter_sublist_of.
  - intros other Hsub Hall. apply filter_sublist_greatest; [exact Hsub |].
    eapply Forall_impl; [exact Hall |]. intros model. apply Htruthy.
Qed.

End AndroidModels.

(** ** Deleting a Dataproc job *)

Section JobDeletion.

Context {R : Type}.
Variable ctx : JobsDelete.Context R.
Variable args_id : string.

Local Abbreviation message := (Spec.prompt_message args_id).

Lemma Run_parse_failed (w : JobsDelete.World R) (e : exn) :
  JobsDelete.ParseJob ctx args_id = Raise e →
  (JobsDelete.Run ctx args_id w).2 = w.
Proof.
  intros H. unfold JobsDelete.Run, JobsDelete.HandleHttpError.
  unfold mbind, JobsDelete.M_bind, JobsDelete.lift. rewrite H.
  destruct e; reflexivity.
Qed.

Lemma Run_declined (w : JobsDelete.World R) (job_ref : JobsDelete.JobRef) :
  JobsDelete.ParseJob ctx args_id = Ok job_ref →
  JobsDelete.PromptContinue ctx message = false →
  JobsDelete.Run ctx args_id w =
    (Raise (ToolException "Deletion aborted by user."),
     {| JobsDelete.remote := JobsDelete.remote w;
        JobsDelete.trace :=
          JobsDelete.trace w ++ [JobsDelete.PromptContinue_shown message] |}).
Proof.
  intros Hparse Hno. unfold JobsDelete.Run, JobsDelete.HandleHttpError.
  unfold mbind, JobsDelete.M_bind, JobsDelete.lift, JobsDelete.emit.
  rewrite Hparse. fold message. rewrite Hno. reflexivity.
Qed.

(** After a confirmation the run starts with the prompt and the request. *)
Lemma Run_confirmed (w : JobsDelete.World R) (job_ref : JobsDelete.JobRef) :
  JobsDelete.ParseJob ctx args_id = Ok job_ref →
  JobsDelete.PromptContinue ctx message = true →
  ∃ later,
    JobsDelete.trace (JobsDelete.Run ctx args_id w).2 =
      JobsDelete.trace w ++
      JobsDelete.PromptContinue_shown message ::
      JobsDelete.Delete_sent
        {| JobsDelete.request_projectId := JobsDelete.projectId job_ref;
           JobsDelete.request_jobId := JobsDelete.jobId job_ref |} :: later ∧
    ∀ request, ¬ In (JobsDelete.Delete_sent request) later.
Proof.
  intros Hparse Hyes. unfold JobsDelete.Run, JobsDelete.HandleHttpError.
  unfold mbind, JobsDelete.M_bind, JobsDelete.lift, JobsDelete.emit,
    JobsDelete.call.
  rewrite Hparse. fold message. rewrite Hyes. simpl.
  destruct (JobsDelete.projects_jobs_Delete ctx _ (JobsDelete.remote w))
    as [[[] | e] remote1]; simpl.
  - destruct (JobsDelete.WaitForResourceDeletion ctx job_ref remote1)
      as [[[] | e] remote2]; simpl.
    + eexists. split; [rewrite <- !app_assoc; reflexivity |].
      intros request [H | [H | []]]; discriminate.
    + eexists. split; [destruct e; simpl; rewrite <- !app_assoc; reflexivity |].
      intros request [H | []]; discriminate.
  - exists []. split; [destruct e; simpl; rewrite <- !app_assoc; reflexivity |].
    intros request [].
Qed.

(** C10: when the operator declines, the command raises the [ToolException]
    right after the prompt, sends nothing and leaves the remote job records
    as they were; and whenever a Delete request is among the events of a run,
    the operator has confirmed, and the request follows the prompt
    directly. *)
Theorem Run_deletes_only_after_confirmation (w : JobsDelete.World R) :
  (∀ job_ref,
     JobsDelete.ParseJob ctx args_id = Ok job_ref →
     JobsDelete.PromptContinue ctx message = false →
     JobsDelete.Run ctx args_id w =
       (Raise (ToolException "Deletion aborted by user."),
        {| JobsDelete.remote := JobsDelete.remote w;
           JobsDelete.trace :=
             JobsDelete.trace w ++ [JobsDelete.PromptContinue_shown message] |})) ∧
  (JobsDelete.PromptContinue ctx message = false →
   JobsDelete.remote (JobsDelete.Run ctx args_id w).2 = JobsDelete.remote w ∧
   ∃ new,
     JobsDelete.trace (JobsDelete.Run ctx args_id w).2 = JobsDelete.trace w ++ new ∧
     ∀ request, ¬ In (JobsDelete.Delete_sent request) new) ∧
  (∀ new request,
     JobsDelete.trace (JobsDelete.Run ctx args_id w).2 = JobsDelete.trace w ++ new →
     In (JobsDelete.Delete_sent request) new →
     JobsDelete.PromptContinue ctx message = true ∧
     ∃ later,
       new = JobsDelete.PromptContinue_shown message ::
             JobsDelete.Delete_sent request :: later).
Proof.
  split; [apply Run_declined |]. split.
  - intros Hno. destruct (JobsDelete.ParseJob ctx args_id) as [job_ref | e] eqn:Hparse.
    + rewrite (Run_declined w job_ref Hparse Hno). simpl. split; [reflexivity |].
      eexists. split; [reflexivity |]. intros request [H | []]. discriminate.
    + rewrite (Run_parse_failed w e Hparse). split; [reflexivity |].
      exists []. split; [rewrite app_nil_r; reflexivity |]. intros request [].
  - intros new request Htrace Hin.
    destruct (JobsDelete.ParseJob ctx args_id) as [job_ref | e] eqn:Hparse.
    + destruct (JobsDelete.PromptContinue ctx message) eqn:Hprompt.
      * split; [reflexivity |].
        destruct (Run_confirmed w job_ref Hparse Hprompt) as (later & Hrun & Hlater).
        rewrite Hrun in Htrace. apply app_inv_head in Htrace. subst new.
        destruct Hin as [H | [H | H]].
        -- discriminate.
        -- injection H as <-. eauto.
        -- destruct (Hlater request H).
      * rewrite (Run_declined w job_ref Hparse Hprompt) in Htrace. simpl in Htrace.
        apply app_inv_head in Htrace. subst new.
        destruct Hin as [H | []]. discriminate.
    + rewrite (Run_parse_failed w e Hparse) in Htrace.
      rewrite <- (app_nil_r (JobsDelete.trace w)) in Htrace at 1.
      apply app_inv_head in Htrace. subst new. destruct Hin.
Qed.

End JobDeletion.

(** Two runs against a service that holds the records of [job-1] and
    [job-2]: declined, both records stay; confirmed, [job-1] goes. *)
Example Run_sample_declined :
  JobsDelete.Run (Spec.sample_context false) "job-1"
    {| JobsDelete.remote := {[ "job-1"; "job-2" ]}; JobsDelete.trace := [] |} =
  (Raise (ToolException "Deletion aborted by user."),
   {| JobsDelete.remote := {[ "job-1"; "job-2" ]};
      JobsDelete.trace :=
        [JobsDelete.PromptContinue_shown "The job 'job-1' will be deleted."] |}).
Proof. reflexivity. Qed.

Example Run_sample_confirmed :
  let run :=
    JobsDelete.Run (Spec.sample_context true) "job-1"
      {| JobsDelete.remote := {[ "job-1"; "job-2" ]}; JobsDelete.trace := [] |} in
  run.1 = Ok tt ∧
  elements (JobsDelete.remote run.2) = ["job-2"] ∧
  JobsDelete.trace run.2 =
    [JobsDelete.PromptContinue_shown "The job 'job-1' will be deleted.";
     JobsDelete.Delete_sent
       {| JobsDelete.request_projectId := "my-project";
          JobsDelete.request_jobId := "job-1" |};
     JobsDelete.WaitForResourceDeletion_started
       {| JobsDelete.projectId := "my-project"; JobsDelete.jobId := "job-1" |}
       "Waiting for job deletion";
     JobsDelete.DeletedResource_logged
       {| JobsDelete.projectId := "my-project"; JobsDelete.jobId := "job-1" |}].
Proof. vm_compute. repeat split. Qed.

(** * Further properties of the validators *)

(** ** The common disk checks *)

Section DiskCommon.

Implicit Types (args : Flags.Namespace) (disk : gmap string string).

Lemma common_body_Ok disk :
  (raise_if (negb (truthy (disk !! "name")))
     (ToolException
        ("[name] is missing in [--disk]. [--disk] value must be of the form " +:+
         "[" +:+ Flags.DISK_METAVAR +:+ "]."));;
   raise_if (truthy (disk !! "mode") && negb (in_pair (disk !! "mode") "rw" "ro"))
     (ToolException
        ("Value for [mode] in [--disk] must be [rw] or [ro], not [" +:+
         str_of (disk !! "mode") +:+ "]."));;
   raise_if (truthy (disk !! "auto-delete") &&
             negb (in_pair (disk !! "auto-delete") "yes" "no"))
     (ToolException
        ("Value for [auto-delete] in [--disk] must be [yes] or [no], not " +:+
         "[" +:+ str_of (disk !! "auto-delete") +:+ "]."))) = Ok tt ↔
  Spec.disk_entry_legal disk.
Proof.
  unfold Spec.disk_entry_legal, Spec.named.
  rewrite <- truthy_option_string, <- !choice_test.
  destruct (truthy (disk !! "name")); simpl;
    [| split; [discriminate | intros [? _]; discriminate]].
  destruct (truthy (disk !! "mode") && negb (in_pair (disk !! "mode") "rw" "ro"));
    simpl; [split; [discriminate | intros (_ & ? & _); discriminate] |].
  destruct (truthy (disk !! "auto-delete") &&
            negb (in_pair (disk !! "auto-delete") "yes" "no")); simpl.
  - split; [discriminate | intros (_ & _ & ?); discriminate].
  - split; auto.
Qed.

Lemma ValidateDiskCommonFlags_passes_iff_aux args :
  Flags.ValidateDiskCommonFlags args = Ok tt ↔
  Forall Spec.disk_entry_legal (or_empty (Flags.disk args)).
Proof.
  unfold Flags.ValidateDiskCommonFlags. rewrite for_each_Ok.
  split; intros H; (eapply Forall_impl; [exact H |]);
    intros disk; apply common_body_Ok.
Qed.

(** X1: the common disk checks pass exactly when every [--disk] entry has a
    non-empty name, a mode that is absent, empty, [rw] or [ro], and an
    auto-delete that is absent, empty, [yes] or [no]; an entry without a name
    is reported as such whatever its other keys. *)
Theorem ValidateDiskCommonFlags_passes_iff args :
  (Flags.ValidateDiskCommonFlags args = Ok tt ↔
   Forall Spec.disk_entry_legal (or_empty (Flags.disk args))) ∧
  (∀ disk rest, or_empty (Flags.disk args) = disk :: rest →
     truthy (disk !! "name") = false →
     Flags.ValidateDiskCommonFlags args =
       Raise (ToolException
                ("[name] is missing in [--disk]. [--disk] value must be of the form " +:+
                 "[" +:+ Flags.DISK_METAVAR +:+ "]."))).
Proof.
  unfold Flags.ValidateDiskCommonFlags. split.
  - rewrite for_each_Ok. split; intros H; (eapply Forall_impl; [exact H |]);
      intros disk; apply common_body_Ok.
  - intros disk rest -> Hname. simpl. rewrite Hname. reflexivity.
Qed.

End DiskCommon.

(** ** Boot disk flags, in full *)

Section DiskBootFull.

Implicit Types (args : Flags.Namespace) (disk : gmap string string).

Lemma boot_flags_Ok_iff args (enable_kms : bool) :
  Flags.ValidateDiskBootFlags args enable_kms = Ok tt ↔
  Forall (fun d => Spec.boot_value_legal d = true) (or_empty (Flags.disk args)) ∧
  (Spec.count_boot_yes (or_empty (Flags.disk args)) ≤ 1)%nat ∧
  (Spec.count_boot_yes (or_empty (Flags.disk args)) = 1 →
   truthy (Flags.image args) = false ∧
   Spec.no_new_boot_disk_flags args enable_kms).
Proof.
  destruct (boot_loop_cases (or_empty (Flags.disk args)) false)
    as [[b Hloop] | [e Hloop]].
  - pose proof (proj1 (boot_loop_Ok _ _ _) Hloop) as (Hlegal & Hcount & Hb).
    simpl in Hb, Hcount.
    destruct (Spec.count_boot_yes (or_empty (Flags.disk args))) as [|[|n]] eqn:Hn;
      [| | lia]; simpl in Hb; subst b.
    + destruct (after_boot_loop args enable_kms false Hloop) as [H _].
      { apply andb_false_r. }
      rewrite (H eq_refl). split; [| reflexivity].
      intros _. split; [assumption | split; [lia | discriminate]].
    + unfold Flags.ValidateDiskBootFlags. rewrite Hloop. simpl.
      rewrite andb_true_r. unfold Spec.no_new_boot_disk_flags.
      destruct (truthy (Flags.image args)); simpl;
        [split; [discriminate | intuition congruence] |].
      destruct (truthy (Flags.boot_disk_device_name args)); simpl;
        [split; [discriminate | intuition congruence] |].
      destruct (truthy (Flags.boot_disk_type args)); simpl;
        [split; [discriminate | intuition congruence] |].
      destruct (truthy (Flags.boot_disk_size args)); simpl;
        [split; [discriminate | intuition congruence] |].
      destruct (Flags.boot_disk_auto_delete args); simpl;
        [| split; [discriminate | intuition congruence]].
      destruct enable_kms;
        [| split; [intros _ | reflexivity];
           split; [assumption | split; [lia | intros _; repeat split; discriminate]]].
      destruct (truthy (Flags.boot_disk_kms_key args)); simpl;
        [split; [discriminate | intuition congruence] |].
      destruct (truthy (Flags.boot_disk_kms_keyring args)); simpl;
        [split; [discriminate | intuition congruence] |].
      destruct (truthy (Flags.boot_disk_kms_location args)); simpl;
        [split; [discriminate | intuition congruence] |].
      destruct (truthy (Flags.boot_disk_kms_project args)); simpl;
        [split; [discriminate | intuition congruence] |].
      split; [intros _ | reflexivity].
      split; [assumption | split; [lia | intros _; repeat split]].
  - rewrite (boot_loop_raise_propagates args enable_kms e Hloop).
    split; [discriminate |]. intros (Hlegal & Hcount & _).
    assert (for_fold (or_empty (Flags.disk args)) false Flags.boot_flag_step =
            Ok (false || (0 <? Spec.count_boot_yes (or_empty (Flags.disk args)))%nat))
      as H.
    { apply boot_loop_Ok. repeat split; [assumption | lia]. }
    congruence.
Qed.

Lemma no_new_boot_disk_flags_absent args (enable_kms : bool) :
  Spec.no_new_boot_disk_flags args enable_kms ↔
  Spec.new_boot_disk_flags_absent args enable_kms.
Proof.
  unfold Spec.no_new_boot_disk_flags, Spec.new_boot_disk_flags_absent.
  rewrite !truthy_not_given, truthy_size_not_given. reflexivity.
Qed.

(** The same in terms of what is given. *)
Lemma boot_flags_pass_iff args (enable_kms : bool) :
  Flags.ValidateDiskBootFlags args enable_kms = Ok tt ↔
  Forall (fun d => Spec.choice_legal (d !! "boot") "yes" "no")
    (or_empty (Flags.disk args)) ∧
  (Spec.count_boot_yes (or_empty (Flags.disk args)) ≤ 1)%nat ∧
  (Spec.count_boot_yes (or_empty (Flags.disk args)) = 1 →
   Spec.not_given (Flags.image args) ∧
   Spec.new_boot_disk_flags_absent args enable_kms).
Proof.
  rewrite boot_flags_Ok_iff, boot_values_legal_iff, truthy_not_given,
    no_new_boot_disk_flags_absent. reflexivity.
Qed.

(** X2: the boot disk checks pass exactly when every [boot] value is absent,
    empty, [yes] or [no], at most one entry carries [boot=yes], and, if one
    does, [--image] is absent or empty and so is every flag that describes a
    new boot disk (the size absent or 0, auto-delete on); and when they fail
    although the values are legal and at most one entry is a boot disk, the
    exception is the one about [--disk] and [--image] or the one of a flag
    that needs a new boot disk. *)
Theorem ValidateDiskBootFlags_passes_iff args (enable_kms : bool) :
  (Flags.ValidateDiskBootFlags args enable_kms = Ok tt ↔
   Forall (fun d => Spec.choice_legal (d !! "boot") "yes" "no")
     (or_empty (Flags.disk args)) ∧
   (Spec.count_boot_yes (or_empty (Flags.disk args)) ≤ 1)%nat ∧
   (Spec.count_boot_yes (or_empty (Flags.disk args)) = 1 →
    Spec.not_given (Flags.image args) ∧
    Spec.new_boot_disk_flags_absent args enable_kms)) ∧
  (∀ e, Flags.ValidateDiskBootFlags args enable_kms = Raise e →
        Forall (fun d => Spec.choice_legal (d !! "boot") "yes" "no")
          (or_empty (Flags.disk args)) →
        (Spec.count_boot_yes (or_empty (Flags.disk args)) ≤ 1)%nat →
        Spec.count_boot_yes (or_empty (Flags.disk args)) = 1 ∧
        (e = ToolException Flags.BOOT_DISK_AND_IMAGE ∨
         ∃ flag, e = Flags.new_boot_disk_only flag)).
Proof.
  split; [apply boot_flags_pass_iff |].
  intros e He Hlegal Hcount. apply boot_values_legal_iff in Hlegal.
  assert (for_fold (or_empty (Flags.disk args)) false Flags.boot_flag_step =
          Ok (false || (0 <? Spec.count_boot_yes (or_empty (Flags.disk args)))%nat))
    as Hloop.
  { apply boot_loop_Ok. repeat split; [assumption | lia]. }
  simpl in Hloop.
  destruct (Spec.count_boot_yes (or_empty (Flags.disk args))) as [|[|n]] eqn:Hn;
    [| | lia]; simpl in Hloop.
  - destruct (after_boot_loop args enable_kms false Hloop) as [H _].
    { apply andb_false_r. }
    rewrite (H eq_refl) in He. discriminate.
  - split; [reflexivity |].
    destruct (truthy (Flags.image args)) eqn:Himg.
    + left. unfold Flags.ValidateDiskBootFlags in He.
      rewrite Hloop in He. simpl in He. rewrite Himg in He. simpl in He.
      congruence.
    + right. destruct (after_boot_loop args enable_kms true Hloop) as [_ H].
      { rewrite Himg. reflexivity. }
      destruct H as [H | [flag H]]; [congruence |].
      exists flag. congruence.
Qed.

End DiskBootFull.

(** ** Disks to create, and all disk checks together *)

Section DiskAll.

Implicit Types (args : Flags.Namespace) (attrs : Flags.CreateDiskAttrs)
  (disk : gmap string string) (entry : gmap string Flags.ArgValue).

Lemma create_disk_body_Ok attrs entry :
  (raise_if ((1 <? length (default [] (Flags.names attrs)))%nat &&
             truthy (entry !! "name"))
     (ToolException
        ("Cannot create a disk with [name]=" +:+
         Flags.str_of_value (entry !! "name") +:+
         " for more than one instance."));;
   raise_if (negb (truthy (entry !! "name")) &&
             truthy (Flags.require_csek_key_create attrs) &&
             truthy (Flags.csek_key_file attrs))
     (ToolException
        ("Cannot create a disk with customer supplied key when disk name " +:+
         "is not specified."));;
   raise_if (truthy (entry !! "mode") &&
             negb (Flags.value_in_pair (entry !! "mode") "rw" "ro"))
     (ToolException
        ("Value for [mode] in [--disk] must be [rw] or [ro], not [" +:+
         Flags.str_of_value (entry !! "mode") +:+ "]."));;
   raise_if (truthy (entry !! "image") && truthy (entry !! "image-family"))
     (ToolException
        ("Cannot specify [image] and [image-family] for a [--create-disk]. " +:+
         "The fields are mutually exclusive."))) = Ok tt ↔
  Spec.create_disk_entry_legal attrs entry.
Proof.
  unfold Spec.create_disk_entry_legal, Flags.value_in_pair.
  rewrite <- Nat.ltb_lt.
  destruct (1 <? length (default [] (Flags.names attrs)))%nat;
    destruct (truthy (entry !! "name")); simpl;
    try (split; [discriminate | intros (H & _); destruct H; auto]).
  all: destruct (truthy (Flags.require_csek_key_create attrs));
    destruct (truthy (Flags.csek_key_file attrs)); simpl;
    try (split; [discriminate | intros (_ & H & _); destruct H; auto]).
  all: destruct (truthy (entry !! "mode")) eqn:Hmode; simpl.
  all: try (destruct (bool_decide (entry !! "mode" = Some (Flags.StrValue "rw")))
              eqn:Hrw;
            destruct (bool_decide (entry !! "mode" = Some (Flags.StrValue "ro")))
              eqn:Hro; simpl;
            try apply bool_decide_eq_true in Hrw;
            try apply bool_decide_eq_true in Hro;
            try apply bool_decide_eq_false in Hrw;
            try apply bool_decide_eq_false in Hro).
  all: try (split; [discriminate |];
            intros (_ & _ & [H | [H | H]] & _); congruence).
  all: destruct (truthy (entry !! "image"));
    destruct (truthy (entry !! "image-family")); simpl.
  all: try (split; [discriminate | intros (_ & _ & _ & H); destruct H; auto]).
  all: split; [intros _ | reflexivity].
  all: repeat split; try (intros [? ?]; discriminate);
    try (intros (? & ? & ?); discriminate); auto.
Qed.

Lemma create_disk_flags_Ok_iff attrs :
  Flags.ValidateCreateDiskFlags attrs = Ok tt ↔
  Forall (Spec.create_disk_entry_legal attrs) (or_empty (Flags.create_disk attrs)).
Proof.
  unfold Flags.ValidateCreateDiskFlags. rewrite for_each_Ok.
  split; intros H; (eapply Forall_impl; [exact H |]); intros entry;
    apply create_disk_body_Ok.
Qed.

Lemma create_disk_entry_accepted_iff attrs entry :
  Spec.create_disk_entry_legal attrs entry ↔
  Spec.create_disk_entry_accepted attrs entry.
Proof.
  unfold Spec.create_disk_entry_legal, Spec.create_disk_entry_accepted.
  rewrite !truthy_value_given, !truthy_value_not_given, truthy_given,
    truthy_option_bool. reflexivity.
Qed.

(** The same in terms of what is given. *)
Lemma create_disk_flags_pass_iff attrs :
  Flags.ValidateCreateDiskFlags attrs = Ok tt ↔
  Forall (Spec.create_disk_entry_accepted attrs)
    (or_empty (Flags.create_disk attrs)).
Proof.
  rewrite create_disk_flags_Ok_iff. apply Forall_iff.
  intros entry. apply create_disk_entry_accepted_iff.
Qed.

(** X3: a key of a [--create-disk] entry is given when its value is present
    and is neither the empty string nor 0, and [csek_key_file] when it is a
    non-empty string.  The checks of [--create-disk] pass exactly when, for
    every entry: its name is not given while more than one name is in
    [args.names]; its name is given if [require_csek_key_create] is true
    and [csek_key_file] is given; its mode is not given, [rw] or [ro]; and
    its image and image family are not both given.  An entry whose image and
    image family are both given makes the checks fail wherever it stands. *)
Theorem ValidateCreateDiskFlags_passes_iff attrs :
  (Flags.ValidateCreateDiskFlags attrs = Ok tt ↔
   Forall (Spec.create_disk_entry_accepted attrs)
     (or_empty (Flags.create_disk attrs))) ∧
  (Exists (fun entry => Spec.value_given (entry !! "image") ∧
                        Spec.value_given (entry !! "image-family"))
     (or_empty (Flags.create_disk attrs)) →
   is_raise (Flags.ValidateCreateDiskFlags attrs) = true).
Proof.
  split; [apply create_disk_flags_pass_iff |].
  intros Hboth.
  destruct (result_unit_cases (Flags.ValidateCreateDiskFlags attrs))
    as [Hok | [e ->]]; [| reflexivity].
  apply create_disk_flags_pass_iff in Hok. rewrite Forall_forall in Hok.
  apply Exists_exists in Hboth as (entry & Hin & Himage).
  destruct (Hok entry Hin) as (_ & _ & _ & Hnot). destruct (Hnot Himage).
Qed.

(** X4: the check against a named disk for several instances counts
    [args.names]; on a namespace without that attribute it never fires,
    whatever the entries. *)
Theorem ValidateCreateDiskFlags_without_names attrs :
  Flags.names attrs = None →
  ∀ e name, Flags.ValidateCreateDiskFlags attrs = Raise e →
            e ≠ Spec.NAMED_DISK_FOR_SEVERAL name.
Proof.
  intros Hnames e name H. unfold Flags.ValidateCreateDiskFlags in H.
  apply for_each_Raise in H as (_ & entry & _ & _ & _ & H).
  rewrite Hnames in H. simpl in H.
  destruct (negb (truthy (entry !! "name")) &&
            truthy (Flags.require_csek_key_create attrs) &&
            truthy (Flags.csek_key_file attrs)); simpl in H.
  { injection H as <-. unfold Spec.NAMED_DISK_FOR_SEVERAL. cbn. discriminate. }
  destruct (truthy (entry !! "mode") &&
            negb (Flags.value_in_pair (entry !! "mode") "rw" "ro")); simpl in H.
  { injection H as <-. unfold Spec.NAMED_DISK_FOR_SEVERAL. cbn. discriminate. }
  destruct (truthy (entry !! "image") && truthy (entry !! "image-family"));
    simpl in H; [| discriminate].
  injection H as <-. unfold Spec.NAMED_DISK_FOR_SEVERAL. cbn. discriminate.
Qed.

Lemma ValidateCreateDiskFlags_without_names_witness :
  let entry : gmap string Flags.ArgValue :=
    {[ "name" := Flags.StrValue "data"; "mode" := Flags.StrValue "rx" ]} in
  let attrs :=
    {| Flags.names := None;
       Flags.create_disk := Some [entry];
       Flags.require_csek_key_create := None;
       Flags.csek_key_file := None |} in
  Flags.ValidateCreateDiskFlags attrs =
    Raise (ToolException
             "Value for [mode] in [--disk] must be [rw] or [ro], not [rx].") ∧
  ToolException "Value for [mode] in [--disk] must be [rw] or [ro], not [rx]." ≠
    Spec.NAMED_DISK_FOR_SEVERAL "data".
Proof.
  intros entry attrs.
  assert (Flags.ValidateCreateDiskFlags attrs =
          Raise (ToolException
                   "Value for [mode] in [--disk] must be [rw] or [ro], not [rx]."))
    as H by (vm_compute; reflexivity).
  split; [exact H |].
  exact (ValidateCreateDiskFlags_without_names attrs eq_refl _ "data" H).
Defined.

Lemma access_mode_Ok args :
  Flags.ValidateDiskAccessModeFlags args = Ok tt ↔
  ((1 < length (Flags.instance_names args))%nat →
   Forall (fun d : gmap string string => d !! "mode" ≠ Some "rw")
     (or_empty (Flags.disk args))).
Proof.
  unfold Flags.ValidateDiskAccessModeFlags. rewrite for_each_Ok. split.
  - intros H Hlen. eapply Forall_impl; [exact H |]. intros d Hd Hrw.
    apply raise_if_Ok in Hd. apply Nat.ltb_lt in Hlen. rewrite Hlen in Hd.
    simpl in Hd. apply eq_str_true in Hrw. congruence.
  - intros H. destruct (Nat.ltb_spec 1 (length (Flags.instance_names args)))
      as [Hlen | Hlen].
    + eapply Forall_impl; [exact (H Hlen) |]. intros d Hd.
      apply raise_if_Ok. simpl. apply not_true_is_false.
      rewrite eq_str_true. exact Hd.
    + apply Forall_forall. intros d _. reflexivity.
Qed.

(** X5: all disk checks together pass exactly when every [--disk] entry has
    a non-empty name and a mode, an auto-delete and a boot value that are
    absent, empty or one of their two choices, no entry is read-write when
    several instances are targeted, at most one entry is a boot disk and
    then [--image] and every flag of a new boot disk are absent or empty, and
    the [--create-disk] entries are accepted; and what the common checks
    raise is raised before anything else. *)
Theorem ValidateDiskFlags_passes_iff args attrs (enable_kms : bool) :
  (Flags.ValidateDiskFlags args attrs enable_kms = Ok tt ↔
   Forall Spec.disk_entry_legal (or_empty (Flags.disk args)) ∧
   ((1 < length (Flags.instance_names args))%nat →
    Forall (fun d : gmap string string => d !! "mode" ≠ Some "rw")
      (or_empty (Flags.disk args))) ∧
   Forall (fun d => Spec.choice_legal (d !! "boot") "yes" "no")
     (or_empty (Flags.disk args)) ∧
   (Spec.count_boot_yes (or_empty (Flags.disk args)) ≤ 1)%nat ∧
   (Spec.count_boot_yes (or_empty (Flags.disk args)) = 1 →
    Spec.not_given (Flags.image args) ∧
    Spec.new_boot_disk_flags_absent args enable_kms) ∧
   Forall (Spec.create_disk_entry_accepted attrs)
     (or_empty (Flags.create_disk attrs))) ∧
  (∀ e, Flags.ValidateDiskCommonFlags args = Raise e →
        Flags.ValidateDiskFlags args attrs enable_kms = Raise e).
Proof.
  unfold Flags.ValidateDiskFlags. split.
  - rewrite <- ValidateDiskCommonFlags_passes_iff_aux, <- access_mode_Ok.
    rewrite <- create_disk_flags_pass_iff.
    pose proof (boot_flags_pass_iff args enable_kms) as Hboot.
    destruct (result_unit_cases (Flags.ValidateDiskCommonFlags args))
      as [-> | [e ->]]; simpl;
      [| split; [discriminate | intros [? _]; discriminate]].
    destruct (result_unit_cases (Flags.ValidateDiskAccessModeFlags args))
      as [-> | [e ->]]; simpl;
      [| split; [discriminate | intros (_ & ? & _); discriminate]].
    destruct (result_unit_cases (Flags.ValidateDiskBootFlags args enable_kms))
      as [Hb | [e Hb]]; rewrite Hb in *; simpl.
    + split.
      * intros ->. destruct (proj1 Hboot eq_refl) as (? & ? & ?). auto 10.
      * intros (_ & _ & _ & _ & _ & ?). assumption.
    + split; [discriminate |]. intros (_ & _ & H1 & H2 & H3 & _).
      assert (Raise e = Ok tt) as H by (apply Hboot; auto). discriminate H.
  - intros e ->. reflexivity.
Qed.

End DiskAll.

(** ** Accelerators, public PTR records, network tiers *)

(** X6: the accelerator check passes when no accelerator or an empty one is
    given, and otherwise exactly when its [type] is present and not empty; a
    count alone is rejected. *)
Theorem ValidateAcceleratorArgs_passes_iff
  (accelerator : option (gmap string Flags.ArgValue)) :
  (Flags.ValidateAcceleratorArgs accelerator = Ok tt ↔
   accelerator = None ∨ accelerator = Some ∅ ∨
   ∃ d, accelerator = Some d ∧ truthy (d !! "type") = true) ∧
  (Flags.ValidateAcceleratorArgs accelerator ≠ Ok tt →
   Flags.ValidateAcceleratorArgs accelerator = Raise Spec.ACCELERATOR_TYPE_MISSING).
Proof.
  unfold Flags.ValidateAcceleratorArgs.
  destruct accelerator as [d |]; [| split; [split; auto | congruence]].
  destruct (decide (d = ∅)) as [-> | Hne].
  { rewrite bool_decide_eq_true_2 by reflexivity. simpl.
    split; [split; auto | congruence]. }
  rewrite bool_decide_eq_false_2 by exact Hne. simpl.
  destruct (d !! "type") as [v |] eqn:Htype; simpl.
  - destruct (truthy v) eqn:Hv; simpl.
    + split; [| congruence]. split; [| reflexivity]. intros _.
      right. right. exists d. rewrite Htype. auto.
    + split; [| reflexivity]. split; [discriminate |].
      intros [H | [H | (d' & [= <-] & H)]]; [discriminate | congruence |].
      rewrite Htype in H. change (truthy v = true) in H. congruence.
  - split; [| reflexivity]. split; [discriminate |].
    intros [H | [H | (d' & [= <-] & H)]]; [discriminate | congruence |].
    rewrite Htype in H. discriminate.
Qed.

(** X7: a public PTR record asked for on an interface other than the default
    one is rejected first, whatever else is given; otherwise the check fails
    exactly when [--public-ptr-domain] is given, be it empty, together with
    [--no-public-ptr]. *)
Theorem ValidatePublicPtrFlags_outcome (DEFAULT_NETWORK_INTERFACE : string)
  (args : Flags.AccessConfigArgs) :
  (∀ ni, Flags.public_ptr args = Some true →
         Flags.interface_name args = Some ni → ni ≠ DEFAULT_NETWORK_INTERFACE →
         Flags.ValidatePublicPtrFlags DEFAULT_NETWORK_INTERFACE args =
           Raise (Spec.PUBLIC_PTR_ON_OTHER_INTERFACE DEFAULT_NETWORK_INTERFACE ni)) ∧
  (Flags.public_ptr args ≠ Some true ∨ Flags.interface_name args = None ∨
   Flags.interface_name args = Some DEFAULT_NETWORK_INTERFACE →
   Flags.ValidatePublicPtrFlags DEFAULT_NETWORK_INTERFACE args =
     if bool_decide (is_Some (Flags.public_ptr_domain args) ∧
                     Flags.no_public_ptr args = Some true)
     then Raise (ConflictingArgumentsException
                   ["--public-ptr-domain"; "--no-public-ptr"])
     else Ok tt).
Proof.
  unfold Flags.ValidatePublicPtrFlags. split.
  - intros ni -> -> Hni. simpl.
    apply String.eqb_neq in Hni. rewrite Hni. reflexivity.
  - intros H.
    assert ((if bool_decide (Flags.public_ptr args = Some true)
             then match Flags.interface_name args with
                  | Some ni =>
                      raise_if (negb (String.eqb ni DEFAULT_NETWORK_INTERFACE))
                        (Spec.PUBLIC_PTR_ON_OTHER_INTERFACE
                           DEFAULT_NETWORK_INTERFACE ni)
                  | None => Ok tt
                  end
             else Ok tt) = Ok tt) as Hfirst.
    { destruct H as [H | [-> | ->]].
      - rewrite bool_decide_eq_false_2 by exact H. reflexivity.
      - destruct (bool_decide _); reflexivity.
      - rewrite String.eqb_refl. destruct (bool_decide _); reflexivity. }
    unfold Spec.PUBLIC_PTR_ON_OTHER_INTERFACE in Hfirst. rewrite Hfirst. simpl.
    destruct (decide (is_Some (Flags.public_ptr_domain args))) as [Hd | Hd];
      destruct (decide (Flags.no_public_ptr args = Some true)) as [Hn | Hn].
    + rewrite !bool_decide_eq_true_2 by auto. reflexivity.
    + rewrite (bool_decide_eq_false_2 _ Hn), andb_false_r.
      rewrite (bool_decide_eq_false_2 (_ ∧ _)) by (intros [? ?]; contradiction).
      reflexivity.
    + rewrite (bool_decide_eq_false_2 _ Hd).
      rewrite (bool_decide_eq_false_2 (_ ∧ _)) by (intros [? ?]; contradiction).
      reflexivity.
    + rewrite (bool_decide_eq_false_2 _ Hd).
      rewrite (bool_decide_eq_false_2 (_ ∧ _)) by (intros [? ?]; contradiction).
      reflexivity.
Qed.




(** ** The warning about a source instance template *)

Section SourceTemplateWarning.

Lemma list_remove_elem_of (x : string) (l : list string) :
  NoDup l → ∀ y, y ∈ Flags.list_remove x l ↔ y ∈ l ∧ y ≠ x.
Proof.
  induction 1 as [|z l Hz Hl IH]; intros y; simpl.
  - rewrite elem_of_nil. tauto.
  - destruct (String.eqb_spec x z) as [-> | Hne].
    + rewrite elem_of_cons. split.
      * intros Hy. split; [auto |]. intros ->. contradiction.
      * intros [[-> | Hy] Hyz]; [congruence | exact Hy].
    + rewrite !elem_of_cons, IH. split.
      * intros [-> | [Hy Hyx]]; [split; [auto | congruence] | auto].
      * intros [[-> | Hy] Hyx]; auto.
Qed.

Lemma list_remove_NoDup (x : string) (l : list string) :
  NoDup l → NoDup (Flags.list_remove x l).
Proof.
  induction 1 as [|z l Hz Hl IH]; simpl; [constructor |].
  destruct (String.eqb x z); [exact Hl |].
  constructor; [| exact IH].
  rewrite list_remove_elem_of by exact Hl. tauto.
Qed.

(** After the loop the names left are the given ones that are not among the
    flags looped over. *)
Lemma drop_allowed_elem_of (flags l : list string) :
  NoDup l → ∀ y, y ∈ Flags.drop_allowed flags l ↔ y ∈ l ∧ y ∉ flags.
Proof.
  revert l. induction flags as [|flag flags IH]; intros l Hl y; simpl.
  - rewrite elem_of_nil. tauto.
  - rewrite not_elem_of_cons. case_bool_decide as Hflag.
    + rewrite IH by (apply list_remove_NoDup; exact Hl).
      rewrite list_remove_elem_of by exact Hl. tauto.
    + rewrite IH by exact Hl. split; [| tauto].
      intros [Hy Hyf]. repeat split; try assumption. intros ->. contradiction.
Qed.

(** X9: with [--source-instance-template] given (and each specified name
    listed once) the warning is written exactly when some specified flag is
    not among the allowed ones, and it is written once; without the template
    flag nothing is written. *)
Theorem WarnForSourceInstanceTemplateLimitations_warns_iff
  (args : Flags.SpecifiedArgs) :
  NoDup (Flags.GetSpecifiedArgNames args) →
  (Flags.IsSpecified args "source_instance_template" = false →
   Flags.WarnForSourceInstanceTemplateLimitations args = []) ∧
  (Flags.IsSpecified args "source_instance_template" = true →
   (Flags.WarnForSourceInstanceTemplateLimitations args =
      [Flags.SOURCE_TEMPLATE_WARNING] ↔
    ∃ name, name ∈ Flags.GetSpecifiedArgNames args ∧ name ∉ Flags.allowed_flags) ∧
   (Flags.WarnForSourceInstanceTemplateLimitations args = [] ↔
    ∀ name, name ∈ Flags.GetSpecifiedArgNames args → name ∈ Flags.allowed_flags)).
Proof.
  intros Hnodup. unfold Flags.WarnForSourceInstanceTemplateLimitations.
  split; [intros ->; reflexivity |]. intros ->.
  pose proof (drop_allowed_elem_of Flags.allowed_flags _ Hnodup) as Hleft.
  destruct (Flags.drop_allowed Flags.allowed_flags
              (Flags.GetSpecifiedArgNames args)) as [|name left]; simpl.
  - split.
    + split; [discriminate |]. intros (name & Hin & Hout).
      assert (name ∈ @nil string) as H by (apply Hleft; auto).
      apply elem_of_nil in H. destruct H.
    + split; [| reflexivity]. intros _ name Hin.
      destruct (decide (name ∈ Flags.allowed_flags)) as [H | H]; [exact H |].
      assert (name ∈ @nil string) as H' by (apply Hleft; auto).
      apply elem_of_nil in H'. destruct H'.
  - assert (name ∈ name :: left) as Hname by apply list_elem_of_here.
    apply Hleft in Hname as [Hin Hout]. split.
    + split; [| reflexivity]. intros _. exists name. auto.
    + split; [discriminate |]. intros H. destruct (Hout (H name Hin)).
Qed.

Lemma WarnForSourceInstanceTemplateLimitations_warns_iff_witness :
  let args :=
    {| Flags.IsSpecified := fun dest =>
         bool_decide (dest ∈ ["source_instance_template"; "zone"; "tags"]);
       Flags.GetSpecifiedArgNames :=
         ["--source-instance-template"; "--zone"; "--tags"] |} in
  Flags.WarnForSourceInstanceTemplateLimitations args =
    [Flags.SOURCE_TEMPLATE_WARNING].
Proof.
  intros args.
  destruct (WarnForSourceInstanceTemplateLimitations_warns_iff args) as [_ H].
  - apply (bool_decide_unpack _). vm_compute. exact I.
  - destruct (H eq_refl) as [[_ Hw] _]. apply Hw.
    exists "--tags". split.
    + apply list_elem_of_In. simpl. auto.
    + intros H'. apply list_elem_of_In in H'. simpl in H'.
      decompose [or] H'; discriminate || assumption.
Defined.

End SourceTemplateWarning.

(** ** Resolving [--address] *)

Section ExpandAddress.

Variable services : Flags.AddressServices.
Variable region : option string.

(** X10: resolving [--address] sends at most one request, and none when the
    flag is absent or empty (the answer is [None]) or is an IP address (the
    answer is the flag's text, unchanged); a request that is sent asks for the
    address the text was parsed to. *)
Theorem ExpandAddressFlag_requests (address_flag : option string) :
  (length (Flags.ExpandAddressFlag services address_flag region).2 ≤ 1)%nat ∧
  (∀ request,
     request ∈ (Flags.ExpandAddressFlag services address_flag region).2 →
     ∃ text address_ref,
       address_flag = Some text ∧ text ≠ "" ∧
       Flags.ip_address services text = false ∧
       Flags.GetAddressRef services text region = Ok address_ref ∧
       request = Flags.address_get_request address_ref) ∧
  (address_flag = None ∨ address_flag = Some "" →
   Flags.ExpandAddressFlag services address_flag region = (Ok None, [])) ∧
  (∀ text, address_flag = Some text → text ≠ "" →
           Flags.ip_address services text = true →
           Flags.ExpandAddressFlag services address_flag region =
             (Ok (Some text), [])).
Proof.
  unfold Flags.ExpandAddressFlag.
  destruct address_flag as [[|c text] |]; simpl.
  - split; [lia |]. split; [| split; [reflexivity | congruence]].
    intros request H. apply elem_of_nil in H. destruct H.
  - destruct (Flags.ip_address services (String c text)) eqn:Hip; simpl.
    + split; [lia |]. split; [| split; [intros [H | H]; discriminate |]].
      * intros request H. apply elem_of_nil in H. destruct H.
      * intros text' [= <-] _ _. reflexivity.
    + destruct (Flags.GetAddressRef services (String c text) region)
        as [address_ref | e] eqn:Href; simpl.
      * unfold Flags._GetAddress.
        destruct (Flags.addresses_MakeRequests services _) as [res errors].
        simpl. split; [lia |]. split; [| split; [intros [H | H]; discriminate |]].
        -- intros request H. apply list_elem_of_singleton in H as ->.
           exists (String c text), address_ref. repeat split; auto; discriminate.
        -- intros text' [= <-] _ H. congruence.
      * split; [lia |]. split; [| split; [intros [H | H]; discriminate |]].
        -- intros request H. apply elem_of_nil in H. destruct H.
        -- intros text' [= <-] _ H. congruence.
  - split; [lia |]. split; [| split; [reflexivity | congruence]].
    intros request H. apply elem_of_nil in H. destruct H.
Qed.

(** X11: a name that is not an IP address is looked up with one request; any
    collected error makes the lookup fail with the exception built from the
    errors, even when a resource came back; without errors the answer is the
    [address] of the first resource, and an empty answer is an [IndexError]. *)
Theorem ExpandAddressFlag_lookup (text : string) (address_ref : Flags.AddressRef)
  (res : list Flags.Address) (errors : list Flags.RequestError) :
  text ≠ "" →
  Flags.ip_address services text = false →
  Flags.GetAddressRef services text region = Ok address_ref →
  Flags.addresses_MakeRequests services (Flags.address_get_request address_ref) =
    (res, errors) →
  (Flags.ExpandAddressFlag services (Some text) region).2 =
    [Flags.address_get_request address_ref] ∧
  (errors ≠ [] →
   (Flags.ExpandAddressFlag services (Some text) region).1 =
     Raise (Flags.RaiseToolException services errors
              "Could not fetch address resource:")) ∧
  (errors = [] →
   (Flags.ExpandAddressFlag services (Some text) region).1 =
     match res with
     | first :: _ => Ok (Some (Flags.Address_address first))
     | [] => Raise IndexError
     end).
Proof.
  intros Htext Hip Href Hresp. unfold Flags.ExpandAddressFlag.
  destruct text as [|c text]; [congruence |]. simpl. rewrite Hip, Href.
  unfold Flags._GetAddress. rewrite Hresp.
  destruct errors as [|err errs]; simpl.
  - split; [reflexivity |]. split; [congruence |]. intros _.
    destruct res; reflexivity.
  - split; [reflexivity |]. split; [reflexivity | discriminate].
Qed.

End ExpandAddress.

Lemma ExpandAddressFlag_lookup_witness :
  let services :=
    Spec.sample_address_services ([{| Flags.Address_address := "203.0.113.7" |}], []) in
  Flags.ExpandAddressFlag services (Some "my-address") (Some "us-central1") =
    (Ok (Some "203.0.113.7"),
     [{| Flags.get_address := "my-address";
         Flags.get_project := "my-project";
         Flags.get_region := "us-central1" |}]).
Proof.
  intros services.
  destruct (ExpandAddressFlag_lookup services (Some "us-central1") "my-address"
              {| Flags.address_name := "my-address";
                 Flags.address_project := "my-project";
                 Flags.address_region := "us-central1" |}
              [{| Flags.Address_address := "203.0.113.7" |}] [])
    as (Hsent & _ & Hvalue); [discriminate | reflexivity | reflexivity | reflexivity |].
  specialize (Hvalue eq_refl).
  destruct (Flags.ExpandAddressFlag services (Some "my-address") (Some "us-central1"))
    as [value sent].
  simpl in Hsent, Hvalue. rewrite Hsent, Hvalue. reflexivity.
Defined.

(** ** Scopes *)

(** X12: the service account check passes exactly when [--no-service-account]
    comes with [--no-scopes] (or is not given) and no scope is the empty
    string; with the first condition met, an empty scope raises the
    [InvalidArgumentException] on [--scopes]. *)
Theorem ValidateServiceAccountAndScopeArgs_passes_iff (args : Flags.Namespace) :
  (Flags.ValidateServiceAccountAndScopeArgs args = Ok tt ↔
   (Flags.no_service_account args = true → Flags.no_scopes args = true) ∧
   Forall (fun scope => scope ≠ "") (or_empty (Flags.scopes args))) ∧
  ((Flags.no_service_account args = true → Flags.no_scopes args = true) →
   Exists (fun scope => scope = "") (or_empty (Flags.scopes args)) →
   Flags.ValidateServiceAccountAndScopeArgs args = Raise Spec.EMPTY_SCOPE).
Proof.
  unfold Flags.ValidateServiceAccountAndScopeArgs.
  assert (∀ scope : string, negb (truthy scope) = false ↔ scope ≠ "") as Hscope.
  { intros [|c scope]; simpl; split; congruence. }
  destruct (Flags.no_service_account args), (Flags.no_scopes args); simpl.
  2: { split; [split; [discriminate | intros [H _]; discriminate (H eq_refl)] |].
       intros H. discriminate (H eq_refl). }
  all: split;
    [rewrite for_each_Ok; split;
       [intros H; split; [auto |]; eapply Forall_impl; [exact H |];
        intros scope Hs; apply Hscope; apply raise_if_Ok in Hs; exact Hs
       |intros [_ H]; eapply Forall_impl; [exact H |];
        intros scope Hs; apply raise_if_Ok, Hscope; exact Hs]
    |].
  all: intros _ Hex; induction Hex as [scope scopes -> | scope scopes _ IH]; simpl;
    [reflexivity |]; destruct scope; simpl; [reflexivity | exact IH].
Qed.

(** ** Local SSD interfaces *)

Section LocalSsdInterface.

Variable K : Flags.Constants.
Hypothesis gigabyte_not_zero : Flags.BYTES_IN_ONE_GB K ≠ 0%Z.

Lemma ssd_interface_legal_iff (ssd : Flags.LocalSsd) :
  Spec.ssd_interface_legal ssd = true ↔
  Flags.ssd_interface ssd = None ∨ Flags.ssd_interface ssd = Some "" ∨
  Flags.ssd_interface ssd = Some "NVME" ∨ Flags.ssd_interface ssd = Some "SCSI".
Proof.
  unfold Spec.ssd_interface_legal, Flags.LOCAL_SSD_INTERFACES. simpl.
  rewrite negb_true_iff, andb_false_iff, negb_false_iff, orb_false_r.
  rewrite orb_true_iff, !eq_str_true. split.
  - intros [H | [H | H]]; [| auto | auto].
    destruct (Flags.ssd_interface ssd) as [[|c s] |]; simpl in H;
      [auto | discriminate | auto].
  - intros [-> | [-> | [-> | ->]]]; auto.
Qed.

Lemma local_ssd_entry (ssd : Flags.LocalSsd) :
  (raise_if (truthy (Flags.ssd_interface ssd) &&
             negb (existsb (fun ok => eq_str (Flags.ssd_interface ssd) ok)
                     Flags.LOCAL_SSD_INTERFACES))
     (Spec.SSD_INTERFACE_ILLEGAL ssd);;
   match Flags.ssd_size ssd with
   | Some n =>
       remainder ← py_mod n (375 * Flags.BYTES_IN_ONE_GB K);
       raise_if (negb (remainder =? 0)%Z) (Spec.SSD_SIZE_ILLEGAL n)
   | None => Ok tt
   end) =
  if Spec.ssd_interface_legal ssd then
    match Flags.ssd_size ssd with
    | Some n =>
        if (n `mod` (375 * Flags.BYTES_IN_ONE_GB K) =? 0)%Z then Ok tt
        else Raise (Spec.SSD_SIZE_ILLEGAL n)
    | None => Ok tt
    end
  else Raise (Spec.SSD_INTERFACE_ILLEGAL ssd).
Proof.
  unfold Spec.ssd_interface_legal.
  destruct (truthy (Flags.ssd_interface ssd) && negb _); simpl; [reflexivity |].
  destruct (Flags.ssd_size ssd) as [n |]; [| reflexivity].
  unfold py_mod.
  destruct (Z.eqb_spec (375 * Flags.BYTES_IN_ONE_GB K) 0) as [H0 | _]; [lia |].
  simpl. destruct (n `mod` (375 * Flags.BYTES_IN_ONE_GB K) =? 0)%Z; reflexivity.
Qed.

(** X13: the local SSD check passes exactly when every entry's interface is
    absent, empty, [NVME] or [SCSI] (in upper case) and every given size is a
    multiple of 375 times the bytes in a gigabyte; within an entry the
    interface is checked before the size. *)
Theorem ValidateLocalSsdFlags_passes_iff (args : Flags.Namespace) :
  (Flags.ValidateLocalSsdFlags K args = Ok tt ↔
   Forall (fun ssd =>
             (Flags.ssd_interface ssd = None ∨ Flags.ssd_interface ssd = Some "" ∨
              Flags.ssd_interface ssd = Some "NVME" ∨
              Flags.ssd_interface ssd = Some "SCSI") ∧
             ∀ n, Flags.ssd_size ssd = Some n →
                  (n `mod` (375 * Flags.BYTES_IN_ONE_GB K) = 0)%Z)
     (or_empty (Flags.local_ssd args))) ∧
  (∀ ssd rest, or_empty (Flags.local_ssd args) = ssd :: rest →
     Spec.ssd_interface_legal ssd = false →
     Flags.ValidateLocalSsdFlags K args = Raise (Spec.SSD_INTERFACE_ILLEGAL ssd)).
Proof.
  unfold Flags.ValidateLocalSsdFlags.
  erewrite for_each_ext; cycle 1.
  { apply Forall_forall. intros ssd _. apply (local_ssd_entry ssd). }
  split.
  - rewrite for_each_Ok. split; intros H; (eapply Forall_impl; [exact H |]);
      intros ssd; cbv beta; rewrite <- ssd_interface_legal_iff.
    + intros Hssd. destruct (Spec.ssd_interface_legal ssd); [| discriminate].
      split; [reflexivity |]. intros n Hn. rewrite Hn in Hssd.
      destruct (Z.eqb_spec (n `mod` (375 * Flags.BYTES_IN_ONE_GB K)) 0);
        [assumption | discriminate].
    + intros [Hlegal Hsize]. rewrite Hlegal.
      destruct (Flags.ssd_size ssd) as [n |]; [| reflexivity].
      rewrite (Hsize n eq_refl). reflexivity.
  - intros ssd rest -> Hillegal. simpl. rewrite Hillegal. reflexivity.
Qed.

End LocalSsdInterface.

Lemma ValidateLocalSsdFlags_passes_iff_witness :
  let ssd :=
    {| Flags.ssd_device_name := None;
       Flags.ssd_interface := Some "nvme";
       Flags.ssd_size := Some 5%Z |} in
  Flags.ValidateLocalSsdFlags Spec.binary_constants
    (Spec.local_ssd_args (Some [ssd])) =
  Raise (InvalidArgumentException "--local-ssd:interface"
           "Unexpected local SSD interface: [nvme]. Legal values are [NVME, SCSI].").
Proof.
  intros ssd.
  destruct (ValidateLocalSsdFlags_passes_iff Spec.binary_constants
              ltac:(discriminate) (Spec.local_ssd_args (Some [ssd]))) as [_ H].
  exact (H ssd [] eq_refl eq_refl).
Defined.

(** ** The zone lister, beyond the error path *)

Section ScopeListerMore.

Variable K : Flags.Constants.
Variable compute_client : Flags.ComputeClient.

Lemma zones_of_instances_Raise (project : string) (found : list Flags.Instance)
  (names : list string) (i : Flags.Instance) (later : list Flags.Instance)
  (zones : list Flags.Zone) (e : exn) :
  Forall2 (fun i z =>
             Flags.REGISTRY_Parse compute_client (Flags.instance_zone i) project
             = Ok z) found names →
  Flags.REGISTRY_Parse compute_client (Flags.instance_zone i) project = Raise e →
  Flags.zones_of_instances compute_client project (found ++ i :: later) zones =
    Raise e.
Proof.
  intros H Hi. revert zones.
  induction H as [|j z found names Hj _ IH]; intros zones; simpl.
  - rewrite Hi. reflexivity.
  - rewrite Hj. simpl. apply IH.
Qed.

(** X14: when the aggregated list reports no error and finds nothing, the
    lister tells the operator that no instance has the name and answers with
    what [zones_service.List] returns for the project, under [ZONE]. *)
Theorem InstanceZoneScopeLister_not_found
  (instance_name project : string) (others : list string) :
  Flags.core_project compute_client = Some project →
  Flags.MakeRequests compute_client
    (Spec.aggregated_list_request K instance_name project) = ([], []) →
  Flags.InstanceZoneScopeLister K compute_client (instance_name :: others) =
    (zones ← Flags.zones_service_List compute_client project;
     Ok [(Flags.ZONE, zones)],
     [Flags.log_debug Flags.ERRORS_FETCHING [];
      Flags.log_status_Print
        ("Unable to find an instance with name [" +:+ instance_name +:+ "].")]).
Proof.
  intros Hproject Hresp. unfold Flags.InstanceZoneScopeLister. simpl.
  rewrite Hproject.
  change {| Flags.filter := _; Flags.project := _; Flags.maxResults := _ |}
    with (Spec.aggregated_list_request K instance_name project).
  rewrite Hresp. reflexivity.
Qed.

(** X15: only the first underspecified name is looked up: two invocations that
    agree on it return the same value, whatever other names follow; with no
    name at all the lister raises an [IndexError], and with names but no
    project a [RequiredPropertyError], in both cases without writing to the
    log. *)
Theorem InstanceZoneScopeLister_first_name_only :
  (∀ instance_name others others',
     (Flags.InstanceZoneScopeLister K compute_client (instance_name :: others)).1 =
     (Flags.InstanceZoneScopeLister K compute_client (instance_name :: others')).1) ∧
  Flags.InstanceZoneScopeLister K compute_client [] = (Raise IndexError, []) ∧
  (Flags.core_project compute_client = None →
   ∀ instance_name others,
     Flags.InstanceZoneScopeLister K compute_client (instance_name :: others) =
       (Raise (RequiredPropertyError "project"), [])).
Proof.
  split; [| split].
  - intros instance_name others others'. unfold Flags.InstanceZoneScopeLister.
    destruct (Flags.core_project compute_client) as [project |]; [| reflexivity].
    destruct (Flags.MakeRequests compute_client _) as [found errors].
    destruct errors; [destruct found |]; reflexivity.
  - reflexivity.
  - intros Hproject instance_name others. unfold Flags.InstanceZoneScopeLister.
    rewrite Hproject. reflexivity.
Qed.

(** X16: when the zone of a matching instance cannot be parsed, the lister
    raises what the registry raised for the first such instance and returns
    no zones, not even those parsed before it. *)
Theorem InstanceZoneScopeLister_unparsable_zone
  (instance_name project : string) (others : list string)
  (found later : list Flags.Instance) (names : list string)
  (i : Flags.Instance) (e : exn) :
  Flags.core_project compute_client = Some project →
  Flags.MakeRequests compute_client
    (Spec.aggregated_list_request K instance_name project) =
    (found ++ i :: later, []) →
  Forall2 (fun i z =>
             Flags.REGISTRY_Parse compute_client (Flags.instance_zone i) project
             = Ok z) found names →
  Flags.REGISTRY_Parse compute_client (Flags.instance_zone i) project = Raise e →
  Flags.InstanceZoneScopeLister K compute_client (instance_name :: others) =
    (Raise e, []).
Proof.
  intros Hproject Hresp Hfound Hi. unfold Flags.InstanceZoneScopeLister. simpl.
  rewrite Hproject.
  change {| Flags.filter := _; Flags.project := _; Flags.maxResults := _ |}
    with (Spec.aggregated_list_request K instance_name project).
  rewrite Hresp. simpl.
  destruct (found ++ i :: later) as [|j rest] eqn:Hlist.
  { destruct found; discriminate. }
  simpl negb. cbv iota. rewrite <- Hlist.
  rewrite (zones_of_instances_Raise project found names i later [] e Hfound Hi).
  reflexivity.
Qed.

End ScopeListerMore.

(** ** Deleting a Dataproc job: order of events and errors *)

Section JobDeletionMore.

Context {R : Type}.
Variable ctx : JobsDelete.Context R.
Variable args_id : string.

Local Abbreviation message := (Spec.prompt_message args_id).

Local Ltac run_cases w :=
  unfold JobsDelete.Run, JobsDelete.HandleHttpError;
  unfold mbind, JobsDelete.M_bind, JobsDelete.lift, JobsDelete.emit,
    JobsDelete.call, JobsDelete.raise, mret, JobsDelete.M_ret;
  fold message;
  destruct (JobsDelete.ParseJob ctx args_id) as [job_ref | parse_error] eqn:Hparse;
  [ destruct (JobsDelete.PromptContinue ctx message) eqn:Hprompt; simpl;
    [ destruct (JobsDelete.projects_jobs_Delete ctx _ (JobsDelete.remote w))
        as [[[] | delete_error] remote1] eqn:Hdelete; simpl;
      [ destruct (JobsDelete.WaitForResourceDeletion ctx job_ref remote1)
          as [[[] | wait_error] remote2] eqn:Hwait; simpl;
        [ | destruct wait_error; simpl ]
      | destruct delete_error; simpl ]
    | ]
  | destruct parse_error; simpl ].

(** X17: the events of a run are an initial part of the sequence prompt,
    Delete request, wait, log entry, all for the job the identifier was parsed
    to; when the identifier cannot be parsed there is no event at all. *)
Theorem Run_events_in_order (w : JobsDelete.World R) :
  ∃ new,
    JobsDelete.trace (JobsDelete.Run ctx args_id w).2 = JobsDelete.trace w ++ new ∧
    (∀ job_ref, JobsDelete.ParseJob ctx args_id = Ok job_ref →
       ∃ k, new =
         take k
           [JobsDelete.PromptContinue_shown message;
            JobsDelete.Delete_sent
              {| JobsDelete.request_projectId := JobsDelete.projectId job_ref;
                 JobsDelete.request_jobId := JobsDelete.jobId job_ref |};
            JobsDelete.WaitForResourceDeletion_started job_ref
              "Waiting for job deletion";
            JobsDelete.DeletedResource_logged job_ref]) ∧
    (∀ e, JobsDelete.ParseJob ctx args_id = Raise e → new = []).
Proof.
  run_cases w.
  all: rewrite <- ?app_assoc; simpl.
  all: try (eexists; split; [reflexivity |]; split;
            [intros ? [= <-] | discriminate]).
  all: try (eexists; split; [symmetry; apply app_nil_r |]; split;
            [discriminate | reflexivity]).
  all: first [ by exists 4 | by exists 3 | by exists 2 | by exists 1 ].
Qed.

(** X18: the deletion is logged exactly when the run succeeds: a run returns
    normally if and only if its events are the full sequence, ending with the
    log entry. *)
Theorem Run_logs_deletion_iff_success (w : JobsDelete.World R) :
  (JobsDelete.Run ctx args_id w).1 = Ok tt ↔
  ∃ job_ref,
    JobsDelete.ParseJob ctx args_id = Ok job_ref ∧
    JobsDelete.trace (JobsDelete.Run ctx args_id w).2 =
      JobsDelete.trace w ++
      [JobsDelete.PromptContinue_shown message;
       JobsDelete.Delete_sent
         {| JobsDelete.request_projectId := JobsDelete.projectId job_ref;
            JobsDelete.request_jobId := JobsDelete.jobId job_ref |};
       JobsDelete.WaitForResourceDeletion_started job_ref
         "Waiting for job deletion";
       JobsDelete.DeletedResource_logged job_ref].
Proof.
  run_cases w.
  all: rewrite <- ?app_assoc; simpl.
  all: split;
    [ try discriminate; intros _; eexists; split; reflexivity
    | intros (ref & Href & Htrace); try discriminate Href;
      try reflexivity;
      try (apply app_inv_head in Htrace; discriminate Htrace);
      try (rewrite <- (app_nil_r (JobsDelete.trace w)) in Htrace at 1;
           apply app_inv_head in Htrace; discriminate Htrace) ].
Qed.

End JobDeletionMore.

Lemma InstanceZoneScopeLister_not_found_witness :
  let zones := [Flags.Zone_of_name "us-central1-a"] in
  let client := Spec.sample_client ([], []) zones in
  Flags.InstanceZoneScopeLister Spec.binary_constants client ["vm"; "vm2"] =
    (Ok [(Flags.ZONE, zones)],
     [Flags.log_debug Flags.ERRORS_FETCHING [];
      Flags.log_status_Print "Unable to find an instance with name [vm]."]).
Proof.
  intros zones client.
  exact (InstanceZoneScopeLister_not_found Spec.binary_constants client
           "vm" "my-project" ["vm2"] eq_refl eq_refl).
Defined.

Lemma InstanceZoneScopeLister_unparsable_zone_witness :
  let good :=
    {| Flags.instance_name := "vm";
       Flags.instance_zone := "projects/my-project/zones/us-central1-a" |} in
  let bad := {| Flags.instance_name := "vm"; Flags.instance_zone := "" |} in
  Flags.InstanceZoneScopeLister Spec.binary_constants
    (Spec.strict_client ([good; bad], [])) ["vm"] =
    (Raise (CollaboratorError "could not parse resource"), []).
Proof.
  intros good bad.
  apply (InstanceZoneScopeLister_unparsable_zone Spec.binary_constants
           (Spec.strict_client ([good; bad], [])) "vm" "my-project" []
           [good] [] ["us-central1-a"] bad).
  - reflexivity.
  - reflexivity.
  - repeat constructor.
  - reflexivity.
Defined.

(** ** Android models, again *)

(** X20: listing is idempotent and never adds: the models the command returns
    all pass its filter again unchanged, they are no more than the catalog
    has, and a catalog whose models all have a supported version is returned
    whole; an error of the service is the command's error. *)
Theorem Run_is_idempotent (catalog : ModelsList.AndroidDeviceCatalog) :
  (∃ listed,
     ModelsList.Run (Ok catalog) = Ok listed ∧
     ModelsList.Run (Ok {| ModelsList.models := listed |}) = Ok listed ∧
     (length listed ≤ length (ModelsList.models catalog))%nat ∧
     (Forall (fun model => ModelsList.supportedVersionIds model ≠ [])
        (ModelsList.models catalog) →
      listed = ModelsList.models catalog)) ∧
  (∀ e, ModelsList.Run (Raise e) = Raise e).
Proof.
  split; [| reflexivity]. eexists. split; [reflexivity |].
  unfold ModelsList.Run. simpl. split; [| split].
  - f_equal. induction (ModelsList.models catalog) as [|model models IH];
      simpl; [reflexivity |].
    destruct (truthy (ModelsList.supportedVersionIds model)) eqn:Hm; simpl;
      [rewrite Hm; f_equal |]; exact IH.
  - induction (ModelsList.models catalog) as [|model models IH]; simpl; [lia |].
    destruct (truthy (ModelsList.supportedVersionIds model)); simpl; lia.
  - induction 1 as [|model models Hm _ IH]; simpl; [reflexivity |].
    destruct (ModelsList.supportedVersionIds model); [congruence |].
    simpl. f_equal. exact IH.
Qed.

(** ** Updating a router *)

Section RouterUpdate.

Context {Mode Group Prefix Ref Other R : Type}.
Variable utils : RoutersUpdate.RouterUtils Mode Group Prefix Ref Other.
Variable client : RoutersUpdate.Client Mode Group Prefix Ref R.
Variable args : RoutersUpdate.Args Other.

Implicit Types (w : RoutersUpdate.World Mode Group Prefix Ref R)
  (b : RoutersUpdate.RouterBgp Mode Group Prefix).

Lemma cleared_fields_exact b (field : string) :
  field ∈ RoutersUpdate.cleared_fields_of b ↔
  (field = "bgp.advertisedGroups" ∧ RoutersUpdate.advertisedGroups b = []) ∨
  (field = "bgp.advertisedPrefixs" ∧ RoutersUpdate.advertisedPrefixs b = []).
Proof.
  unfold RoutersUpdate.cleared_fields_of.
  destruct (RoutersUpdate.advertisedGroups b) as [|g gs];
    destruct (RoutersUpdate.advertisedPrefixs b) as [|p ps]; simpl;
    rewrite ?elem_of_cons, ?elem_of_nil; split; intros H;
    decompose [and or] H; subst; auto; try discriminate; try contradiction.
Qed.

(** X21: a rejected combination of flags stops the command before any
    request.  A run sends nothing, or the Get request alone, or the Get
    request followed by one Patch request for the same router; the Patch
    carries the name of the router that was fetched and names as cleared
    exactly the advertised lists that are empty in it. *)
Theorem Run_requests w :
  (∀ e, RoutersUpdate.CheckIncompatibleFlagsOrRaise utils args = Raise e →
        RoutersUpdate.Run utils client args w = (Raise e, w)) ∧
  ∃ new,
    RoutersUpdate.trace _ (RoutersUpdate.Run utils client args w).2 =
      RoutersUpdate.trace _ w ++ new ∧
    (new = [] ∨
     ∃ ref, RoutersUpdate.ResolveAsResource utils args = Ok ref ∧
       (new = [RoutersUpdate.Get_sent ref] ∨
        ∃ existing rest remote1 replacement cleared_fields,
          RoutersUpdate.Get _ client ref (RoutersUpdate.remote _ w) =
            (Ok (existing :: rest), remote1) ∧
          RoutersUpdate.router_name replacement =
            RoutersUpdate.router_name existing ∧
          (∀ field, field ∈ cleared_fields ↔
             (field = "bgp.advertisedGroups" ∧
              RoutersUpdate.advertisedGroups (RoutersUpdate.bgp replacement) = []) ∨
             (field = "bgp.advertisedPrefixs" ∧
              RoutersUpdate.advertisedPrefixs (RoutersUpdate.bgp replacement) = [])) ∧
          new = [RoutersUpdate.Get_sent ref;
                 RoutersUpdate.Patch_sent ref replacement cleared_fields])).
Proof.
  unfold RoutersUpdate.Run.
  unfold mbind, RoutersUpdate.M_bind, RoutersUpdate.lift, RoutersUpdate.send.
  split.
  { intros e ->. reflexivity. }
  destruct (RoutersUpdate.CheckIncompatibleFlagsOrRaise utils args) as [[] | e].
  2: { exists []. rewrite app_nil_r. auto. }
  destruct (RoutersUpdate.ResolveAsResource utils args) as [ref | e].
  2: { exists []. rewrite app_nil_r. auto. }
  simpl.
  destruct (RoutersUpdate.Get _ client ref (RoutersUpdate.remote _ w))
    as [[fetched | e] remote1] eqn:Hget; simpl.
  2: { eexists. split; [reflexivity |]. right. exists ref. auto. }
  destruct fetched as [|existing rest]; simpl.
  { eexists. split; [reflexivity |]. right. exists ref. auto. }
  destruct (RoutersUpdate.replace_advertisements utils args _ _) as [b1 | e]; simpl.
  2: { eexists. split; [reflexivity |]. right. exists ref. auto. }
  destruct (RoutersUpdate.incremental_advertisements utils args b1) as [b2 | e];
    simpl.
  2: { eexists. split; [reflexivity |]. right. exists ref. auto. }
  destruct (RoutersUpdate.Patch _ client ref _ _ remote1) as [r remote2]; simpl.
  eexists. split; [rewrite <- app_assoc; reflexivity |].
  right. exists ref. split; [reflexivity |]. right.
  exists existing, rest, remote1,
    {| RoutersUpdate.router_name := RoutersUpdate.router_name existing;
       RoutersUpdate.bgp := b2 |},
    (RoutersUpdate.cleared_fields_of b2).
  split; [exact Hget |].
  split; [reflexivity |]. split; [| reflexivity].
  intros field. apply cleared_fields_exact.
Qed.

(** X22: without advertisement flags the router is sent back as it was
    fetched: the Patch request carries the existing router, with the cleared
    fields of its own lists, and the command returns what the Patch returns. *)
Theorem Run_without_advertisement_flags w (ref : Ref)
  (existing : RoutersUpdate.Router Mode Group Prefix)
  (rest : list (RoutersUpdate.Router Mode Group Prefix)) (remote1 : R) :
  RoutersUpdate.CheckIncompatibleFlagsOrRaise utils args = Ok tt →
  RoutersUpdate.ResolveAsResource utils args = Ok ref →
  RoutersUpdate.HasReplaceAdvertisementFlags utils args = false →
  RoutersUpdate.HasIncrementalAdvertisementFlags utils args = false →
  RoutersUpdate.Get _ client ref (RoutersUpdate.remote _ w) =
    (Ok (existing :: rest), remote1) →
  RoutersUpdate.Run utils client args w =
    ((RoutersUpdate.Patch _ client ref existing
        (RoutersUpdate.cleared_fields_of (RoutersUpdate.bgp existing)) remote1).1,
     {| RoutersUpdate.remote :=
          (RoutersUpdate.Patch _ client ref existing
             (RoutersUpdate.cleared_fields_of (RoutersUpdate.bgp existing))
             remote1).2;
        RoutersUpdate.trace :=
          RoutersUpdate.trace _ w ++
          [RoutersUpdate.Get_sent ref;
           RoutersUpdate.Patch_sent ref existing
             (RoutersUpdate.cleared_fields_of (RoutersUpdate.bgp existing))] |}).
Proof.
  intros Hcheck Hresolve Hreplace Hincremental Hget.
  unfold RoutersUpdate.Run.
  unfold mbind, RoutersUpdate.M_bind, RoutersUpdate.lift, RoutersUpdate.send.
  rewrite Hcheck, Hresolve. simpl. rewrite Hget. simpl.
  unfold RoutersUpdate.replace_advertisements,
    RoutersUpdate.incremental_advertisements.
  rewrite Hreplace, Hincremental. simpl.
  destruct existing as [name existing_bgp]. simpl.
  destruct (RoutersUpdate.Patch _ client ref _ _ remote1) as [r remote2]. simpl.
  rewrite <- app_assoc. reflexivity.
Qed.

(** X23: adding advertisement groups to a router in custom mode, with no
    other incremental flag, appends the parsed groups to the ones advertised
    and changes nothing else; unless both lists of groups are empty, the
    advertised groups are not named as cleared. *)
Theorem incremental_add_groups b (g : string) (gs : list string)
  (parsed : list Group) :
  RoutersUpdate.HasIncrementalAdvertisementFlags utils args = true →
  RoutersUpdate.ValidateCustomMode utils b = Ok tt →
  RoutersUpdate.add_advertisement_groups args = Some (g :: gs) →
  RoutersUpdate.ParseGroups utils (g :: gs) = Ok parsed →
  truthy (RoutersUpdate.remove_advertisement_groups args) = false →
  truthy (RoutersUpdate.add_advertisement_ranges args) = false →
  truthy (RoutersUpdate.remove_advertisement_ranges args) = false →
  RoutersUpdate.incremental_advertisements utils args b =
    Ok {| RoutersUpdate.asn := RoutersUpdate.asn b;
          RoutersUpdate.advertiseMode := RoutersUpdate.advertiseMode b;
          RoutersUpdate.advertisedGroups :=
            RoutersUpdate.advertisedGroups b ++ parsed;
          RoutersUpdate.advertisedPrefixs := RoutersUpdate.advertisedPrefixs b |} ∧
  (RoutersUpdate.advertisedGroups b ≠ [] ∨ parsed ≠ [] →
   "bgp.advertisedGroups" ∉
     RoutersUpdate.cleared_fields_of
       {| RoutersUpdate.asn := RoutersUpdate.asn b;
          RoutersUpdate.advertiseMode := RoutersUpdate.advertiseMode b;
          RoutersUpdate.advertisedGroups :=
            RoutersUpdate.advertisedGroups b ++ parsed;
          RoutersUpdate.advertisedPrefixs := RoutersUpdate.advertisedPrefixs b |}).
Proof.
  intros Hinc Hmode Hadd Hparsed Hrg Har Hrr. split.
  - unfold RoutersUpdate.incremental_advertisements.
    rewrite Hinc, Hmode, Hadd, Hparsed. simpl.
    destruct (RoutersUpdate.remove_advertisement_groups args) as [[|? ?] |];
      try discriminate Hrg;
      destruct (RoutersUpdate.add_advertisement_ranges args) as [[|? ?] |];
      try discriminate Har;
      destruct (RoutersUpdate.remove_advertisement_ranges args) as [[|? ?] |];
      try discriminate Hrr; reflexivity.
  - intros Hne Hin. apply cleared_fields_exact in Hin as [[_ H] | [H _]];
      [| discriminate]. simpl in H. apply app_eq_nil in H as [H1 H2].
    destruct Hne as [Hne | Hne]; congruence.
Qed.

End RouterUpdate.

Lemma Run_without_advertisement_flags_witness :
  let w :=
    {| RoutersUpdate.remote := Spec.sample_router; RoutersUpdate.trace := [] |} in
  RoutersUpdate.Run (Spec.sample_router_utils false false)
    Spec.sample_router_client (Spec.router_args None) w =
  (Ok [Spec.sample_router],
   {| RoutersUpdate.remote := Spec.sample_router;
      RoutersUpdate.trace :=
        [RoutersUpdate.Get_sent "my-router";
         RoutersUpdate.Patch_sent "my-router" Spec.sample_router
           ["bgp.advertisedGroups"]] |}).
Proof.
  intros w.
  exact (Run_without_advertisement_flags (Spec.sample_router_utils false false)
           Spec.sample_router_client (Spec.router_args None) w "my-router"
           Spec.sample_router [] Spec.sample_router
           eq_refl eq_refl eq_refl eq_refl eq_refl).
Defined.

Lemma incremental_add_groups_witness :
  RoutersUpdate.incremental_advertisements (Spec.sample_router_utils false true)
    (Spec.router_args (Some ["ALL_SUBNETS"]))
    (RoutersUpdate.bgp Spec.sample_router) =
  Ok {| RoutersUpdate.asn := Some 65001%Z;
        RoutersUpdate.advertiseMode := Some "CUSTOM";
        RoutersUpdate.advertisedGroups := ["ALL_SUBNETS"];
        RoutersUpdate.advertisedPrefixs := ["10.0.0.0/8"] |}.
Proof.
  exact (proj1 (incremental_add_groups (Spec.sample_router_utils false true)
                  (Spec.router_args (Some ["ALL_SUBNETS"]))
                  (RoutersUpdate.bgp Spec.sample_router)
                  "ALL_SUBNETS" [] ["ALL_SUBNETS"]
                  eq_refl eq_refl eq_refl eq_refl eq_refl eq_refl eq_refl)).
Defined.
